(** * Grid: interactive manipulation engine of the vector-drawing editor

    A shallow embedding of the path-node model ([PathNodes],
    [PathNodeSetPoint], [PathNodeSetOnePoint]), the snapping engine
    ([SnapToPt], [SnapToIncr], [SnapCurBBox]), the drag controllers
    ([SpriteReshapeDrag], [SpriteRotateDrag]), the action start
    ([ManipStart]) and the sprite identity functions ([SpriteName],
    [SetSpriteProps], [SpriteProps]) of the Go package [grid], followed by
    the properties of the specification that concern them.

    Conventions of the embedding.
    - Go [float32] values are exact rationals ([Qc], canonical fractions
      with Leibniz equality): rounding error, infinities and NaN are not
      modelled.  Go [int] values are [Z] (or [nat] for slice indices).
    - A Go method that mutates its receiver becomes a function that returns
      the new value; a method that can panic (index out of range) returns
      [option], [None] standing for the panic.
    - The global [Prefs] is passed explicitly as a [Preferences] value.
    - Rendering side effects (sprite repositioning, overlay repaint, the
      [go sv.ManipUpdate()] refresh task) do not touch the state the
      properties are about and are left out. *)

From stdpp Require Import base numbers list strings gmap pretty.
From Stdlib Require Import QArith Qcanon Qround Lqa Lia.

#[local] Open Scope Qc_scope.

(** ** Numbers *)

Abbreviation float32 := Qc (only parsing).

(** The rational [n / d]. *)
Definition frac (n : Z) (d : positive) : float32 := Q2Qc (n # d).

(** Go's [float32(k)] for an integer [k]. *)
Definition ofInt (k : Z) : float32 := Qc_of_Z k.

(** ** Package [image] *)

Module image.

(** [image.Point]. *)
Record Point : Type := mkPoint { X : Z; Y : Z }.

End image.

(** ** Package [mat32]

    The vector library is a dependency of the repository; its functions are
    modelled after their documented meaning. *)

Module mat32.

(** [math.MaxFloat32], the largest finite [float32]:
    (2 - 2^-23) * 2^127. *)
Definition MaxFloat32 : float32 :=
  ofInt 340282346638528859811704183484516925440.

Definition Abs (x : float32) : float32 :=
  if decide (0 ≤ x) then x else - x.

Definition Min (a b : float32) : float32 :=
  if decide (a < b) then a else b.

(** [mat32.Round]: nearest integer, halves away from zero (Go's
    [math.Round]). *)
Definition Round (x : float32) : float32 :=
  if decide (0 ≤ x) then ofInt (Qfloor (x + frac 1 2))
  else - ofInt (Qfloor (- x + frac 1 2)).

Record Vec2 : Type := V2 { X : float32; Y : float32 }.

(** The zero value [mat32.Vec2{}]. *)
Definition Vec2Zero : Vec2 := V2 0 0.

Definition NewVec2FmPoint (p : image.Point) : Vec2 :=
  V2 (ofInt (image.X p)) (ofInt (image.Y p)).

Definition Add (v o : Vec2) : Vec2 := V2 (X v + X o) (Y v + Y o).
Definition Sub (v o : Vec2) : Vec2 := V2 (X v - X o) (Y v - Y o).
Definition MulScalar (v : Vec2) (s : float32) : Vec2 := V2 (X v * s) (Y v * s).
Definition SubScalar (v : Vec2) (s : float32) : Vec2 := V2 (X v - s) (Y v - s).
Definition Div (v o : Vec2) : Vec2 := V2 (X v / X o) (Y v / Y o).

(** [v.SetAdd(o)] and [v.SetMin(o)] mutate [v]; here they return it. *)
Definition SetAdd (v o : Vec2) : Vec2 := Add v o.
Definition SetMin (v o : Vec2) : Vec2 := V2 (Min (X v) (X o)) (Min (Y v) (Y o)).

(** [mat32.Box2]. *)
Record Box2 : Type := mkBox2 { Min_ : Vec2; Max_ : Vec2 }.

Definition Size (b : Box2) : Vec2 := Sub (Max_ b) (Min_ b).

(** [mat32.Mat2], a 2D affine transform
    [[XX XY X0] [YX YY Y0]]. *)
Record Mat2 : Type :=
  mkMat2 { XX : float32; YX : float32; XY : float32; YY : float32;
           X0 : float32; Y0 : float32 }.

Definition Identity2D : Mat2 := mkMat2 1 0 0 1 0 0.

Definition Scale2D (x y : float32) : Mat2 := mkMat2 x 0 0 y 0 0.

Definition MulVec2AsVec (a : Mat2) (v : Vec2) : Vec2 :=
  V2 (XX a * X v + XY a * Y v) (YX a * X v + YY a * Y v).

Definition MulVec2AsPt (a : Mat2) (v : Vec2) : Vec2 :=
  V2 (XX a * X v + XY a * Y v + X0 a) (YX a * X v + YY a * Y v + Y0 a).

(** [a.MulVec2AsPtCtr(pt, ctr)]: the linear part of [a] applied to [pt]
    relative to the centre [ctr], then the translation of [a]. *)
Definition MulVec2AsPtCtr (a : Mat2) (pt ctr : Vec2) : Vec2 :=
  let rel := Sub pt ctr in
  V2 (X ctr + XX a * X rel + XY a * Y rel + X0 a)
     (Y ctr + YX a * X rel + YY a * Y rel + Y0 a).

Definition Inverse (a : Mat2) : Mat2 :=
  let det := XX a * YY a - XY a * YX a in
  let detInv := 1 / det in
  mkMat2 (YY a * detInv) (- YX a * detInv) (- XY a * detInv) (XX a * detInv)
         ((Y0 a * XY a - YY a * X0 a) * detInv)
         ((X0 a * YX a - XX a * Y0 a) * detInv).

End mat32.

Import mat32.

(** ** Package [svg]: path data

    The path-data stream and its iterator belong to the vector-document
    library the editor builds on; they are modelled after the specification
    (section 4.2) and the SVG meaning of the commands. *)

Module svg.

(** [svg.PathCmds]: absolute commands are even, relative ones odd. *)
Inductive PathCmds : Type :=
| PcM | Pcm | PcL | Pcl | PcH | Pch | PcV | Pcv | PcC | Pcc
| PcS | Pcs | PcQ | Pcq | PcT | Pct | PcA | Pca | PcZ | Pcz | PcErr.

#[export] Instance PathCmds_eq_dec : EqDecision PathCmds.
Proof. solve_decision. Defined.

(** [svg.PathCmdIsRel]: odd commands are relative. *)
Definition PathCmdIsRel (pc : PathCmds) : bool :=
  match pc with
  | Pcm | Pcl | Pch | Pcv | Pcc | Pcs | Pcq | Pct | Pca | Pcz => true
  | _ => false
  end.

(** One cell of [path.Data].  The library packs a command and its operand
    count into the bits of a [float32]; the embedding keeps the two kinds
    of cell apart. *)
Inductive PathData : Type :=
| PdCmd (c : PathCmds) (n : nat)
| PdVal (v : float32).

(** Number of operands that encode one point of a command. *)
Definition OperandsPerPoint (c : PathCmds) : nat :=
  match c with
  | PcM | Pcm | PcL | Pcl | PcT | Pct => 2
  | PcH | Pch | PcV | Pcv => 1
  | PcC | Pcc => 6
  | PcS | Pcs | PcQ | Pcq => 4
  | PcA | Pca => 7
  | PcZ | Pcz | PcErr => 0
  end.

(** Number of cells that hold the end point of a command: one for the
    horizontal and vertical commands, two for the others. *)
Definition PointCells (c : PathCmds) : nat :=
  match c with
  | PcH | Pch | PcV | Pcv => 1
  | _ => 2
  end.

(** Points read after a command cell with operand count [n]: a move always
    reads its first point. *)
Definition NumPoints (c : PathCmds) (n : nat) : nat :=
  match c with
  | PcM | Pcm => Nat.max 1 (n / 2)
  | PcZ | Pcz | PcErr => 0
  | _ => (n / OperandsPerPoint c)%nat
  end.

(** New current point after a point of command [c] whose last two operands
    are [a] and [b] (for a one-operand command only [b] is meaningful),
    from the current point [cp]. *)
Definition EndPoint (c : PathCmds) (cp : Vec2) (a b : float32) : Vec2 :=
  match c with
  | PcM | PcL | PcT | PcC | PcS | PcQ | PcA => V2 a b
  | Pcm | Pcl | Pct | Pcc | Pcs | Pcq | Pca => V2 (X cp + a) (Y cp + b)
  | PcH => V2 b (Y cp)
  | Pch => V2 (X cp + b) (Y cp)
  | PcV => V2 (X cp) b
  | Pcv => V2 (X cp) (Y cp + b)
  | PcZ | Pcz | PcErr => cp
  end.

Definition IsMove (c : PathCmds) : bool :=
  match c with PcM | Pcm => true | _ => false end.

Definition IsClose (c : PathCmds) : bool :=
  match c with PcZ | Pcz => true | _ => false end.

(** State of the walk over the stream: [it_i] is the index of the next
    cell, [it_pts] the number of points of the current command still to be
    completed (0: a command cell is expected), [it_need] the operands still
    missing for the point in progress, [it_prev] the operand read last for
    that point (0 when none is pending),
    [it_cp] the current point, [it_st] the start of the current sub-path,
    [it_stop] whether the callback asked to stop and [it_acc] the state the
    callback closes over. *)
Record Iter (A : Type) : Type := mkIter {
  it_i : nat;
  it_cmd : PathCmds;
  it_pts : nat;
  it_ptIdx : nat;
  it_need : nat;
  it_prev : float32;
  it_cp : Vec2;
  it_st : Vec2;
  it_stop : bool;
  it_acc : A
}.
Arguments mkIter {A}.
Arguments it_i {A}.
Arguments it_cmd {A}.
Arguments it_pts {A}.
Arguments it_ptIdx {A}.
Arguments it_need {A}.
Arguments it_prev {A}.
Arguments it_cp {A}.
Arguments it_st {A}.
Arguments it_stop {A}.
Arguments it_acc {A}.

Definition IterInit {A : Type} (a : A) : Iter A :=
  mkIter 0 PcErr 0 0 0 0 Vec2Zero Vec2Zero false a.

(** The callback type of [PathDataIterFunc]: index of the point's first
    end-point cell, command, index of the point within the command, the
    resolved absolute point; it returns [false] to stop the walk.  The
    control points handed to the callback are not modelled: none of the
    operations below reads them. *)
Definition IterFun (A : Type) : Type :=
  nat -> PathCmds -> nat -> Vec2 -> A -> A * bool.

(** One cell of the walk.  A command cell sets up the points to read (a
    close-path returns the current point to the start of the sub-path); a
    value cell is an operand, and the operand that completes a point
    resolves it against the current point and calls the callback.  A cell
    of the wrong kind is a malformed stream ([None]). *)
Definition IterStep {A : Type} (f : IterFun A) (s : Iter A) (d : PathData)
  : option (Iter A) :=
  if it_stop s then Some s else
  match it_pts s, d with
  | O, PdCmd c n =>
      if IsClose c then
        Some (mkIter (S (it_i s)) (it_cmd s) 0 (it_ptIdx s) (it_need s)
                (it_prev s) (it_st s) (it_st s) false (it_acc s))
      else
        Some (mkIter (S (it_i s)) c (NumPoints c n) 0 (OperandsPerPoint c)
                (it_prev s) (it_cp s) (it_st s) false (it_acc s))
  | O, PdVal _ => None
  | S k, PdVal v =>
      if decide (it_need s = 1%nat) then
        let cp := EndPoint (it_cmd s) (it_cp s) (it_prev s) v in
        let idx := (S (it_i s) - PointCells (it_cmd s))%nat in
        let '(a, cont) := f idx (it_cmd s) (it_ptIdx s) cp (it_acc s) in
        let st := if IsMove (it_cmd s) && bool_decide (it_ptIdx s = O)
                  then cp else it_st s in
        Some (mkIter (S (it_i s)) (it_cmd s) k (S (it_ptIdx s))
                (OperandsPerPoint (it_cmd s)) 0 cp st (negb cont) a)
      else
        Some (mkIter (S (it_i s)) (it_cmd s) (S k) (it_ptIdx s)
                (it_need s - 1) v (it_cp s) (it_st s) false (it_acc s))
  | S _, PdCmd _ _ => None
  end.

(** The walk over a list of cells, left to right. *)
Fixpoint IterRun {A : Type} (f : IterFun A) (s : Iter A) (data : list PathData)
  : option (Iter A) :=
  match data with
  | [] => Some s
  | d :: rest =>
      match IterStep f s d with
      | Some s' => IterRun f s' rest
      | None => None
      end
  end.

(** Modelled from the spec: [svg.PathDataIterFunc], which "walks the path's
    flat command/operand stream once, tracking the previous absolute point
    to resolve relative commands" and calls [fun] on every point.  A stream
    that ends inside a command is an index panic ([None]). *)
Definition PathDataIterFunc {A : Type} (data : list PathData) (f : IterFun A)
  (a : A) : option A :=
  match IterRun f (IterInit a) data with
  | Some s =>
      if it_stop s then Some (it_acc s)
      else if decide (it_pts s = O) then Some (it_acc s) else None
  | None => None
  end.

(** [svg.Path]: the data stream, the cumulative transform of the path and
    its parents ([path.ParTransform(true)]) and the window bounding box
    minimum ([path.WinBBox.Min]). *)
Record Path : Type := mkPath {
  Data : list PathData;
  ParXf : Mat2;
  WinBBoxMin : image.Point
}.

(** [path.ParTransform(self)], called with [self = true] only. *)
Definition ParTransform (path : Path) : Mat2 := ParXf path.

(** Modelled from the spec: [path.DeltaTransform(trans, scale, rot, pt,
    self)] at rotation 0, the only rotation the path code passes: the
    transform that applies [scale] about the pivot and then the translation
    [trans], both taken into the local coordinates of the path through the
    inverse of its cumulative transform; returned with the local pivot. *)
Definition DeltaTransform (path : Path) (trans scale pt : Vec2) : Mat2 * Vec2 :=
  let mxi := Inverse (ParTransform path) in
  let lpt := MulVec2AsPt mxi pt in
  let ldel := MulVec2AsVec mxi trans in
  let xf := Scale2D (X scale) (Y scale) in
  (mkMat2 (XX xf) (YX xf) (XY xf) (YY xf) (X ldel) (Y ldel), lpt).

End svg.

Import svg.

(** ** Package [grid]: path nodes (path.go) *)

(** [PathNode]: info about each node of the path being edited.  The
    [WinCtrls] field (control points, unused by the operations below) is
    left out. *)
Record PathNode : Type := mkPathNode {
  Cmd : PathCmds;       (* path command *)
  PrevCmd : PathCmds;   (* previous path command *)
  CmdIdx : nat;         (* starting index of command *)
  Idx : nat;            (* index of points in data stream *)
  PtIdx : nat;          (* logical index of point within current command *)
  PCp : Vec2;           (* previous current point, local abs coords *)
  Cp : Vec2;            (* current point, local abs coords *)
  WinPt : Vec2          (* main point in window coords *)
}.

(** The variables the callback of [PathNodes] closes over. *)
Record NodesAcc : Type := mkNodesAcc {
  lstCmdIdx : nat;
  lstCmd : PathCmds;
  nc : list PathNode;
  cidxs : list nat;
  pcp : Vec2
}.

(** The callback of [PathNodes]. *)
Definition PathNodesFun (pxf : Mat2) (svoff : Vec2) : IterFun NodesAcc :=
  fun idx cmd ptIdx cp a =>
    let cw := Add (MulVec2AsPt pxf cp) svoff in
    let lci := if decide (ptIdx = O) then (idx - 1)%nat else lstCmdIdx a in
    let cs := if decide (ptIdx = O) then cidxs a ++ [lci] else cidxs a in
    let pn := mkPathNode cmd (lstCmd a) lci idx ptIdx (pcp a) cp cw in
    (mkNodesAcc lci cmd (nc a ++ [pn]) cs cp, true).

(** [sv.PathNodes(path)]: the node data of the path and the list of
    indexes where commands start; [svoff] is [sv.WinBBox.Min] as a
    vector. *)
Definition PathNodes (svoff : Vec2) (path : Path)
  : option (list PathNode * list nat) :=
  let pxf := ParTransform path in
  match PathDataIterFunc (Data path) (PathNodesFun pxf svoff)
          (mkNodesAcc 0 PcErr [] [] Vec2Zero) with
  | Some a => Some (nc a, cidxs a)
  | None => None
  end.

(** [path.Data[i] = PathData(v)]: an index out of range panics. *)
Definition SetData (path : Path) (i : nat) (v : float32) : option Path :=
  if decide (i < length (Data path))%nat
  then Some (mkPath (<[i := PdVal v]> (Data path)) (ParXf path) (WinBBoxMin path))
  else None.

(** [sv.PathNodeSetPoint(path, pn, npt)]: sets the data point of the node
    to the new point, given in absolute local coordinates; translated into
    relative coordinates as needed. *)
Definition PathNodeSetPoint (path : Path) (pn : PathNode) (npt : Vec2)
  : option Path :=
  if bool_decide (Idx pn = 1%nat) || negb (PathCmdIsRel (Cmd pn)) then
    match Cmd pn with
    | PcH => SetData path (Idx pn) (X npt)
    | PcV => SetData path (Idx pn) (Y npt)
    | _ =>
        path' ← SetData path (Idx pn) (X npt);
        SetData path' (Idx pn + 1) (Y npt)
    end
  else
    match Cmd pn with
    | Pch => SetData path (Idx pn) (X npt - X (PCp pn))
    | Pcv => SetData path (Idx pn) (Y npt - Y (PCp pn))
    | _ =>
        path' ← SetData path (Idx pn) (X npt - X (PCp pn));
        SetData path' (Idx pn + 1) (Y npt - Y (PCp pn))
    end.

(** The test that ends the compensation loop of [PathNodeSetOnePoint]. *)
Definition StopsCompensation (c : PathCmds) : bool :=
  negb (PathCmdIsRel c)
  || bool_decide (c = PcZ) || bool_decide (c = Pcz)
  || bool_decide (c = Pcm) || bool_decide (c = PcM).

(** The loop of [PathNodeSetOnePoint] over the nodes [pts[i:]]; [first]
    tells whether [i == pidx]. *)
Fixpoint SetOnePointLoop (path : Path) (rest : list PathNode) (first : bool)
  (dv svoff : Vec2) : option Path :=
  match rest with
  | [] => Some path
  | pn :: rest' =>
      let wbmin := NewVec2FmPoint (WinBBoxMin path) in
      let pt := Sub wbmin svoff in
      let '(xf, lpt) := DeltaTransform path dv (V2 1 1) pt in
      let npt := MulVec2AsPtCtr xf (Cp pn) lpt in
      match PathNodeSetPoint path pn npt with
      | Some path' =>
          if first then SetOnePointLoop path' rest' false (MulScalar dv (-1)) svoff
          else if StopsCompensation (Cmd pn) then Some path'
          else SetOnePointLoop path' rest' false dv svoff
      | None => None
      end
  end.

(** [sv.PathNodeSetOnePoint(path, pts, pidx, dv, svoff)]: moves the node
    [pidx] by the delta [dv] (window coordinates); the following points are
    moved in the opposite direction to compensate. *)
Definition PathNodeSetOnePoint (path : Path) (pts : list PathNode) (pidx : nat)
  (dv svoff : Vec2) : option Path :=
  SetOnePointLoop path (drop pidx pts) true dv svoff.

(** ** Package [grid]: preferences (prefs.go) *)

(** The fields of [Preferences] that the manipulation code reads. *)
Record Preferences : Type := mkPreferences {
  GridDisp : bool;   (* turns on the grid display *)
  SnapGrid : bool;   (* snap positions and sizes to underlying grid *)
  SnapGuide : bool;  (* snap positions and sizes to line up with other elements *)
  SnapNodes : bool;  (* snap node movements to align with guides *)
  SnapTol : Z        (* number of screen pixels around target point to snap; min 1 *)
}.

(** [pf.Defaults()]. *)
Definition Defaults : Preferences := mkPreferences true true true true 3.

(** ** Package [grid]: alignment anchors *)

(** [BBoxPoints]: the control points within a bounding box, in the order
    the loop of [SnapCurBBox] visits them ([BBLeft] up to, not including,
    [BBoxPointsN]). *)
Inductive BBoxPoints : Type :=
| BBLeft | BBCenter | BBRight | BBTop | BBMiddle | BBBottom | BBoxPointsN.

#[export] Instance BBoxPoints_eq_dec : EqDecision BBoxPoints.
Proof. solve_decision. Defined.

(** The anchors [ap] with [BBLeft <= ap < BBoxPointsN]. *)
Definition AllBBoxPoints : list BBoxPoints :=
  [BBLeft; BBCenter; BBRight; BBTop; BBMiddle; BBBottom].

(** Modelled from the spec: [ap.ValBox(bb)], the coordinate of the anchor
    [ap] of the box: "left/center/right edges and top/middle/bottom
    edges" (the method is not among the sources at hand). *)
Definition ValBox (ev : BBoxPoints) (bb : Box2) : float32 :=
  match ev with
  | BBLeft => X (Min_ bb)
  | BBCenter => frac 1 2 * (X (Min_ bb) + X (Max_ bb))
  | BBRight => X (Max_ bb)
  | BBTop => Y (Min_ bb)
  | BBMiddle => frac 1 2 * (Y (Min_ bb) + Y (Max_ bb))
  | BBBottom => Y (Max_ bb)
  | BBoxPointsN => 0
  end.

(** Modelled from the spec: [ap.MoveDelta(bb, delta)], which must "shift
    the corresponding bbox edge/corner by the snap delta": the box is moved
    by [delta] along the axis of the anchor (the method is not among the
    sources at hand). *)
Definition MoveDelta (ev : BBoxPoints) (bb : Box2) (delta : float32) : Box2 :=
  match ev with
  | BBLeft | BBCenter | BBRight =>
      mkBox2 (V2 (X (Min_ bb) + delta) (Y (Min_ bb)))
             (V2 (X (Max_ bb) + delta) (Y (Max_ bb)))
  | BBTop | BBMiddle | BBBottom =>
      mkBox2 (V2 (X (Min_ bb)) (Y (Min_ bb) + delta))
             (V2 (X (Max_ bb)) (Y (Max_ bb) + delta))
  | BBoxPointsN => bb
  end.

(** ** Package [grid]: edit state *)

(** [SelState]: the state of a selected element, with the geometry it had
    when the manipulation started. *)
Record SelState : Type := mkSelState { InitGeom : list float32 }.

(** The fields of [EditState] that the manipulation code reads and writes.
    Scene elements are named by a number; [Selected] is a Go map, whose
    iteration order is not fixed: the list gives one such order. *)
Record EditState : Type := mkEditState {
  Action : string;              (* current action name, empty when idle *)
  ActData : string;
  ActLocked : bool;             (* the action lock flag *)
  DragSelStartBBox : Box2;
  DragSelCurBBox : Box2;
  DragSelEffBBox : Box2;
  AlignPts : BBoxPoints -> list float32;
  Selected : list (nat * SelState)
}.

Definition setAction (es : EditState) (act data : string) (lock : bool) : EditState :=
  mkEditState act data lock (DragSelStartBBox es) (DragSelCurBBox es)
    (DragSelEffBBox es) (AlignPts es) (Selected es).

Definition setCurBBox (es : EditState) (bb : Box2) : EditState :=
  mkEditState (Action es) (ActData es) (ActLocked es) (DragSelStartBBox es) bb
    (DragSelEffBBox es) (AlignPts es) (Selected es).

Definition setEffBBox (es : EditState) (bb : Box2) : EditState :=
  mkEditState (Action es) (ActData es) (ActLocked es) (DragSelStartBBox es)
    (DragSelCurBBox es) bb (AlignPts es) (Selected es).

(** Modelled from the spec: [es.InAction()], true when an action is in
    progress ("current action name (empty = idle)"). *)
Definition InAction (es : EditState) : bool :=
  negb (bool_decide (Action es = EmptyString)).

(** Modelled from the spec: [es.ActStart(act, data)], which "is rejected
    (no-op) if already active", "guarded by an explicit lock flag
    set/cleared around the transition rather than by blocking": a start
    that is accepted records the name and the data and sets the flag. *)
Definition ActStart (es : EditState) (act data : string) : EditState :=
  if InAction es || ActLocked es then es
  else setAction es act data true.

(** Modelled from the spec: [es.ActUnlock()], which clears the lock flag
    once the steps of the start are done. *)
Definition ActUnlock (es : EditState) : EditState :=
  setAction es (Action es) (ActData es) false.

(** Modelled from the spec: [es.ActDone()], which "clears the active
    flag": the state is idle again. *)
Definition ActDone (es : EditState) : EditState :=
  setAction es EmptyString EmptyString (ActLocked es).

(** ** Package [grid]: the view and its manipulations (manip.go) *)

(** The fields of [SVGView] that the manipulation code reads and writes:
    the edit state, the window position of the view ([sv.WinBBox.Min]),
    the undo checkpoints taken by [sv.UndoSave] (oldest first), the grid
    spacing of the drawing, the dots of one unit of the drawing and the
    zoom factor. *)
Record SVGView : Type := mkSVGView {
  ES : EditState;
  SvWinBBoxMin : image.Point;
  Undos : list (string * string);
  Grid : float32;
  DotsPerUnit : float32;
  Scale : float32
}.

Definition setES (sv : SVGView) (es : EditState) : SVGView :=
  mkSVGView es (SvWinBBoxMin sv) (Undos sv) (Grid sv) (DotsPerUnit sv) (Scale sv).

(** [sv.UndoSave(act, data)] of the document library: one more
    checkpoint. *)
Definition UndoSave (sv : SVGView) (act data : string) : SVGView :=
  mkSVGView (ES sv) (SvWinBBoxMin sv) (Undos sv ++ [(act, data)]) (Grid sv)
    (DotsPerUnit sv) (Scale sv).

(** The collaborators the controllers call and the sources at hand do not
    define: the angle functions of [mat32] and the label that names the
    selection in the undo log. *)
Record Collab : Type := mkCollab {
  Atan2 : float32 -> float32 -> float32;
  RadToDeg : float32 -> float32;
  DegToRad : float32 -> float32;
  SelectedNamesString : EditState -> string
}.

(** [sv.ManipStart(act, data)]: called at the start of a manipulation,
    saving the state prior to the action. *)
Definition ManipStart (sv : SVGView) (act data : string) : SVGView :=
  let sv1 := setES sv (ActStart (ES sv) act data) in
  let sv2 := UndoSave sv1 act data in
  setES sv2 (ActUnlock (ES sv2)).

(** [sv.GridDots()]: the current grid spacing and offset in dots. *)
Definition GridDots (sv : SVGView) : float32 * float32 :=
  let grid := if decide (Grid sv ≤ 0) then ofInt 12 else Grid sv in
  let dots := grid * DotsPerUnit sv in
  let incr := dots * Scale sv in
  (incr, 0).

(** [SnapToPt(val, snap, tolRef)]: snaps the value to the given potential
    snap point, using [tolRef] as reference for the tolerance.  Returns
    true if snapped. *)
Definition SnapToPt (Prefs : Preferences) (val snap tolRef : float32)
  : float32 * bool :=
  let tol := ofInt (SnapTol Prefs) in
  let d := Abs (val - snap) in
  if decide (d < tol * tolRef) then (snap, true) else (val, false).

(** [SnapToIncr(val, off, incr)]: snaps the value to the given increment,
    first subtracting the offset.  Returns true if snapped. *)
Definition SnapToIncr (Prefs : Preferences) (val off incr : float32)
  : float32 * bool :=
  let tol := ofInt (SnapTol Prefs) in
  let nint := Round ((val - off) / incr) * incr + off in
  let dint := Abs (val - nint) in
  if decide (dint < tol * incr) then (nint, true) else (val, false).

(** The variables of the search loop of [SnapCurBBox]. *)
Record Closest : Type := mkClosest {
  clPt : BBoxPoints;
  clDst : float32;
  clVal : float32;
  bbval : float32
}.

Definition ClosestInit : Closest := mkClosest BBoxPointsN MaxFloat32 0 0.

(** Body of the inner loop, for the anchor [ap] with value [bbp] and the
    candidate [pt]. *)
Definition ClosestPt (ap : BBoxPoints) (bbp : float32) (c : Closest)
  (pt : float32) : Closest :=
  let dst := Abs (pt - bbp) in
  if decide (dst < clDst c) then mkClosest ap dst pt bbp else c.

(** Body of the outer loop, for the anchor [ap]. *)
Definition ClosestAnchor (es : EditState) (c : Closest) (ap : BBoxPoints)
  : Closest :=
  let bbp := ValBox ap (DragSelCurBBox es) in
  foldl (ClosestPt ap bbp) c (AlignPts es ap).

(** The two loops of [SnapCurBBox]. *)
Definition ClosestAlign (es : EditState) : Closest :=
  foldl (ClosestAnchor es) ClosestInit AllBBoxPoints.

(** [sv.SnapCurBBox(move)]: does snapping on the current bbox according
    to the preferences.  The grid branch of the source is empty. *)
Definition SnapCurBBox (Prefs : Preferences) (sv : SVGView) (move : bool)
  : SVGView :=
  let es := setEffBBox (ES sv) (DragSelCurBBox (ES sv)) in
  let '(grinc, groff) := GridDots sv in
  let '(es, snapped) :=
    if SnapGuide Prefs then
      let c := ClosestAlign es in
      let '(sval, snap) := SnapToPt Prefs (bbval c) (clVal c) grinc in
      if snap then
        ((if move
          then setEffBBox es (MoveDelta (clPt c) (DragSelEffBBox es) (sval - bbval c))
          else es), true)
      else (es, false)
    else (es, false) in
  if negb snapped && SnapGrid Prefs then setES sv es else setES sv es.

(** ** Package [grid]: the drag handles (sprites_string.go) *)

Module sprites_string.

(** The values of [Sprites] that name the eight handles of the selection
    box, as the generated stringer lists them. *)
Inductive Sprites : Type :=
| SizeUpL | SizeUpM | SizeUpR | SizeDnL | SizeDnM | SizeDnR | SizeLfC | SizeRtC
| SpritesN.

End sprites_string.

Import sprites_string.

(** One call of [itm.ReadGeom(ss.InitGeom)] followed by
    [itm.ApplyDeltaXForm(trans, scale, rot, pt)] on a selected element;
    [xfGradients] tells whether the gradient points were updated too. *)
Record XFormCall : Type := mkXFormCall {
  xfItem : nat;
  xfGeom : list float32;
  xfTrans : Vec2;
  xfScale : Vec2;
  xfRot : float32;
  xfPivot : Vec2;
  xfGradients : bool
}.

(** The loop over [es.Selected] shared by the two drag controllers. *)
Definition ApplyToSelected (es : EditState) (del sc : Vec2) (ang : float32)
  (pt : Vec2) : list XFormCall :=
  map (fun '(itm, ss) =>
         mkXFormCall itm (InitGeom ss) del sc ang pt
           (String.prefix "New" (Action es)))
      (Selected es).

(** The switch of [SpriteReshapeDrag]: the part of the current box each
    handle moves. *)
Definition ReshapeCurBBox (sp : Sprites) (dv : Vec2) (bb : Box2) : Box2 :=
  match sp with
  | SizeUpL => mkBox2 (SetAdd (Min_ bb) dv) (Max_ bb)
  | SizeUpM => mkBox2 (V2 (X (Min_ bb)) (Y (Min_ bb) + Y dv)) (Max_ bb)
  | SizeUpR => mkBox2 (V2 (X (Min_ bb)) (Y (Min_ bb) + Y dv))
                      (V2 (X (Max_ bb) + X dv) (Y (Max_ bb)))
  | SizeDnL => mkBox2 (V2 (X (Min_ bb) + X dv) (Y (Min_ bb)))
                      (V2 (X (Max_ bb)) (Y (Max_ bb) + Y dv))
  | SizeDnM => mkBox2 (Min_ bb) (V2 (X (Max_ bb)) (Y (Max_ bb) + Y dv))
  | SizeDnR => mkBox2 (Min_ bb) (SetAdd (Max_ bb) dv)
  | SizeLfC => mkBox2 (V2 (X (Min_ bb) + X dv) (Y (Min_ bb))) (Max_ bb)
  | SizeRtC => mkBox2 (Min_ bb) (V2 (X (Max_ bb) + X dv) (Y (Max_ bb)))
  | SpritesN => bb
  end.

(** [sv.SpriteReshapeDrag(sp, delta, win)]: processes a mouse reshape
    drag event on a selection sprite.  Returns the new view and the calls
    made on the selected elements. *)
Definition SpriteReshapeDrag (Prefs : Preferences) (co : Collab)
  (sv : SVGView) (sp : Sprites) (delta : image.Point)
  : SVGView * list XFormCall :=
  let sv := if InAction (ES sv) then sv
            else ManipStart sv "Reshape" (SelectedNamesString co (ES sv)) in
  let es := ES sv in
  let stsz := Size (DragSelStartBBox es) in
  let stpos := Min_ (DragSelStartBBox es) in
  let dv := NewVec2FmPoint delta in
  let cur := ReshapeCurBBox sp dv (DragSelCurBBox es) in
  (* don't allow flipping *)
  let cur := mkBox2 (SetMin (Min_ cur) (SubScalar (Max_ cur) 1)) (Max_ cur) in
  let sv := setES sv (setCurBBox es cur) in
  let sv := SnapCurBBox Prefs sv true in
  let es := ES sv in
  let npos := Min_ (DragSelEffBBox es) in
  let nsz := Size (DragSelEffBBox es) in
  let svoff := NewVec2FmPoint (SvWinBBoxMin sv) in
  let pt := Sub (Min_ (DragSelStartBBox es)) svoff in
  let del := Sub npos stpos in
  let sc := Div nsz stsz in
  (sv, ApplyToSelected es del sc 0 pt).

(** The switch of [SpriteRotateDrag]: the new current box, the pair
    [(dy, dx)] whose angle is taken, and the pivot. *)
Definition RotateCase (sp : Sprites) (dv : Vec2) (start cur : Box2)
  : Box2 * (float32 * float32) * Vec2 :=
  let pt := Min_ start in
  let ctr := MulScalar (Add (Min_ start) (Max_ start)) (frac 1 2) in
  let upR := mkBox2 (V2 (X (Min_ cur)) (Y (Min_ cur) + Y dv))
                    (V2 (X (Max_ cur) + X dv) (Y (Max_ cur))) in
  let dnL := mkBox2 (V2 (X (Min_ cur) + X dv) (Y (Min_ cur)))
                    (V2 (X (Max_ cur)) (Y (Max_ cur) + Y dv)) in
  let dnR := mkBox2 (Min_ cur) (SetAdd (Max_ cur) dv) in
  match sp with
  | SizeUpL =>
      let c := mkBox2 (SetAdd (Min_ cur) dv) (Max_ cur) in
      (c, (Y (Min_ start) - Y (Min_ c), X (Max_ start) - X (Min_ c)),
       V2 (X (Max_ start)) (Y pt))
  | SizeUpM =>
      (upR, (Y (Min_ upR) - Y (Min_ start), X (Max_ upR) - X (Min_ start)), ctr)
  | SizeUpR =>
      (upR, (Y (Min_ upR) - Y (Min_ start), X (Max_ upR) - X (Min_ start)),
       Min_ start)
  | SizeDnL =>
      (dnL, (Y (Max_ start) - Y (Max_ dnL), X (Max_ start) - X (Min_ dnL)),
       Max_ start)
  | SizeDnM =>
      (dnR, (Y (Max_ dnR) - Y (Max_ start), X (Max_ dnR) - X (Min_ start)), ctr)
  | SizeDnR =>
      (dnR, (Y (Max_ dnR) - Y (Max_ start), X (Max_ dnR) - X (Min_ start)),
       V2 (X (Min_ start)) (Y (Max_ start)))
  | SizeLfC =>
      (dnL, (Y (Max_ start) - Y (Max_ dnL), X (Max_ start) - X (Min_ dnL)), ctr)
  | SizeRtC =>
      (dnR, (Y (Max_ dnR) - Y (Max_ start), X (Max_ dnR) - X (Min_ start)), ctr)
  | SpritesN => (cur, (0, 0), pt)
  end.

(** The angle [SpriteRotateDrag] applies for the pair [(dy, dx)], in
    degrees: the angle of the pair snapped to increments of 15. *)
Definition RotateSnapDeg (Prefs : Preferences) (co : Collab)
  (dy dx : float32) : float32 :=
  fst (SnapToIncr Prefs (RadToDeg co (Atan2 co dy dx)) 0 (ofInt 15)).

(** [sv.SpriteRotateDrag(sp, delta, win)]: processes a mouse rotate drag
    event on a selection sprite. *)
Definition SpriteRotateDrag (Prefs : Preferences) (co : Collab)
  (sv : SVGView) (sp : Sprites) (delta : image.Point)
  : SVGView * list XFormCall :=
  let sv := if InAction (ES sv) then sv
            else ManipStart sv "Rotate" (SelectedNamesString co (ES sv)) in
  let es := ES sv in
  let dv := NewVec2FmPoint delta in
  let '(cur, (dy, dx), pt) :=
    RotateCase sp dv (DragSelStartBBox es) (DragSelCurBBox es) in
  let es := setCurBBox es cur in
  let sv := setES sv es in
  let ang := RotateSnapDeg Prefs co dy dx in
  let ang := DegToRad co ang in
  let svoff := NewVec2FmPoint (SvWinBBoxMin sv) in
  let pt := Sub pt svoff in
  let del := Vec2Zero in
  let sc := V2 1 1 in
  (sv, ApplyToSelected es del sc ang pt).

(** A sequence of reshape drag events: the views after each event. *)
Fixpoint ReshapeDrags (Prefs : Preferences) (co : Collab) (sv : SVGView)
  (evs : list (Sprites * image.Point)) : list SVGView :=
  match evs with
  | [] => []
  | (sp, delta) :: rest =>
      let sv' := fst (SpriteReshapeDrag Prefs co sv sp delta) in
      sv' :: ReshapeDrags Prefs co sv' rest
  end.

(** ** Package [grid]: sprites (sprites.go) *)

Module sprites.

(** [Sprites]: the type of sprite, and its subtypes. *)
Inductive Sprites : Type :=
| SpUnk | SpReshapeBBox | SpSelBBox | SpNodePoint | SpNodeCtrl | SpRubberBand
| SpAlignMatch
| SpBBoxUpL | SpBBoxUpC | SpBBoxUpR | SpBBoxDnL | SpBBoxDnC | SpBBoxDnR
| SpBBoxLfM | SpBBoxRtM
| SpritesN.

(** [SpriteNames[s]]: the name strings of the sprites; a key that is not
    in the Go map reads as the empty string. *)
Definition SpriteNames (s : Sprites) : string :=
  match s with
  | SpBBoxUpL => "up-l"
  | SpBBoxUpC => "up-c"
  | SpBBoxUpR => "up-r"
  | SpBBoxDnL => "dn-l"
  | SpBBoxDnC => "dn-c"
  | SpBBoxDnR => "dn-r"
  | SpBBoxLfM => "lf-m"
  | SpBBoxRtM => "rt-m"
  | SpReshapeBBox => "reshape-bbox"
  | SpSelBBox => "sel-bbox"
  | SpNodePoint => "node-point"
  | SpNodeCtrl => "node-ctrl"
  | SpRubberBand => "rubber-band"
  | SpAlignMatch => "align-match"
  | SpUnk | SpritesN => EmptyString
  end.

(** [fmt.Sprintf("%d", idx)]. *)
Definition fmtInt (idx : Z) : string := pretty idx.

(** [SpriteName(typ, subtyp, idx)]: the unique name of the sprite based on
    main type, subtype if relevant, and index if relevant. *)
Definition SpriteName (typ subtyp : Sprites) (idx : Z) : string :=
  let nm := SpriteNames typ in
  match typ with
  | SpReshapeBBox => nm +:+ "-" +:+ SpriteNames subtyp
  | SpSelBBox => nm +:+ "-" +:+ fmtInt idx +:+ "-" +:+ SpriteNames subtyp
  | SpNodePoint => nm +:+ "-" +:+ fmtInt idx
  | SpNodeCtrl => nm +:+ "-" +:+ fmtInt idx
  | SpRubberBand => nm +:+ "-" +:+ SpriteNames subtyp
  | SpAlignMatch => nm +:+ "-" +:+ fmtInt idx
  | _ => nm
  end.

(** A value of the property bag [ki.Props] (a Go [any]) with its dynamic
    type. *)
Inductive PropVal : Type :=
| PropSprites (s : Sprites)
| PropInt (i : Z)
| PropString (s : string).

(** The fields of [gi.Sprite] the identity functions use. *)
Record Sprite : Type := mkSprite {
  Name : string;
  Props : gmap string PropVal
}.

(** [SetSpriteProps(sp, typ, subtyp, idx)]: sets the sprite properties. *)
Definition SetSpriteProps (sp : Sprite) (typ subtyp : Sprites) (idx : Z)
  : Sprite :=
  mkSprite (SpriteName typ subtyp idx)
    (<["grid-idx" := PropInt idx]>
       (<["grid-sub" := PropSprites subtyp]>
          (<["grid-type" := PropSprites typ]> (Props sp)))).

(** [SpriteProps(sp)]: reads the sprite properties; returns [SpUnk] if not
    one of our sprites.  A failed type assertion panics ([None]). *)
Definition SpriteProps (sp : Sprite) : option (Sprites * Sprites * Z) :=
  match Props sp !! "grid-type" with
  | None => Some (SpUnk, SpUnk, 0%Z)
  | Some typi =>
      match typi, Props sp !! "grid-sub", Props sp !! "grid-idx" with
      | PropSprites typ, Some (PropSprites subtyp), Some (PropInt idx) =>
          Some (typ, subtyp, idx)
      | _, _, _ => None
      end
  end.

End sprites.

(** * Definitions used in the statements *)

(** ** Drag boxes, views and snap candidates *)

(** The box is at least one unit wide and high: the minimum corner lies
    at least one unit before the maximum corner on each axis. *)
Definition BBoxClamped (bb : Box2) : Prop :=
  X (Min_ bb) ≤ X (Max_ bb) - 1 /\ Y (Min_ bb) ≤ Y (Max_ bb) - 1.

(** The start box and the box a drag of [(10, 10)] at the lower-right
    handle gives. *)
Definition EndToEndStart : Box2 := mkBox2 (V2 0 0) (V2 (ofInt 100) (ofInt 50)).
Definition EndToEndEff : Box2 := mkBox2 (V2 0 0) (V2 (ofInt 110) (ofInt 60)).

(** A view at rest with one selected item, scale 1 and no origin offset. *)
Definition EndToEndView : SVGView :=
  mkSVGView
    (mkEditState EmptyString EmptyString false EndToEndStart EndToEndStart EndToEndStart
       (fun _ => []) [(1%nat, mkSelState [ofInt 5; ofInt 7])])
    (image.mkPoint 0 0) [] (ofInt 12) 1 1.

(** Preferences with every kind of snapping turned off. *)
Definition NoSnapPrefs : Preferences := mkPreferences true false false false 3.

(** Collaborators that answer with constants and identities. *)
Definition TrivialCollab : Collab :=
  mkCollab (fun _ _ => 0) (fun x => x) (fun x => x) (fun _ => "sel").

(** A view at rest with nothing selected. *)
Definition IdleView : SVGView :=
  mkSVGView
    (mkEditState EmptyString EmptyString false EndToEndStart EndToEndStart EndToEndStart
       (fun _ => []) [])
    (image.mkPoint 0 0) [] (ofInt 12) 1 1.

(** Distance of the candidate [pt] of anchor [ap] to that anchor of the
    current drag box. *)
Definition CandDst (es : EditState) (ap : BBoxPoints) (pt : float32) : float32 :=
  Abs (pt - ValBox ap (DragSelCurBBox es)).

(** The search variables hold a candidate of the edit state. *)
Definition IsCandidate (es : EditState) (c : Closest) : Prop :=
  clPt c ∈ AllBBoxPoints /\ clVal c ∈ AlignPts es (clPt c)
  /\ bbval c = ValBox (clPt c) (DragSelCurBBox es)
  /\ clDst c = CandDst es (clPt c) (clVal c).

(** A view in a move with alignment candidates at the left edge (3) and
    at the bottom edge (52 and 70) of the box [(0, 0)-(100, 50)]. *)
Definition GuideView : SVGView :=
  mkSVGView
    (mkEditState "Move" "sel" false EndToEndStart EndToEndStart EndToEndStart
       (fun ap => match ap with
                  | BBLeft => [ofInt 3]
                  | BBBottom => [ofInt 52; ofInt 70]
                  | _ => []
                  end)
       [(1%nat, mkSelState [])])
    (image.mkPoint 0 0) [] (ofInt 12) 1 1.

(** ** The walk over the path data *)

(** The cells that hold the end point [(a, b)] of a point of command [c]:
    [b] alone for a horizontal or vertical command. *)
Definition EndCells (c : PathCmds) (a b : float32) : list PathData :=
  match c with
  | PcH | Pch | PcV | Pcv => [PdVal b]
  | _ => [PdVal a; PdVal b]
  end.

(** The cell is not a close-path command. *)
Definition NotClose (d : PathData) : Prop :=
  match d with
  | PdCmd c _ => IsClose c = false
  | PdVal _ => True
  end.

(** The walk is about to read the end-point cells of a point. *)
Definition AtPoint {A : Type} (u : Iter A) : Prop :=
  it_stop u = false /\ it_pts u ≠ O
  /\ it_need u = PointCells (it_cmd u) /\ (1 <= OperandsPerPoint (it_cmd u))%nat.

(** The walk has not yet read into the end-point cells of a point. *)
Definition Early {A : Type} (s : Iter A) : Prop :=
  it_stop s = false
  /\ (it_pts s ≠ O ->
      (PointCells (it_cmd s) <= it_need s)%nat
      /\ (1 <= OperandsPerPoint (it_cmd s))%nat).

(** The state of the walk with another current point and callback state. *)
Definition withGeo {A : Type} (s : Iter A) (cp : Vec2) (a : A) : Iter A :=
  mkIter (it_i s) (it_cmd s) (it_pts s) (it_ptIdx s) (it_need s) (it_prev s)
    cp (it_st s) (it_stop s) a.

Section WalkDefs.

Variables (pxf : Mat2) (svoff : Vec2).

(** The node the callback records for the point with end point [(a, b)]
    read from the state [u]. *)
Definition NodeOf (u : Iter NodesAcc) (a b : float32) : PathNode :=
  let c := it_cmd u in
  let cp := EndPoint c (it_cp u) a b in
  let lci := if decide (it_ptIdx u = O) then (it_i u - 1)%nat
             else lstCmdIdx (it_acc u) in
  mkPathNode c (lstCmd (it_acc u)) lci (it_i u) (it_ptIdx u) (pcp (it_acc u))
    cp (Add (MulVec2AsPt pxf cp) svoff).

(** The state of the walk after that point. *)
Definition Emit (u : Iter NodesAcc) (a b : float32) : Iter NodesAcc :=
  let c := it_cmd u in
  let n := NodeOf u a b in
  mkIter (it_i u + PointCells c) c (pred (it_pts u)) (S (it_ptIdx u))
    (OperandsPerPoint c) 0 (Cp n)
    (if IsMove c && bool_decide (it_ptIdx u = O) then Cp n else it_st u)
    false
    (mkNodesAcc (CmdIdx n) c (nc (it_acc u) ++ [n])
       (if decide (it_ptIdx u = O) then cidxs (it_acc u) ++ [CmdIdx n]
        else cidxs (it_acc u))
       (Cp n)).

End WalkDefs.

(** The callback state [PathNodes] starts with. *)
Definition NodesAcc0 : NodesAcc := mkNodesAcc 0 PcErr [] [] Vec2Zero.

(** The delta [dv] of the window taken into the local coordinates of
    the path. *)
Definition LocalDelta (path : Path) (dv : Vec2) : Vec2 :=
  MulVec2AsVec (Inverse (ParTransform path)) dv.

(** The axes of the end point that the operands of a command store. *)
Definition StoresX (c : PathCmds) : bool :=
  match c with PcV | Pcv => false | _ => true end.

Definition StoresY (c : PathCmds) : bool :=
  match c with PcH | Pch => false | _ => true end.

(** The delta is zero on every axis that one of the two commands does not
    store. *)
Definition AxesKept (c1 c2 : PathCmds) (ld : Vec2) : Prop :=
  (StoresX c1 && StoresX c2 = false -> X ld = 0)
  /\ (StoresY c1 && StoresY c2 = false -> Y ld = 0).

(** The operands [PathNodeSetPoint] stores for a relative command. *)
Definition StoreA (npt base : Vec2) : float32 := X npt - X base.

Definition StoreB (c : PathCmds) (npt base : Vec2) : float32 :=
  match c with
  | Pch => X npt - X base
  | _ => Y npt - Y base
  end.

(** The path with other data. *)
Definition setPathData (path : Path) (data : list PathData) : Path :=
  mkPath data (ParXf path) (WinBBoxMin path).

(** The path [M 0 0 l 1 1 l 2 2] under the identity transform. *)
Definition LinePath : Path :=
  mkPath [PdCmd PcM 2; PdVal 0; PdVal 0;
          PdCmd Pcl 2; PdVal 1; PdVal 1;
          PdCmd Pcl 2; PdVal (ofInt 2); PdVal (ofInt 2)]
    Identity2D (image.mkPoint 0 0).

(** The path [M 0 0 h 1 l 2 2] under the identity transform: its second
    node is encoded by a horizontal command. *)
Definition HorizPath : Path :=
  mkPath [PdCmd PcM 2; PdVal 0; PdVal 0;
          PdCmd Pch 1; PdVal 1;
          PdCmd Pcl 2; PdVal (ofInt 2); PdVal (ofInt 2)]
    Identity2D (image.mkPoint 0 0).

(** [PathNodeSetPoint] writes the cell after [Idx] too, unless the command
    it dispatches on stores a single coordinate. *)
Definition WritesSecond (n : PathNode) : bool :=
  if bool_decide (Idx n = 1%nat) || negb (PathCmdIsRel (Cmd n)) then
    match Cmd n with PcH | PcV => false | _ => true end
  else
    match Cmd n with Pch | Pcv => false | _ => true end.

(** The path [M 0 0 l 1 1 L 5 5 l 1 1] under the identity transform: its
    third node is encoded by an absolute command. *)
Definition AbsPath : Path :=
  mkPath [PdCmd PcM 2; PdVal 0; PdVal 0;
          PdCmd Pcl 2; PdVal 1; PdVal 1;
          PdCmd PcL 2; PdVal (ofInt 5); PdVal (ofInt 5);
          PdCmd Pcl 2; PdVal 1; PdVal 1]
    Identity2D (image.mkPoint 0 0).

(** The part of a node that does not depend on the operands. *)
Definition Skel (n : PathNode) : PathCmds * PathCmds * nat * nat * nat :=
  (Cmd n, PrevCmd n, CmdIdx n, Idx n, PtIdx n).

(** Two states of the walk that differ at most in the points. *)
Definition CtlEq (s s' : Iter NodesAcc) : Prop :=
  it_i s = it_i s' /\ it_cmd s = it_cmd s' /\ it_pts s = it_pts s'
  /\ it_ptIdx s = it_ptIdx s' /\ it_need s = it_need s'
  /\ it_stop s = it_stop s'
  /\ lstCmdIdx (it_acc s) = lstCmdIdx (it_acc s')
  /\ lstCmd (it_acc s) = lstCmd (it_acc s')
  /\ cidxs (it_acc s) = cidxs (it_acc s')
  /\ map Skel (nc (it_acc s)) = map Skel (nc (it_acc s')).

(** Two cells that differ at most in the operand they hold. *)
Definition ShapeEq (d d' : PathData) : Prop :=
  match d, d' with
  | PdCmd c n, PdCmd c' n' => c = c' /\ n = n'
  | PdVal _, PdVal _ => True
  | _, _ => False
  end.

(** The operands [PathNodeSetPoint] stores for the point [p]. *)
Definition StoredA (n : PathNode) (p : Vec2) : float32 :=
  if bool_decide (Idx n = 1%nat) || negb (PathCmdIsRel (Cmd n))
  then X p else X p - X (PCp n).

Definition StoredB (n : PathNode) (p : Vec2) : float32 :=
  if bool_decide (Idx n = 1%nat) || negb (PathCmdIsRel (Cmd n))
  then match Cmd n with PcH => X p | _ => Y p end
  else StoreB (Cmd n) p (PCp n).

(** The path [M 0 0 l 10 0 l 0 10 z m 20 20 l 5 5] under the identity
    transform: two sub-paths, the second opened by a relative move after
    the close-path of the first. *)
Definition ClosedPath : Path :=
  mkPath [PdCmd PcM 2; PdVal 0; PdVal 0;
          PdCmd Pcl 2; PdVal (ofInt 10); PdVal 0;
          PdCmd Pcl 2; PdVal 0; PdVal (ofInt 10);
          PdCmd Pcz 0;
          PdCmd Pcm 2; PdVal (ofInt 20); PdVal (ofInt 20);
          PdCmd Pcl 2; PdVal (ofInt 5); PdVal (ofInt 5)]
    Identity2D (image.mkPoint 0 0).

(** ** The bookkeeping of [PathNodes] *)

(** The nodes [ns] are chained from the point [pc] and the command [lc]:
    each node records the point and the command of the node before it,
    and its window point is its point under the transform [pxf] moved by
    [svoff]. *)
Fixpoint ChainFrom (pxf : Mat2) (svoff : Vec2) (pc : Vec2) (lc : PathCmds)
  (ns : list PathNode) : Prop :=
  match ns with
  | [] => True
  | n :: rest =>
      PCp n = pc /\ PrevCmd n = lc
      /\ WinPt n = Add (MulVec2AsPt pxf (Cp n)) svoff
      /\ ChainFrom pxf svoff (Cp n) (Cmd n) rest
  end.

(** The command index of each node of [ns], from the last command index
    [li]: the cell before the point for the first point of a command, the
    index of the node before it otherwise. *)
Fixpoint CmdIdxFrom (li : nat) (ns : list PathNode) : Prop :=
  match ns with
  | [] => True
  | n :: rest =>
      CmdIdx n = (if decide (PtIdx n = O) then (Idx n - 1)%nat else li)
      /\ CmdIdxFrom (CmdIdx n) rest
  end.

(** The command indexes of the first points of [ns]. *)
Definition FirstPointIdxs (ns : list PathNode) : list nat :=
  CmdIdx <$> filter (fun n => PtIdx n = O) ns.

(** The walk has read the cells [pre]: while the points of a command are
    being read, between one and all of the operands of a point are
    missing, and until the first point is complete the command cell lies
    before the operands read so far. *)
Definition CmdCell (pre : list PathData) (s : Iter NodesAcc) : Prop :=
  it_stop s = false /\ it_i s = length pre
  /\ (it_pts s <> O ->
      (1 <= it_need s <= OperandsPerPoint (it_cmd s))%nat
      /\ (it_ptIdx s = O ->
          exists m,
            pre !! (length pre - 1 - (OperandsPerPoint (it_cmd s) - it_need s))%nat
            = Some (PdCmd (it_cmd s) m))).

(** The data does not start with a relative horizontal or vertical
    command (a well-formed path starts with a move). *)
Definition NoLeadingRelHV (path : Path) : Prop :=
  match Data path with
  | PdCmd c _ :: _ => c <> Pch /\ c <> Pcv
  | _ => True
  end.

(** The node [n] of the data of [path0]: its end-point cells lie at [Idx n],
    at or after the cell [j], and it is not a relative horizontal or
    vertical point at the start of the data. *)
Definition OwnNode (path0 : Path) (j : nat) (n : PathNode) : Prop :=
  (Idx n = 1%nat -> Cmd n <> Pch /\ Cmd n <> Pcv)
  /\ (j <= Idx n)%nat
  /\ exists pre a b post,
       Data path0 = pre ++ EndCells (Cmd n) a b ++ post /\ length pre = Idx n.

(** ** Package [grid]: moving a selection (manip.go) *)

Definition setAlignPts (es : EditState) (pts : BBoxPoints -> list float32)
  : EditState :=
  mkEditState (Action es) (ActData es) (ActLocked es) (DragSelStartBBox es)
    (DragSelCurBBox es) (DragSelEffBBox es) pts (Selected es).

(** [sv.DragMove(delta, win)]: dragging a selection for moving.  The
    current box is moved first; a drag that starts an action saves the
    state and gathers the alignment points ([sv.GatherAlignPoints()], of
    the alignment code, given here as the function [gather] of the view);
    the elements are then translated by the offset of the effective box
    from the start box.  Returns the new view and the calls made on the
    selected elements. *)
Definition DragMove (Prefs : Preferences) (co : Collab)
  (gather : SVGView -> BBoxPoints -> list float32)
  (sv : SVGView) (delta : image.Point) : SVGView * list XFormCall :=
  let es := ES sv in
  let dv := NewVec2FmPoint delta in
  let svoff := NewVec2FmPoint (SvWinBBoxMin sv) in
  let cur := mkBox2 (SetAdd (Min_ (DragSelCurBBox es)) dv)
                    (SetAdd (Max_ (DragSelCurBBox es)) dv) in
  let sv := setES sv (setCurBBox es cur) in
  let sv :=
    if InAction (ES sv) then sv
    else
      let sv1 := ManipStart sv "Move" (SelectedNamesString co (ES sv)) in
      setES sv1 (setAlignPts (ES sv1) (gather sv1)) in
  let sv := SnapCurBBox Prefs sv true in
  let es := ES sv in
  let pt := Sub (Min_ (DragSelStartBBox es)) svoff in
  let tdel := Sub (Min_ (DragSelEffBBox es)) (Min_ (DragSelStartBBox es)) in
  (sv, map (fun '(itm, ss) =>
              mkXFormCall itm (InitGeom ss) tdel (V2 1 1) 0 pt false)
           (Selected es)).

(** The sum of two [image.Point] values. *)
Definition PointAdd (p q : image.Point) : image.Point :=
  image.mkPoint (image.X p + image.X q) (image.Y p + image.Y q).

(** The point lies within the box, edges included. *)
Definition InBox (bb : Box2) (p : Vec2) : Prop :=
  X (Min_ bb) ≤ X p /\ X p ≤ X (Max_ bb)
  /\ Y (Min_ bb) ≤ Y p /\ Y p ≤ Y (Max_ bb).

(** A view in a move, with no alignment candidates. *)
Definition MovingView : SVGView :=
  mkSVGView
    (mkEditState "Move" "sel" false EndToEndStart EndToEndStart EndToEndStart
       (fun _ => []) [(1%nat, mkSelState [ofInt 5; ofInt 7])])
    (image.mkPoint 0 0) [] (ofInt 12) 1 1.

(** ** Package [grid]: the generated stringers (sprites_string.go,
    aligntypes_string.go)

    The two files are generated by [stringer] from one template; the enum
    value is a Go [int], here a [Z]. *)

(** Go's [s[a:b]]. *)
Definition Slice (s : string) (a b : nat) : string := String.substring a (b - a) s.

(** The loop [for j := ...; j < len(index)-1; j++] of [FromString] over
    the values [js] still to try: the first [j] whose name is [s]. *)
Fixpoint FromStringLoop (name : string) (index : list nat) (js : list nat)
  (s : string) : option nat :=
  match js with
  | [] => None
  | j :: rest =>
      if decide (s = Slice name (index !!! j) (index !!! (j + 1)%nat))
      then Some j
      else FromStringLoop name index rest s
  end.

Definition _Sprites_name : string :=
  "SizeUpLSizeUpMSizeUpRSizeDnLSizeDnMSizeDnRSizeLfCSizeRtCSpritesN".

Definition _Sprites_index : list nat := [0; 7; 14; 21; 28; 35; 42; 49; 56; 64]%nat.

(** [(i Sprites) String()]. *)
Definition Sprites_String (i : Z) : string :=
  if decide (i < 0 \/ i >= Z.of_nat (length _Sprites_index - 1))%Z
  then "Sprites(" +:+ pretty i +:+ ")"
  else Slice _Sprites_name (_Sprites_index !!! Z.to_nat i)
         (_Sprites_index !!! (Z.to_nat i + 1)%nat).

(** [(i *Sprites) FromString(s)]: the new value of [*i] and the error, if
    any. *)
Definition Sprites_FromString (i : Z) (s : string) : Z * option string :=
  match FromStringLoop _Sprites_name _Sprites_index
          (seq 0 (length _Sprites_index - 1)) s with
  | Some j => (Z.of_nat j, None)
  | None =>
      (i, Some ("String: " +:+ s +:+ " is not a valid option for type: Sprites"))
  end.

(** The value of each handle constant. *)
Definition SpritesVal (sp : sprites_string.Sprites) : Z :=
  match sp with
  | SizeUpL => 0 | SizeUpM => 1 | SizeUpR => 2 | SizeDnL => 3 | SizeDnM => 4
  | SizeDnR => 5 | SizeLfC => 6 | SizeRtC => 7 | sprites_string.SpritesN => 8
  end.

Definition _AlignTypes_name : string :=
  "AlignFirstAlignLastAlignDrawingAlignSelectBoxAlignTypesN".

Definition _AlignTypes_index : list nat := [0; 10; 19; 31; 45; 56]%nat.

(** [(i AlignTypes) String()]. *)
Definition AlignTypes_String (i : Z) : string :=
  if decide (i < 0 \/ i >= Z.of_nat (length _AlignTypes_index - 1))%Z
  then "AlignTypes(" +:+ pretty i +:+ ")"
  else Slice _AlignTypes_name (_AlignTypes_index !!! Z.to_nat i)
         (_AlignTypes_index !!! (Z.to_nat i + 1)%nat).

(** [(i *AlignTypes) FromString(s)]. *)
Definition AlignTypes_FromString (i : Z) (s : string) : Z * option string :=
  match FromStringLoop _AlignTypes_name _AlignTypes_index
          (seq 0 (length _AlignTypes_index - 1)) s with
  | Some j => (Z.of_nat j, None)
  | None =>
      (i, Some ("String: " +:+ s +:+ " is not a valid option for type: AlignTypes"))
  end.

(** ** Sprite names *)

(** The character occurs in the string. *)
Fixpoint InString (c : Ascii.ascii) (s : string) : bool :=
  match s with
  | EmptyString => false
  | String x r => bool_decide (c = x) || InString c r
  end.

(** The characters of a decimal numeral. *)
Definition isDigit (c : Ascii.ascii) : bool := InString c "0123456789".

Fixpoint Digits (s : string) : bool :=
  match s with
  | EmptyString => true
  | String c r => isDigit c && Digits r
  end.

(** The sprite types whose name holds the index, and those whose name
    holds the name of the subtype. *)
Definition NameHasIdx (typ : sprites.Sprites) : bool :=
  match typ with
  | sprites.SpSelBBox | sprites.SpNodePoint | sprites.SpNodeCtrl
  | sprites.SpAlignMatch => true
  | _ => false
  end.

Definition NameHasSub (typ : sprites.Sprites) : bool :=
  match typ with
  | sprites.SpReshapeBBox | sprites.SpSelBBox | sprites.SpRubberBand => true
  | _ => false
  end.

(** ** Package [units]

    The units library is a dependency of the repository; of a unit only
    its kind matters here. *)

Module units.

(** [units.Units]: the kinds of unit. *)
Inductive Units : Type :=
| Px | Dp | Pct | Rem | Em | Ex | Ch | Vw | Vh | Vmin | Vmax
| Cm | Mm | Q | In | Pc | Pt | Dot.

#[global] Instance Units_eq_dec : EqDecision Units.
Proof. solve_decision. Defined.

(** [units.Value]: a value, its unit and the dots computed for it. *)
Record Value : Type := mkValue { Val : float32; Un : Units; Dots : float32 }.

(** [uv.Set(val, un)]: sets the value and the unit. *)
Definition Set_ (uv : Value) (val : float32) (un : Units) : Value :=
  mkValue val un (Dots uv).

End units.

(** ** Package [grid]: the physical size of a drawing (physize.go) *)

Module physize.

(** [StdSizes]: the standard physical drawing sizes. *)
Inductive StdSizes : Type :=
| CustomSize
| Img1280x720 | Img1920x1080 | Img3840x2160 | Img7680x4320 | Img1024x768
| Img720x480 | Img640x480 | Img320x240
| A4 | USLetter | USLegal | A0 | A1 | A2 | A3 | A5 | A6 | A7 | A8 | A9 | A10
| StdSizesN.

#[global] Instance StdSizes_eq_dec : EqDecision StdSizes.
Proof. solve_decision. Defined.

(** [StdSizeVals]: the values of a standard size. *)
Record StdSizeVals : Type :=
  mkStdSizeVals { vUnits : units.Units; vX : float32; vY : float32 }.

#[global] Instance StdSizeVals_eq_dec : EqDecision StdSizeVals.
Proof. solve_decision. Defined.

(** [StdSizesMap[k]]: the map of size values for each standard size;
    [None] for a key that is not in the map. *)
Definition StdSizesMap (k : StdSizes) : option StdSizeVals :=
  match k with
  | Img1280x720 => Some (mkStdSizeVals units.Px (ofInt 1280) (ofInt 720))
  | Img1920x1080 => Some (mkStdSizeVals units.Px (ofInt 1920) (ofInt 1080))
  | Img3840x2160 => Some (mkStdSizeVals units.Px (ofInt 3840) (ofInt 2160))
  | Img7680x4320 => Some (mkStdSizeVals units.Px (ofInt 7680) (ofInt 4320))
  | Img1024x768 => Some (mkStdSizeVals units.Px (ofInt 1024) (ofInt 768))
  | Img720x480 => Some (mkStdSizeVals units.Px (ofInt 720) (ofInt 480))
  | Img640x480 => Some (mkStdSizeVals units.Px (ofInt 640) (ofInt 480))
  | Img320x240 => Some (mkStdSizeVals units.Px (ofInt 320) (ofInt 240))
  | A4 => Some (mkStdSizeVals units.Mm (ofInt 210) (ofInt 297))
  | USLetter => Some (mkStdSizeVals units.Pt (ofInt 612) (ofInt 792))
  | USLegal => Some (mkStdSizeVals units.Pt (ofInt 612) (ofInt 1008))
  | A0 => Some (mkStdSizeVals units.Mm (ofInt 841) (ofInt 1189))
  | A1 => Some (mkStdSizeVals units.Mm (ofInt 594) (ofInt 841))
  | A2 => Some (mkStdSizeVals units.Mm (ofInt 420) (ofInt 594))
  | A3 => Some (mkStdSizeVals units.Mm (ofInt 297) (ofInt 420))
  | A5 => Some (mkStdSizeVals units.Mm (ofInt 148) (ofInt 210))
  | A6 => Some (mkStdSizeVals units.Mm (ofInt 105) (ofInt 148))
  | A7 => Some (mkStdSizeVals units.Mm (ofInt 74) (ofInt 105))
  | A8 => Some (mkStdSizeVals units.Mm (ofInt 52) (ofInt 74))
  | A9 => Some (mkStdSizeVals units.Mm (ofInt 37) (ofInt 52))
  | A10 => Some (mkStdSizeVals units.Mm (ofInt 26) (ofInt 37))
  | CustomSize | StdSizesN => None
  end.

(** The keys of [StdSizesMap], as the source lists them.  A Go [range]
    over the map visits them in an order that is not fixed. *)
Definition StdSizesKeys : list StdSizes :=
  [Img1280x720; Img1920x1080; Img3840x2160; Img7680x4320; Img1024x768;
   Img720x480; Img640x480; Img320x240; A4; USLetter; USLegal;
   A0; A1; A2; A3; A5; A6; A7; A8; A9; A10].

(** [PhysSize]: the physical size of the drawing. *)
Record PhysSize : Type := mkPhysSize {
  StdSize : StdSizes;     (* a standard size *)
  Portrait : bool;        (* first number as width, second as height *)
  Units : units.Units;    (* default units *)
  Size : Vec2;            (* drawing size, in Units *)
  Grid : float32          (* grid spacing *)
}.

(** [ps.Defaults()]. *)
Definition Defaults (ps : PhysSize) : PhysSize :=
  mkPhysSize Img1280x720 (Portrait ps) units.Px (V2 (ofInt 1280) (ofInt 720))
    (ofInt 12).

(** [ps.SetToStdSize()]: sets the drawing to the current standard size
    value; returns the error, if any.  The format of the error has a verb
    and no operand, which [fmt] prints as [%!v(MISSING)]. *)
Definition SetToStdSize (ps : PhysSize) : PhysSize * option string :=
  match StdSizesMap (StdSize ps) with
  | None => (ps, Some "StdSize: %!v(MISSING) not found in StdSizesMap")
  | Some ssv =>
      (mkPhysSize (StdSize ps) (Portrait ps) (vUnits ssv)
         (V2 (vX ssv) (vY ssv)) (Grid ps), None)
  end.

(** [ps.SetStdSize(std)]: sets the drawing to a standard size. *)
Definition SetStdSize (ps : PhysSize) (std : StdSizes) : PhysSize * option string :=
  SetToStdSize (mkPhysSize std (Portrait ps) (Units ps) (Size ps) (Grid ps)).

(** [ps.Update()]. *)
Definition Update (ps : PhysSize) : PhysSize :=
  if decide (StdSize ps <> CustomSize) then fst (SetToStdSize ps) else ps.

(** The loop of [MatchStdSize] over the keys in the order [keys]. *)
Fixpoint MatchLoop (keys : list StdSizes) (trgl trgp : StdSizeVals) : StdSizes :=
  match keys with
  | [] => CustomSize
  | k :: rest =>
      match StdSizesMap k with
      | Some v =>
          if decide (v = trgl \/ v = trgp) then k else MatchLoop rest trgl trgp
      | None => MatchLoop rest trgl trgp
      end
  end.

(** [MatchStdSize(wd, ht, un)], with the keys visited in the order
    [keys]. *)
Definition MatchStdSizeIn (keys : list StdSizes) (wd ht : float32)
  (un : units.Units) : StdSizes :=
  let trgl := mkStdSizeVals un wd ht in
  let trgp := mkStdSizeVals un ht wd in
  MatchLoop keys trgl trgp.

Definition MatchStdSize (wd ht : float32) (un : units.Units) : StdSizes :=
  MatchStdSizeIn StdSizesKeys wd ht un.

(** The fields of [SVGView] that the size functions read and write: the
    physical width and height, the size of the view box and the grid
    spacing of the drawing. *)
Record SVGSize : Type := mkSVGSize {
  PhysWidth : units.Value;
  PhysHeight : units.Value;
  ViewBoxSize : Vec2;
  SvGrid : float32
}.

(** [ps.SetFromSVG(sv)]: sets from svg. *)
Definition SetFromSVG (ps : PhysSize) (sv : SVGSize) : PhysSize :=
  let x := units.Val (PhysWidth sv) in
  let un := units.Un (PhysWidth sv) in
  let y := units.Val (PhysHeight sv) in
  mkPhysSize (MatchStdSize x y un) (Portrait ps) un (V2 x y) (SvGrid sv).

(** [ps.SetToSVG(sv)]: sets svg from us. *)
Definition SetToSVG (ps : PhysSize) (sv : SVGSize) : SVGSize :=
  mkSVGSize (units.Set_ (PhysWidth sv) (mat32.X (Size ps)) (Units ps))
            (units.Set_ (PhysHeight sv) (mat32.Y (Size ps)) (Units ps))
            (Size ps) (Grid ps).

End physize.

(** ** The cells a move writes *)

(** The end-point cells of a node. *)
Definition NodeCells (n : PathNode) : list nat :=
  seq (Idx n) (PointCells (Cmd n)).

(** The cells the loop of [PathNodeSetOnePoint] writes over the nodes
    [rest]: those of each node up to the one that ends the loop. *)
Fixpoint Written (rest : list PathNode) (first : bool) : list nat :=
  match rest with
  | [] => []
  | n :: rest' =>
      NodeCells n ++
      (if first then Written rest' false
       else if StopsCompensation (Cmd n) then [] else Written rest' false)
  end.

(** ** Package [grid]: the size and the position of a sprite (sprites.go) *)

#[global] Instance sprites_Sprites_eq_dec : EqDecision sprites.Sprites.
Proof. solve_decision. Defined.

(** The value of each constant of [Sprites] ([iota]). *)
Definition SpritesNum (s : sprites.Sprites) : Z :=
  match s with
  | sprites.SpUnk => 0 | sprites.SpReshapeBBox => 1 | sprites.SpSelBBox => 2
  | sprites.SpNodePoint => 3 | sprites.SpNodeCtrl => 4
  | sprites.SpRubberBand => 5 | sprites.SpAlignMatch => 6
  | sprites.SpBBoxUpL => 7 | sprites.SpBBoxUpC => 8 | sprites.SpBBoxUpR => 9
  | sprites.SpBBoxDnL => 10 | sprites.SpBBoxDnC => 11 | sprites.SpBBoxDnR => 12
  | sprites.SpBBoxLfM => 13 | sprites.SpBBoxRtM => 14 | sprites.SpritesN => 15
  end.

(** Modelled from the spec: the value of each anchor, in the order "left,
    center, right, top, middle, bottom" (the declaration of [BBoxPoints]
    is not among the sources at hand; [SnapCurBBox] loops from [BBLeft]
    up to [BBoxPointsN]). *)
Definition BBoxPointsNum (b : BBoxPoints) : Z :=
  match b with
  | BBLeft => 0 | BBCenter => 1 | BBRight => 2 | BBTop => 3 | BBMiddle => 4
  | BBBottom => 5 | BBoxPointsN => 6
  end.

Definition HandleSpriteScale : float32 := ofInt 18.
Definition HandleSizeMin : Z := 4.
Definition HandleBorderMin : Z := 2.

(** [HandleSpriteSize(scale)]: the border size and the overall size of
    the handle sprites; [dpi] is [gi.Prefs.LogicalDPIScale]. *)
Definition HandleSpriteSize (dpi scale : float32) : Z * image.Point :=
  let sz := Qceiling (scale * dpi * HandleSpriteScale) in
  let sz := Z.max sz HandleSizeMin in
  let bsz := Z.max (sz ÷ 6) HandleBorderMin in
  (bsz, image.mkPoint sz sz).

Definition LineSpriteScale : float32 := ofInt 8.
Definition LineSizeMin : Z := 3.
Definition LineBorderMin : Z := 1.

(** [LineSpriteSize()]: the border size and the overall size of the line
    sprites. *)
Definition LineSpriteSize (dpi : float32) : Z * Z :=
  let sz := Qceiling (dpi * LineSpriteScale) in
  let sz := Z.max sz LineSizeMin in
  let bsz := Z.max (sz ÷ 6) LineBorderMin in
  (bsz, sz).

(** [SetSpritePos(sp, pos)]: sets the sprite position, taking into account
    relative offsets.  Returns the position it sets; [None] when
    [SpriteProps] panics. *)
Definition SetSpritePos (dpi : float32) (sp : sprites.Sprite) (pos : image.Point)
  : option image.Point :=
  match sprites.SpriteProps sp with
  | None => None
  | Some (typ, subtyp, _) =>
      let x := image.X pos in
      let y := image.Y pos in
      Some
        (if decide (typ = sprites.SpRubberBand) then
           let sz := snd (LineSpriteSize dpi) in
           match subtyp with
           | sprites.SpBBoxUpC => image.mkPoint x (y - sz)
           | sprites.SpBBoxLfM => image.mkPoint (x - sz) y
           | _ => pos
           end
         else if decide (typ = sprites.SpAlignMatch) then
           let sz := snd (LineSpriteSize dpi) in
           let bbtp := SpritesNum subtyp in
           if decide (bbtp = BBoxPointsNum BBLeft) then image.mkPoint (x - sz) y
           else if decide (bbtp = BBoxPointsNum BBCenter)
             then image.mkPoint (x - sz ÷ 2) y
           else if decide (bbtp = BBoxPointsNum BBTop) then image.mkPoint x (y - sz)
           else if decide (bbtp = BBoxPointsNum BBMiddle)
             then image.mkPoint x (y - sz ÷ 2)
           else pos
         else if decide (typ = sprites.SpNodePoint \/ typ = sprites.SpNodeCtrl) then
           let sz := snd (HandleSpriteSize dpi 1) in
           image.mkPoint (x - image.X sz ÷ 2) (y - image.Y sz ÷ 2)
         else if decide (SpritesNum sprites.SpBBoxUpL <= SpritesNum subtyp
                         /\ SpritesNum subtyp <= SpritesNum sprites.SpBBoxRtM)%Z then
           let sc := if decide (typ = sprites.SpSelBBox) then frac 4 5 else 1 in
           let sz := snd (HandleSpriteSize dpi sc) in
           let x := if decide (subtyp = sprites.SpBBoxDnL \/ subtyp = sprites.SpBBoxUpL
                               \/ subtyp = sprites.SpBBoxLfM)
                    then (x - image.X sz)%Z else x in
           let y := if decide (subtyp = sprites.SpBBoxUpL \/ subtyp = sprites.SpBBoxUpC
                               \/ subtyp = sprites.SpBBoxUpR)
                    then (y - image.Y sz)%Z else y in
           image.mkPoint x y
         else pos)
  end.

(** ** Package [grid]: the colour preferences (prefs.go) *)

Module prefs.

(** [gist.Color] of the GUI library: red, green, blue and alpha. *)
Record Color : Type := mkColor { R : Z; G : Z; B : Z; A : Z }.

(** [gist.White] and [gist.Black]. *)
Definition White : Color := mkColor 255 255 255 255.
Definition Black : Color := mkColor 0 0 0 255.

(** [ColorPrefs]: the background colour of the drawing, the colour of its
    border and the colour of the grid lines. *)
Record ColorPrefs : Type :=
  mkColorPrefs { Background : Color; Border : Color; GridColor : Color }.

(** [(pf *ColorPrefs) Defaults()] and [(pf *ColorPrefs) DarkDefaults()]. *)
Definition ColorDefaults : ColorPrefs :=
  mkColorPrefs White Black (mkColor 220 220 220 255).

Definition DarkDefaults : ColorPrefs :=
  mkColorPrefs Black (mkColor 102 102 102 255) (mkColor 40 40 40 255).

(** The schemes are a [map[string]*ColorPrefs]: a name is absent, or maps
    to a pointer, which is [nil] ([None]) or points to a value. *)
Definition Schemes : Type := gmap string (option ColorPrefs).

(** [DefaultColorSchemes()]. *)
Definition DefaultColorSchemes : Schemes :=
  <["Dark" := Some DarkDefaults]> (<["Light" := Some ColorDefaults]> ∅).

(** The colour fields of [Preferences]: the active colours and the named
    colour schemes. *)
Record ColorSettings : Type :=
  mkColorSettings { Colors : ColorPrefs; ColorSchemes : Schemes }.

(** What the colour fields are after [(pf *Preferences) Defaults()]. *)
Definition DefaultSettings : ColorSettings :=
  mkColorSettings ColorDefaults DefaultColorSchemes.

(** The effects of a mode: a line of the log, [pf.Save()],
    [pf.UpdateAll()]. *)
Inductive Effect : Type :=
| Log (msg : string)
| Save
| UpdateAll.

(** [pf.LightMode()]: sets the colours to light mode.  [None] is the
    panic of dereferencing a [nil] scheme. *)
Definition LightMode (pf : ColorSettings) : option (ColorSettings * list Effect) :=
  match ColorSchemes pf !! "Light" with
  | None => Some (pf, [Log "Light ColorScheme not found\n"])
  | Some None => None
  | Some (Some lc) => Some (mkColorSettings lc (ColorSchemes pf), [Save; UpdateAll])
  end.

(** [pf.DarkMode()]: sets the colours to dark mode. *)
Definition DarkMode (pf : ColorSettings) : option (ColorSettings * list Effect) :=
  match ColorSchemes pf !! "Dark" with
  | None => Some (pf, [Log "Dark ColorScheme not found\n"])
  | Some None => None
  | Some (Some lc) => Some (mkColorSettings lc (ColorSchemes pf), [Save; UpdateAll])
  end.

(** A sequence of modes, [true] for light and [false] for dark: the
    settings after the last. *)
Fixpoint Modes (pf : ColorSettings) (ms : list bool) : option ColorSettings :=
  match ms with
  | [] => Some pf
  | m :: rest =>
      match (if m then LightMode pf else DarkMode pf) with
      | Some (pf', _) => Modes pf' rest
      | None => None
      end
  end.

End prefs.

(** * Properties *)

(** ** Arithmetic of the rationals *)

Lemma Qc_this_plus (x y : Qc) : (this (x + y) == this x + this y)%Q.
Proof. unfold Qcplus. simpl. apply Qred_correct. Qed.

Lemma Qc_this_mult (x y : Qc) : (this (x * y) == this x * this y)%Q.
Proof. unfold Qcmult. simpl. apply Qred_correct. Qed.

Lemma Qc_this_opp (x : Qc) : (this (- x) == - this x)%Q.
Proof. unfold Qcopp. simpl. apply Qred_correct. Qed.

Lemma Qc_this_minus (x y : Qc) : (this (x - y) == this x - this y)%Q.
Proof. unfold Qcminus. rewrite Qc_this_plus, Qc_this_opp. reflexivity. Qed.

Lemma Qc_this_Q2Qc (q : Q) : (this (Q2Qc q) == q)%Q.
Proof. simpl. apply Qred_correct. Qed.

Lemma Qc_this_frac (n : Z) (d : positive) : (this (frac n d) == n # d)%Q.
Proof. apply Qc_this_Q2Qc. Qed.

Lemma Qc_this_ofInt (z : Z) : (this (ofInt z) == inject_Z z)%Q.
Proof. reflexivity. Qed.

Lemma Qc_eq_Qeq (x y : Qc) : x = y -> (this x == this y)%Q.
Proof. intros ->. reflexivity. Qed.

Create Rewrite HintDb qc2q.
#[local] Hint Rewrite Qc_this_plus Qc_this_minus Qc_this_mult Qc_this_opp
  Qc_this_frac Qc_this_ofInt Qc_this_Q2Qc : qc2q.

(** Turns a goal on [Qc] into one on [Q], where [lra] applies. *)
Ltac qc_to_q :=
  repeat match goal with
  | H : ~ (_ ≤ _)%Qc |- _ => apply Qcnot_le_lt in H
  | H : ~ (_ < _)%Qc |- _ => apply Qcnot_lt_le in H
  | H : @eq Qc _ _ |- _ => apply Qc_eq_Qeq in H
  | |- @eq Qc _ _ => apply Qc_is_canon
  end;
  unfold Qcle, Qclt in *;
  autorewrite with qc2q in *;
  unfold inject_Z in *.

Ltac qc_lra := qc_to_q; lra.

Lemma ofInt_le (a b : Z) : (a <= b)%Z -> ofInt a ≤ ofInt b.
Proof. intros H. unfold Qcle. simpl. rewrite <- Zle_Qle. exact H. Qed.

Lemma Abs_nonneg (x : float32) : 0 ≤ Abs x.
Proof. unfold Abs. case_decide; [done | qc_lra]. Qed.

Lemma Min_le_r (a b : float32) : Min a b ≤ b.
Proof. unfold Min. case_decide; qc_lra. Qed.

Lemma Vec2_eq (a b : Vec2) : X a = X b -> Y a = Y b -> a = b.
Proof. destruct a, b. simpl. intros -> ->. reflexivity. Qed.

(** ** Snapping to a point *)

(** C5.  [SnapToPt val snap tolRef] returns [(snap, true)] exactly when
    [|val - snap| < SnapTol * tolRef]; the inequality is strict, so at the
    boundary [|val - snap| = SnapTol * tolRef] it returns [(val, false)];
    and whenever it does not snap the value returned is [val]. *)
Theorem SnapToPt_tolerance Prefs (val snap tolRef : float32) :
  (SnapToPt Prefs val snap tolRef = (snap, true)
   <-> Abs (val - snap) < ofInt (SnapTol Prefs) * tolRef)
  /\ (Abs (val - snap) = ofInt (SnapTol Prefs) * tolRef
      -> SnapToPt Prefs val snap tolRef = (val, false))
  /\ (snd (SnapToPt Prefs val snap tolRef) = false
      -> fst (SnapToPt Prefs val snap tolRef) = val).
Proof.
  unfold SnapToPt. repeat split.
  - case_decide; [done | intros [=]].
  - intros H. rewrite decide_True by done. reflexivity.
  - intros H. rewrite decide_False; [done |].
    rewrite H. intros Hlt. by apply Qclt_not_eq in Hlt.
  - case_decide; [intros [=] | done].
Qed.

(** ** Resize *)

Lemma SnapCurBBox_cur Prefs sv move :
  DragSelCurBBox (ES (SnapCurBBox Prefs sv move)) = DragSelCurBBox (ES sv).
Proof.
  unfold SnapCurBBox. destruct (GridDots sv) as [grinc groff].
  destruct (SnapGuide Prefs).
  - generalize (ClosestAlign (setEffBBox (ES sv) (DragSelCurBBox (ES sv)))).
    intros c. destruct (SnapToPt _ _ _ _) as [sval [|]]; destruct move;
      destruct (SnapGrid Prefs); reflexivity.
  - destruct (SnapGrid Prefs); reflexivity.
Qed.

Lemma SnapCurBBox_off Prefs sv move :
  SnapGuide Prefs = false ->
  DragSelEffBBox (ES (SnapCurBBox Prefs sv move)) = DragSelCurBBox (ES sv).
Proof.
  intros Hg. unfold SnapCurBBox. destruct (GridDots sv) as [grinc groff].
  rewrite Hg. simpl. destruct (SnapGrid Prefs); reflexivity.
Qed.

Lemma SnapCurBBox_frame Prefs sv move :
  let es' := ES (SnapCurBBox Prefs sv move) in
  Action es' = Action (ES sv) /\ Selected es' = Selected (ES sv)
  /\ DragSelStartBBox es' = DragSelStartBBox (ES sv)
  /\ SvWinBBoxMin (SnapCurBBox Prefs sv move) = SvWinBBoxMin sv.
Proof.
  unfold SnapCurBBox. destruct (GridDots sv) as [grinc groff].
  destruct (SnapGuide Prefs).
  - generalize (ClosestAlign (setEffBBox (ES sv) (DragSelCurBBox (ES sv)))).
    intros c. destruct (SnapToPt _ _ _ _) as [sval [|]]; destruct move;
      destruct (SnapGrid Prefs); simpl; auto.
  - destruct (SnapGrid Prefs); simpl; auto.
Qed.

Lemma ManipStart_frame sv act data :
  let es' := ES (ManipStart sv act data) in
  DragSelStartBBox es' = DragSelStartBBox (ES sv)
  /\ DragSelCurBBox es' = DragSelCurBBox (ES sv)
  /\ Selected es' = Selected (ES sv)
  /\ AlignPts es' = AlignPts (ES sv)
  /\ SvWinBBoxMin (ManipStart sv act data) = SvWinBBoxMin sv.
Proof.
  unfold ManipStart, ActStart. simpl.
  destruct (InAction (ES sv) || ActLocked (ES sv)); simpl; auto.
Qed.

(** The current box after one reshape event, whatever action was or was
    not in progress. *)
Lemma SpriteReshapeDrag_cur Prefs co sv sp delta :
  DragSelCurBBox (ES (fst (SpriteReshapeDrag Prefs co sv sp delta))) =
  let c := ReshapeCurBBox sp (NewVec2FmPoint delta) (DragSelCurBBox (ES sv)) in
  mkBox2 (SetMin (Min_ c) (SubScalar (Max_ c) 1)) (Max_ c).
Proof.
  unfold SpriteReshapeDrag. simpl. rewrite SnapCurBBox_cur. simpl.
  destruct (InAction (ES sv)); [reflexivity |].
  destruct (ManipStart_frame sv "Reshape" (SelectedNamesString co (ES sv)))
    as (_ & -> & _). reflexivity.
Qed.

Lemma SpriteReshapeDrag_clamped Prefs co sv sp delta :
  BBoxClamped (DragSelCurBBox (ES (fst (SpriteReshapeDrag Prefs co sv sp delta)))).
Proof.
  rewrite SpriteReshapeDrag_cur. simpl. split; apply Min_le_r.
Qed.

(** C4.  Resize clamp: for any starting state and any sequence of reshape
    drag events (any of the handles, any delta), after each update the
    drag box has [min.x <= max.x - 1] and [min.y <= max.y - 1]. *)
Theorem Reshape_clamp_invariant Prefs co sv (evs : list (Sprites * image.Point)) :
  Forall (fun sv' => BBoxClamped (DragSelCurBBox (ES sv')))
         (ReshapeDrags Prefs co sv evs).
Proof.
  revert sv. induction evs as [| [sp delta] evs IH]; intros sv; simpl.
  - constructor.
  - constructor; [apply SpriteReshapeDrag_clamped | apply IH].
Qed.

(** The loop over the selection calls every selected element once, from
    its [InitGeom], with the arguments given. *)
Lemma ApplyToSelected_spec es del sc ang pt :
  Forall2 (fun call sel =>
             xfItem call = fst sel /\ xfGeom call = InitGeom (snd sel)
             /\ xfTrans call = del /\ xfScale call = sc
             /\ xfRot call = ang /\ xfPivot call = pt)
          (ApplyToSelected es del sc ang pt) (Selected es).
Proof.
  unfold ApplyToSelected.
  induction (Selected es) as [| [itm ss] l IH]; simpl; constructor; auto.
  simpl. repeat split; reflexivity.
Qed.

(** The calls a reshape event makes: one per selected element, from its
    [InitGeom], with the translation and the scale that take the start box
    to the effective box, pivoted at the start minimum (view
    coordinates). *)
Lemma SpriteReshapeDrag_calls Prefs co sv sp delta :
  let r := SpriteReshapeDrag Prefs co sv sp delta in
  let eff := DragSelEffBBox (ES (fst r)) in
  let start := DragSelStartBBox (ES sv) in
  Forall2 (fun call sel =>
             xfItem call = fst sel /\ xfGeom call = InitGeom (snd sel)
             /\ xfTrans call = Sub (Min_ eff) (Min_ start)
             /\ xfScale call = Div (Size eff) (Size start)
             /\ xfRot call = 0
             /\ xfPivot call = Sub (Min_ start) (NewVec2FmPoint (SvWinBBoxMin sv)))
          (snd r) (Selected (ES sv)).
Proof.
  unfold SpriteReshapeDrag.
  set (sv1 := if InAction (ES sv) then sv else ManipStart sv _ _).
  assert (Hf : DragSelStartBBox (ES sv1) = DragSelStartBBox (ES sv)
               /\ Selected (ES sv1) = Selected (ES sv)
               /\ SvWinBBoxMin sv1 = SvWinBBoxMin sv).
  { subst sv1. destruct (InAction (ES sv)); [auto |].
    destruct (ManipStart_frame sv "Reshape" (SelectedNamesString co (ES sv)))
      as (-> & _ & -> & _ & ->). auto. }
  destruct Hf as (Hst & Hsel & Hwin).
  set (sv2 := setES sv1 _).
  destruct (SnapCurBBox_frame Prefs sv2 true) as (_ & Hsel3 & Hst3 & Hwin3).
  cbv zeta. simpl fst. simpl snd.
  assert (Hsel' : Selected (ES sv) = Selected (ES (SnapCurBBox Prefs sv2 true))).
  { rewrite Hsel3. subst sv2. simpl. symmetry. exact Hsel. }
  rewrite Hsel'.
  assert (Hst' : DragSelStartBBox (ES sv) = DragSelStartBBox (ES sv1)) by done.
  rewrite Hst3, Hwin3. subst sv2. simpl. rewrite Hwin, Hst'.
  apply ApplyToSelected_spec.
Qed.

Lemma EndToEnd_box :
  let c := ReshapeCurBBox SizeDnR (NewVec2FmPoint (image.mkPoint 10 10))
             EndToEndStart in
  mkBox2 (SetMin (Min_ c) (SubScalar (Max_ c) 1)) (Max_ c) = EndToEndEff.
Proof.
  unfold EndToEndEff. simpl. f_equal; apply Vec2_eq; simpl;
    apply Qc_is_canon; vm_compute; reflexivity.
Qed.

(** C8.  End-to-end resize: with snapping disabled and the selection box
    [(0,0)-(100,50)] at drag start, dragging the bottom-right handle by
    [(10,10)] gives the effective box [(0,0)-(110,60)] and applies to every
    selected element, from its [InitGeom] snapshot, one delta-transform of
    scale [(1.1, 1.2)] and translation [(0,0)], with no rotation, pivoted
    at the drag-start anchor (the start minimum in view coordinates). *)
Theorem Reshape_end_to_end Prefs co sv :
  SnapGuide Prefs = false -> SnapGrid Prefs = false ->
  DragSelStartBBox (ES sv) = EndToEndStart ->
  DragSelCurBBox (ES sv) = EndToEndStart ->
  let r := SpriteReshapeDrag Prefs co sv SizeDnR (image.mkPoint 10 10) in
  DragSelEffBBox (ES (fst r)) = EndToEndEff
  /\ Forall2 (fun call sel =>
                xfItem call = fst sel /\ xfGeom call = InitGeom (snd sel)
                /\ xfTrans call = V2 0 0
                /\ xfScale call = V2 (frac 11 10) (frac 6 5)
                /\ xfRot call = 0
                /\ xfPivot call =
                     Sub (V2 0 0) (NewVec2FmPoint (SvWinBBoxMin sv)))
             (snd r) (Selected (ES sv)).
Proof.
  intros Hguide Hgrid Hstart Hcur r.
  assert (Heff : DragSelEffBBox (ES (fst r)) = EndToEndEff).
  { pose proof (SpriteReshapeDrag_cur Prefs co sv SizeDnR (image.mkPoint 10 10))
      as Hc.
    pose proof EndToEnd_box as Hb. cbv zeta in Hb, Hc.
    rewrite Hcur, Hb in Hc. rewrite <- Hc.
    subst r. unfold SpriteReshapeDrag. cbv zeta. simpl fst.
    rewrite SnapCurBBox_off by exact Hguide.
    rewrite SnapCurBBox_cur. reflexivity. }
  split; [exact Heff |].
  pose proof (SpriteReshapeDrag_calls Prefs co sv SizeDnR (image.mkPoint 10 10))
    as Hcalls.
  cbv zeta in Hcalls. fold r in Hcalls. rewrite Heff, Hstart in Hcalls.
  eapply Forall2_impl; [exact Hcalls |].
  intros call sel (Hi & Hg & Ht & Hs & Hr & Hp).
  split; [exact Hi |]. split; [exact Hg |].
  split.
  { rewrite Ht. apply Vec2_eq; simpl; apply Qc_is_canon; vm_compute; reflexivity. }
  split.
  { rewrite Hs. apply Vec2_eq; simpl; apply Qc_is_canon; vm_compute; reflexivity. }
  split; [exact Hr | exact Hp].
Qed.

Lemma Reshape_end_to_end_witness :
  let r := SpriteReshapeDrag NoSnapPrefs TrivialCollab EndToEndView SizeDnR
             (image.mkPoint 10 10) in
  DragSelEffBBox (ES (fst r)) = EndToEndEff
  /\ Forall2 (fun call sel =>
                xfItem call = fst sel /\ xfGeom call = InitGeom (snd sel)
                /\ xfTrans call = V2 0 0
                /\ xfScale call = V2 (frac 11 10) (frac 6 5)
                /\ xfRot call = 0
                /\ xfPivot call =
                     Sub (V2 0 0) (NewVec2FmPoint (SvWinBBoxMin EndToEndView)))
             (snd r) (Selected (ES EndToEndView)).
Proof.
  apply (Reshape_end_to_end NoSnapPrefs TrivialCollab EndToEndView);
    reflexivity.
Defined.

(** ** Starting an action *)

Lemma ActStart_active es act data :
  InAction es = true -> ActStart es act data = es.
Proof. intros H. unfold ActStart. rewrite H. reflexivity. Qed.

Lemma ManipStart_active sv act data :
  InAction (ES sv) = true ->
  Action (ES (ManipStart sv act data)) = Action (ES sv)
  /\ ActData (ES (ManipStart sv act data)) = ActData (ES sv).
Proof.
  intros H. unfold ManipStart. rewrite ActStart_active by exact H.
  simpl. auto.
Qed.

Lemma ManipStart_idle sv act data :
  InAction (ES sv) = false -> ActLocked (ES sv) = false ->
  Action (ES (ManipStart sv act data)) = act
  /\ ActLocked (ES (ManipStart sv act data)) = false.
Proof.
  intros H1 H2. unfold ManipStart, ActStart. rewrite H1, H2. simpl. auto.
Qed.

(** C9.  Re-entrant start: in a state where an action is active, another
    [ManipStart] is answered without error (the function is total), its
    [ActStart] is rejected by the test of the action state and leaves the
    edit state as it was, and the action name and data stay those of the
    first start; no lock is left set. *)
Theorem ManipStart_reentrant sv act data :
  InAction (ES sv) = true ->
  ActStart (ES sv) act data = ES sv
  /\ Action (ES (ManipStart sv act data)) = Action (ES sv)
  /\ ActData (ES (ManipStart sv act data)) = ActData (ES sv)
  /\ InAction (ES (ManipStart sv act data)) = true
  /\ ActLocked (ES (ManipStart sv act data)) = false.
Proof.
  intros H. split; [apply ActStart_active; exact H |].
  destruct (ManipStart_active sv act data H) as [Ha Hd].
  split; [exact Ha |]. split; [exact Hd |]. split.
  - unfold InAction in *. rewrite Ha. exact H.
  - unfold ManipStart. reflexivity.
Qed.

Lemma ManipStart_reentrant_witness :
  let sv := ManipStart IdleView "Move" "a" in
  Action (ES sv) = "Move"
  /\ (ActStart (ES sv) "Rotate" "b" = ES sv
      /\ Action (ES (ManipStart sv "Rotate" "b")) = Action (ES sv)
      /\ ActData (ES (ManipStart sv "Rotate" "b")) = ActData (ES sv)
      /\ InAction (ES (ManipStart sv "Rotate" "b")) = true
      /\ ActLocked (ES (ManipStart sv "Rotate" "b")) = false).
Proof.
  split; [reflexivity |].
  apply (ManipStart_reentrant (ManipStart IdleView "Move" "a") "Rotate" "b").
  reflexivity.
Defined.

(** ** Sprite identity *)

(** C10.  Sprite identity round trip: after [SetSpriteProps sp typ subtyp
    idx] the properties read back are [(typ, subtyp, idx)] and the name is
    [SpriteName typ subtyp idx]; a sprite without the type property, in
    particular one whose properties were never set, reads as [SpUnk]. *)
Theorem SpriteProps_roundtrip (sp : sprites.Sprite)
  (typ subtyp : sprites.Sprites) (idx : Z) :
  sprites.SpriteProps (sprites.SetSpriteProps sp typ subtyp idx)
    = Some (typ, subtyp, idx)
  /\ sprites.Name (sprites.SetSpriteProps sp typ subtyp idx)
      = sprites.SpriteName typ subtyp idx
  /\ (sprites.Props sp !! "grid-type" = None ->
      sprites.SpriteProps sp = Some (sprites.SpUnk, sprites.SpUnk, 0%Z))
  /\ (forall nm, sprites.SpriteProps (sprites.mkSprite nm ∅)
                 = Some (sprites.SpUnk, sprites.SpUnk, 0%Z)).
Proof.
  split; [| split; [reflexivity | split]].
  - unfold sprites.SpriteProps, sprites.SetSpriteProps. simpl.
    rewrite lookup_insert_ne by done. rewrite lookup_insert_ne by done.
    rewrite lookup_insert_eq.
    rewrite lookup_insert_ne by done. rewrite lookup_insert_eq.
    rewrite lookup_insert_eq. reflexivity.
  - intros H. unfold sprites.SpriteProps. rewrite H. reflexivity.
  - intros nm. unfold sprites.SpriteProps. simpl. rewrite lookup_empty.
    reflexivity.
Qed.

(** ** Rotation *)

Lemma Round_near (x : float32) : Abs (x - Round x) ≤ frac 1 2.
Proof.
  unfold Round. case_decide.
  - pose proof (Qfloor_le (x + frac 1 2)) as H0.
    pose proof (Qlt_floor (x + frac 1 2)) as H1.
    rewrite inject_Z_plus in H1. set (f := Qfloor _) in *. clearbody f.
    unfold Abs; case_decide; qc_lra.
  - pose proof (Qfloor_le (- x + frac 1 2)) as H0.
    pose proof (Qlt_floor (- x + frac 1 2)) as H1.
    rewrite inject_Z_plus in H1. set (f := Qfloor _) in *. clearbody f.
    unfold Abs; case_decide; qc_lra.
Qed.

Lemma ofInt_15_neq0 : ofInt 15 ≠ 0.
Proof. intros H. apply Qc_eq_Qeq in H. vm_compute in H. discriminate. Qed.

(** With a tolerance of at least one, an increment of 15 always snaps: the
    nearest multiple is at most 7.5 away. *)
Lemma SnapToIncr_15 Prefs (raw : float32) :
  (1 <= SnapTol Prefs)%Z ->
  SnapToIncr Prefs raw 0 (ofInt 15)
    = (Round (raw / ofInt 15) * ofInt 15, true)
  /\ Abs (raw - Round (raw / ofInt 15) * ofInt 15) ≤ frac 15 2.
Proof.
  intros Htol. apply ofInt_le in Htol.
  set (x := raw / ofInt 15).
  assert (Hraw : raw = x * ofInt 15).
  { subst x. field. apply ofInt_15_neq0. }
  pose proof (Round_near x) as Hnear.
  assert (Hd : Abs (raw - Round x * ofInt 15) ≤ frac 15 2).
  { rewrite Hraw. clear Hraw. revert Hnear. generalize (Round x). intros r.
    unfold Abs. repeat case_decide; intros; qc_lra. }
  split; [| exact Hd].
  unfold SnapToIncr.
  replace ((raw - 0) / ofInt 15) with x by (subst x; field; apply ofInt_15_neq0).
  replace (Round x * ofInt 15 + 0) with (Round x * ofInt 15) by ring.
  rewrite decide_True; [reflexivity |].
  revert Hd Htol. generalize (Abs (raw - Round x * ofInt 15)).
  generalize (ofInt (SnapTol Prefs)). intros t a Ha Ht. qc_to_q. nra.
Qed.

Lemma Round_7_15 : Round (ofInt 7 / ofInt 15) = 0.
Proof. apply Qc_is_canon. vm_compute. reflexivity. Qed.

Lemma Round_8_15 : Round (ofInt 8 / ofInt 15) = 1.
Proof. apply Qc_is_canon. vm_compute. reflexivity. Qed.

Lemma Round_half_15 : Round (frac 15 2 / ofInt 15) = 1.
Proof. apply Qc_is_canon. vm_compute. reflexivity. Qed.

(** The calls a rotate event makes: one per selected element, from its
    [InitGeom], with no translation, unit scale, the snapped angle and the
    pivot of the handle (view coordinates). *)
Lemma SpriteRotateDrag_calls Prefs co sv sp delta :
  let r := SpriteRotateDrag Prefs co sv sp delta in
  let k := RotateCase sp (NewVec2FmPoint delta) (DragSelStartBBox (ES sv))
             (DragSelCurBBox (ES sv)) in
  Forall2 (fun call sel =>
             xfItem call = fst sel /\ xfGeom call = InitGeom (snd sel)
             /\ xfTrans call = V2 0 0 /\ xfScale call = V2 1 1
             /\ xfRot call =
                  DegToRad co
                    (fst (SnapToIncr Prefs
                            (RadToDeg co (Atan2 co (fst (snd (fst k)))
                                                   (snd (snd (fst k)))))
                            0 (ofInt 15)))
             /\ xfPivot call = Sub (snd k) (NewVec2FmPoint (SvWinBBoxMin sv)))
          (snd r) (Selected (ES sv)).
Proof.
  unfold SpriteRotateDrag.
  set (sv1 := if InAction (ES sv) then sv else ManipStart sv _ _).
  assert (Hf : DragSelStartBBox (ES sv1) = DragSelStartBBox (ES sv)
               /\ DragSelCurBBox (ES sv1) = DragSelCurBBox (ES sv)
               /\ Selected (ES sv1) = Selected (ES sv)
               /\ SvWinBBoxMin sv1 = SvWinBBoxMin sv).
  { subst sv1. destruct (InAction (ES sv)); [auto |].
    destruct (ManipStart_frame sv "Rotate" (SelectedNamesString co (ES sv)))
      as (-> & -> & -> & _ & ->). auto. }
  destruct Hf as (-> & -> & Hsel & Hwin).
  destruct (RotateCase _ _ _ _) as [[cur [dy dx]] pt]. cbv zeta. simpl.
  rewrite Hwin.
  assert (Hsel' : Selected (ES sv) = Selected (setCurBBox (ES sv1) cur))
    by (simpl; symmetry; exact Hsel).
  rewrite Hsel'. apply ApplyToSelected_spec.
Qed.

(** C6.  Rotation snap: the angle of the handle-specific pair [(dy, dx)]
    about the handle-specific pivot is snapped to the nearest multiple of
    15 degrees before it is applied (7 gives 0, 8 gives 15, the boundary
    7.5 rounds up), and every selected element receives a pure rotation
    about the pivot: translation [(0,0)] and scale [(1,1)].  The snap
    tolerance is taken within its declared range ([min:"1"]). *)
Theorem Rotate_snap Prefs co sv (sp : sprites_string.Sprites) delta :
  (1 <= SnapTol Prefs)%Z ->
  let r := SpriteRotateDrag Prefs co sv sp delta in
  let k := RotateCase sp (NewVec2FmPoint delta) (DragSelStartBBox (ES sv))
             (DragSelCurBBox (ES sv)) in
  let raw := RadToDeg co (Atan2 co (fst (snd (fst k))) (snd (snd (fst k)))) in
  let snapped := Round (raw / ofInt 15) * ofInt 15 in
  Abs (raw - snapped) ≤ frac 15 2
  /\ Forall2 (fun call sel =>
                xfItem call = fst sel /\ xfGeom call = InitGeom (snd sel)
                /\ xfTrans call = V2 0 0 /\ xfScale call = V2 1 1
                /\ xfRot call = DegToRad co snapped
                /\ xfPivot call = Sub (snd k) (NewVec2FmPoint (SvWinBBoxMin sv)))
             (snd r) (Selected (ES sv))
  /\ fst (SnapToIncr Prefs (ofInt 7) 0 (ofInt 15)) = 0
  /\ fst (SnapToIncr Prefs (ofInt 8) 0 (ofInt 15)) = ofInt 15
  /\ fst (SnapToIncr Prefs (frac 15 2) 0 (ofInt 15)) = ofInt 15.
Proof.
  intros Htol r k raw snapped.
  destruct (SnapToIncr_15 Prefs raw Htol) as [Hs Hd].
  split; [exact Hd |]. split.
  - pose proof (SpriteRotateDrag_calls Prefs co sv sp delta) as Hc.
    cbv zeta in Hc. fold r k raw in Hc. rewrite Hs in Hc. exact Hc.
  - destruct (SnapToIncr_15 Prefs (ofInt 7) Htol) as [-> _].
    destruct (SnapToIncr_15 Prefs (ofInt 8) Htol) as [-> _].
    destruct (SnapToIncr_15 Prefs (frac 15 2) Htol) as [-> _].
    simpl. rewrite Round_7_15, Round_8_15, Round_half_15.
    repeat split; ring.
Qed.

Lemma Rotate_snap_witness :
  (1 <= SnapTol Defaults)%Z
  /\ let r := SpriteRotateDrag Defaults TrivialCollab EndToEndView SizeUpL
                (image.mkPoint 3 4) in
     let k := RotateCase SizeUpL (NewVec2FmPoint (image.mkPoint 3 4))
                (DragSelStartBBox (ES EndToEndView))
                (DragSelCurBBox (ES EndToEndView)) in
     let raw := RadToDeg TrivialCollab
                  (Atan2 TrivialCollab (fst (snd (fst k))) (snd (snd (fst k)))) in
     let snapped := Round (raw / ofInt 15) * ofInt 15 in
     Abs (raw - snapped) ≤ frac 15 2
     /\ Forall2 (fun call sel =>
                   xfItem call = fst sel /\ xfGeom call = InitGeom (snd sel)
                   /\ xfTrans call = V2 0 0 /\ xfScale call = V2 1 1
                   /\ xfRot call = DegToRad TrivialCollab snapped
                   /\ xfPivot call =
                        Sub (snd k) (NewVec2FmPoint (SvWinBBoxMin EndToEndView)))
                (snd r) (Selected (ES EndToEndView))
     /\ fst (SnapToIncr Defaults (ofInt 7) 0 (ofInt 15)) = 0
     /\ fst (SnapToIncr Defaults (ofInt 8) 0 (ofInt 15)) = ofInt 15
     /\ fst (SnapToIncr Defaults (frac 15 2) 0 (ofInt 15)) = ofInt 15.
Proof.
  split; [simpl; lia |].
  apply (Rotate_snap Defaults TrivialCollab EndToEndView SizeUpL
           (image.mkPoint 3 4)).
  simpl. lia.
Defined.

(** ** Snapping the dragged box to the alignment candidates *)

Lemma Abs_sym (a b : float32) : Abs (a - b) = Abs (b - a).
Proof. unfold Abs. repeat case_decide; qc_lra. Qed.

Lemma ClosestPt_dst ap bbp c pt :
  clDst (ClosestPt ap bbp c pt) ≤ clDst c
  /\ clDst (ClosestPt ap bbp c pt) ≤ Abs (pt - bbp).
Proof.
  unfold ClosestPt. case_decide; simpl; split; try done; qc_lra.
Qed.

Lemma ClosestPt_fold_dst ap bbp pts : forall c,
  clDst (foldl (ClosestPt ap bbp) c pts) ≤ clDst c
  /\ (forall pt, pt ∈ pts -> clDst (foldl (ClosestPt ap bbp) c pts) ≤ Abs (pt - bbp)).
Proof.
  induction pts as [| p pts IH]; intros c; simpl.
  - split; [done |]. intros pt H. inversion H.
  - destruct (IH (ClosestPt ap bbp c p)) as [IH1 IH2].
    destruct (ClosestPt_dst ap bbp c p) as [H1 H2].
    split; [by etrans |].
    intros pt Hin. apply elem_of_cons in Hin as [-> | Hin].
    + by etrans.
    + by apply IH2.
Qed.

Lemma ClosestAnchor_fold_dst es aps : forall c,
  clDst (foldl (ClosestAnchor es) c aps) ≤ clDst c
  /\ (forall ap pt, ap ∈ aps -> pt ∈ AlignPts es ap ->
        clDst (foldl (ClosestAnchor es) c aps) ≤ CandDst es ap pt).
Proof.
  induction aps as [| a aps IH]; intros c; simpl.
  - split; [done |]. intros ap pt H. inversion H.
  - destruct (IH (ClosestAnchor es c a)) as [IH1 IH2].
    destruct (ClosestPt_fold_dst a (ValBox a (DragSelCurBBox es))
                (AlignPts es a) c) as [H1 H2].
    fold (ClosestAnchor es c a) in H1, H2.
    split; [by etrans |].
    intros ap pt Hin Hpt. apply elem_of_cons in Hin as [-> | Hin].
    + etrans; [apply IH1 |]. by apply H2.
    + by apply IH2.
Qed.

Lemma ClosestPt_fold_cand es ap pts : forall c,
  ap ∈ AllBBoxPoints -> (forall pt, pt ∈ pts -> pt ∈ AlignPts es ap) ->
  c = ClosestInit \/ IsCandidate es c ->
  let c' := foldl (ClosestPt ap (ValBox ap (DragSelCurBBox es))) c pts in
  c' = ClosestInit \/ IsCandidate es c'.
Proof.
  induction pts as [| p pts IH]; intros c Hap Hpts Hc; simpl; [exact Hc |].
  apply IH; [exact Hap | | ].
  - intros pt H. apply Hpts. by apply elem_of_cons; right.
  - unfold ClosestPt. case_decide; [| exact Hc].
    right. repeat split; simpl; try done.
    apply Hpts. by apply elem_of_cons; left.
Qed.

Lemma ClosestAnchor_fold_cand es aps : forall c,
  (forall ap, ap ∈ aps -> ap ∈ AllBBoxPoints) ->
  c = ClosestInit \/ IsCandidate es c ->
  let c' := foldl (ClosestAnchor es) c aps in
  c' = ClosestInit \/ IsCandidate es c'.
Proof.
  induction aps as [| a aps IH]; intros c Haps Hc; simpl; [exact Hc |].
  apply IH.
  - intros ap H. apply Haps. by apply elem_of_cons; right.
  - apply ClosestPt_fold_cand; [| done | exact Hc].
    apply Haps. by apply elem_of_cons; left.
Qed.

(** The search finds a candidate that is nearest over all anchors, as soon
    as some candidate lies within the range of [float32]. *)
Lemma ClosestAlign_nearest es :
  (exists ap pt, ap ∈ AllBBoxPoints /\ pt ∈ AlignPts es ap
                 /\ CandDst es ap pt < MaxFloat32) ->
  IsCandidate es (ClosestAlign es)
  /\ (forall ap pt, ap ∈ AllBBoxPoints -> pt ∈ AlignPts es ap ->
        clDst (ClosestAlign es) ≤ CandDst es ap pt).
Proof.
  intros (ap0 & pt0 & Hap0 & Hpt0 & Hlt).
  destruct (ClosestAnchor_fold_dst es AllBBoxPoints ClosestInit) as [_ Hmin].
  fold (ClosestAlign es) in Hmin. split; [| exact Hmin].
  destruct (ClosestAnchor_fold_cand es AllBBoxPoints ClosestInit) as [Hi | Hc];
    [done | by left | | exact Hc].
  fold (ClosestAlign es) in Hi.
  specialize (Hmin ap0 pt0 Hap0 Hpt0). rewrite Hi in Hmin. simpl in Hmin.
  exfalso. eapply Qclt_not_le; eassumption.
Qed.

Lemma ClosestAlign_setEff es bb :
  ClosestAlign (setEffBBox es bb) = ClosestAlign es.
Proof. reflexivity. Qed.

Lemma MoveDelta_anchor ap bb delta :
  ap ∈ AllBBoxPoints ->
  ValBox ap (MoveDelta ap bb delta) = ValBox ap bb + delta.
Proof.
  intros H. destruct ap; simpl; try ring; try qc_lra.
  exfalso. unfold AllBBoxPoints in H.
  repeat (apply elem_of_cons in H as [H | H]; [discriminate |]).
  inversion H.
Qed.

(** C7.  Global nearest-candidate snapping.  With guide snapping on and a
    candidate in range, [SnapCurBBox] (for a move) selects one candidate
    that is nearest over all six anchors of the current drag box; if it is
    within the tolerance, the effective box is the current box moved by the
    snap delta along the axis of that anchor, which lands the anchor on the
    candidate; otherwise the effective box is the current box.  The current
    box itself is never modified, and the grid preference has no effect on
    the result (the grid branch, entered only without a guide snap, is
    empty). *)
Theorem SnapCurBBox_nearest Prefs sv :
  SnapGuide Prefs = true ->
  (exists ap pt, ap ∈ AllBBoxPoints /\ pt ∈ AlignPts (ES sv) ap
                 /\ CandDst (ES sv) ap pt < MaxFloat32) ->
  let es := ES sv in
  let cur := DragSelCurBBox es in
  let c := ClosestAlign es in
  let sv' := SnapCurBBox Prefs sv true in
  let tol := ofInt (SnapTol Prefs) * fst (GridDots sv) in
  IsCandidate es c
  /\ (forall ap pt, ap ∈ AllBBoxPoints -> pt ∈ AlignPts es ap ->
        clDst c ≤ CandDst es ap pt)
  /\ (clDst c < tol ->
        DragSelEffBBox (ES sv') = MoveDelta (clPt c) cur (clVal c - bbval c)
        /\ ValBox (clPt c) (DragSelEffBBox (ES sv')) = clVal c)
  /\ (~ clDst c < tol -> DragSelEffBBox (ES sv') = cur)
  /\ DragSelCurBBox (ES sv') = cur
  /\ (forall b,
        SnapCurBBox (mkPreferences (GridDisp Prefs) b (SnapGuide Prefs)
                       (SnapNodes Prefs) (SnapTol Prefs)) sv true = sv').
Proof.
  intros Hguide Hex es cur c.
  destruct (ClosestAlign_nearest es Hex) as [Hcand Hmin].
  fold c in Hcand, Hmin.
  cbv zeta. split; [exact Hcand |]. split; [exact Hmin |].
  destruct Hcand as (Hpt & Hval & Hbb & Hdst).
  assert (Hd : Abs (bbval c - clVal c) = clDst c).
  { rewrite Hdst. unfold CandDst. rewrite <- Hbb. apply Abs_sym. }
  unfold SnapCurBBox, SnapToPt. simpl SnapGuide. simpl SnapGrid. simpl SnapTol.
  rewrite Hguide. destruct (GridDots sv) as [grinc groff]. simpl fst.
  rewrite ClosestAlign_setEff. fold es c. rewrite Hd.
  destruct (decide (clDst c < ofInt (SnapTol Prefs) * grinc)) as [Hlt | Hnlt].
  - simpl. split; [| split; [| split]].
    + intros _. destruct (SnapGrid Prefs); simpl; (split; [reflexivity |]);
        rewrite MoveDelta_anchor by exact Hpt; fold cur c; rewrite Hbb;
        fold cur; ring.
    + intros Hn. contradiction.
    + destruct (SnapGrid Prefs); reflexivity.
    + intros b. destruct b, (SnapGrid Prefs); reflexivity.
  - simpl. split; [| split; [| split]].
    + intros Hn. contradiction.
    + intros _. destruct (SnapGrid Prefs); reflexivity.
    + destruct (SnapGrid Prefs); reflexivity.
    + intros b. destruct b, (SnapGrid Prefs); reflexivity.
Qed.

Lemma SnapCurBBox_nearest_witness :
  let Prefs := Defaults in
  let sv := GuideView in
  let es := ES sv in
  let cur := DragSelCurBBox es in
  let c := ClosestAlign es in
  let sv' := SnapCurBBox Prefs sv true in
  let tol := ofInt (SnapTol Prefs) * fst (GridDots sv) in
  IsCandidate es c
  /\ (forall ap pt, ap ∈ AllBBoxPoints -> pt ∈ AlignPts es ap ->
        clDst c ≤ CandDst es ap pt)
  /\ (clDst c < tol ->
        DragSelEffBBox (ES sv') = MoveDelta (clPt c) cur (clVal c - bbval c)
        /\ ValBox (clPt c) (DragSelEffBBox (ES sv')) = clVal c)
  /\ (~ clDst c < tol -> DragSelEffBBox (ES sv') = cur)
  /\ DragSelCurBBox (ES sv') = cur
  /\ (forall b,
        SnapCurBBox (mkPreferences (GridDisp Prefs) b (SnapGuide Prefs)
                       (SnapNodes Prefs) (SnapTol Prefs)) sv true = sv').
Proof.
  apply (SnapCurBBox_nearest Defaults GuideView).
  - reflexivity.
  - exists BBLeft, (ofInt 3). split; [| split].
    + constructor.
    + constructor.
    + vm_compute. reflexivity.
Defined.

(** The candidate chosen in [GuideView] is the one of the bottom anchor at
    52, two units away, although the left anchor has one three units
    away: the nearest over all anchors wins. *)
Example GuideView_closest :
  clPt (ClosestAlign (ES GuideView)) = BBBottom
  /\ clVal (ClosestAlign (ES GuideView)) = ofInt 52.
Proof. split; [vm_compute; reflexivity | apply Qc_is_canon; vm_compute; reflexivity]. Qed.

(** ** The walk over the path data *)

Section Walk.

Variables (pxf : Mat2) (svoff : Vec2).

Local Abbreviation f := (PathNodesFun pxf svoff).
Local Abbreviation run := (IterRun (PathNodesFun pxf svoff)).
Local Abbreviation step := (IterStep (PathNodesFun pxf svoff)).

Local Abbreviation NodeOf := (NodeOf pxf svoff).
Local Abbreviation Emit := (Emit pxf svoff).

Lemma run_app s l1 l2 :
  run s (l1 ++ l2) = run s l1 ≫= fun s' => run s' l2.
Proof.
  revert s. induction l1 as [| d l1 IH]; intros s; simpl; [reflexivity |].
  destruct (step s d); simpl; [apply IH | reflexivity].
Qed.

Lemma run_app_Some s l1 l2 s1 :
  run s l1 = Some s1 -> run s (l1 ++ l2) = run s1 l2.
Proof. intros H. rewrite run_app, H. reflexivity. Qed.

Lemma PointCells_le_Ops c :
  (1 <= OperandsPerPoint c)%nat -> (PointCells c <= OperandsPerPoint c)%nat.
Proof. destruct c; simpl; lia. Qed.

Lemma NumPoints_Ops c n :
  NumPoints c n ≠ O -> (1 <= OperandsPerPoint c)%nat.
Proof. destruct c; simpl; try lia; intros H; done. Qed.

(** Reading the end-point cells of a point records its node. *)
Lemma run_EndCells u a b :
  AtPoint u -> run u (EndCells (it_cmd u) a b) = Some (Emit u a b).
Proof.
  intros (Hstop & Hpts & Hneed & Hops).
  destruct u as [i c pts ptIdx need prev cp st stop acc]. simpl in *.
  subst stop need. destruct pts as [| k]; [done |].
  unfold Emit, NodeOf. simpl.
  destruct c; simpl in Hops; try lia; simpl; unfold IterStep; simpl;
    rewrite ?Nat.sub_0_r;
    try replace (i + 2)%nat with (S (S i)) by lia;
    try replace (i + 1)%nat with (S i) by lia;
    reflexivity.
Qed.

Lemma Emit_Early u a b : AtPoint u -> Early (Emit u a b).
Proof.
  intros (Hstop & Hpts & Hneed & Hops). split; [reflexivity |].
  intros _. simpl. split; [apply PointCells_le_Ops |]; exact Hops.
Qed.

Lemma IterInit_Early (a : NodesAcc) : Early (IterInit a).
Proof. split; [reflexivity |]. simpl. intros H. done. Qed.

(** One cell: the index advances, the walk goes on, and the callback
    state is either untouched or has one more node. *)
Lemma step_inv s d t :
  it_stop s = false -> step s d = Some t ->
  it_stop t = false /\ it_i t = S (it_i s)
  /\ (it_acc t = it_acc s \/ exists n, nc (it_acc t) = nc (it_acc s) ++ [n]).
Proof.
  intros Hstop H. unfold IterStep in H. rewrite Hstop in H.
  destruct (it_pts s) as [| k], d as [c n | v]; try discriminate.
  - destruct (IsClose c); inversion H; subst; simpl; auto.
  - destruct (decide (it_need s = 1%nat)); inversion H; subst; simpl; eauto.
Qed.

Lemma run_inv l : forall s t,
  it_stop s = false -> run s l = Some t ->
  it_stop t = false /\ it_i t = (it_i s + length l)%nat
  /\ exists ext, nc (it_acc t) = nc (it_acc s) ++ ext.
Proof.
  induction l as [| d l IH]; intros s t Hstop H; simpl in H.
  - inversion H; subst. split; [done |]. split; [simpl; lia |].
    exists []. by rewrite app_nil_r.
  - destruct (step s d) as [s1 |] eqn:Hs; [| discriminate].
    destruct (step_inv s d s1 Hstop Hs) as (Hstop1 & Hi1 & Hacc1).
    destruct (IH s1 t Hstop1 H) as (Hstop2 & Hi2 & ext & Hext).
    split; [done |]. split; [simpl; lia |].
    destruct Hacc1 as [Heq | [n Hn]].
    + exists ext. rewrite Hext, Heq. reflexivity.
    + exists (n :: ext). rewrite Hext, Hn, <- app_assoc. reflexivity.
Qed.

Lemma run_nodes_le l s t :
  it_stop s = false -> run s l = Some t ->
  (length (nc (it_acc s)) <= length (nc (it_acc t)))%nat.
Proof.
  intros Hstop H. destruct (run_inv l s t Hstop H) as (_ & _ & ext & ->).
  rewrite length_app. lia.
Qed.

(** The next point: a walk from a state that has not read into the end
    cells of a point, and that records a node, splits at the end cells of
    the first node it records. *)
Lemma next_node l : forall s t,
  Early s -> run s l = Some t ->
  (length (nc (it_acc s)) < length (nc (it_acc t)))%nat ->
  exists lm a b lr u,
    l = lm ++ EndCells (it_cmd u) a b ++ lr
    /\ run s lm = Some u /\ AtPoint u /\ it_acc u = it_acc s
    /\ run (Emit u a b) lr = Some t.
Proof.
  induction l as [| d l IH]; intros s t HE H Hlt; simpl in H.
  { inversion H; subst. lia. }
  destruct (step s d) as [s1 |] eqn:Hs; [| discriminate].
  destruct HE as [Hstop HE].
  assert (Hrec : Early s1 -> it_acc s1 = it_acc s ->
            exists lm a b lr u,
              d :: l = lm ++ EndCells (it_cmd u) a b ++ lr
              /\ run s lm = Some u /\ AtPoint u /\ it_acc u = it_acc s
              /\ run (Emit u a b) lr = Some t).
  { intros HE1 Hacc1. rewrite <- Hacc1 in Hlt.
    destruct (IH s1 t HE1 H Hlt) as (lm & a & b & lr & u & -> & Hr & Hu & Ha & Ht).
    exists (d :: lm), a, b, lr, u. simpl. rewrite Hs.
    split; [reflexivity |]. split; [exact Hr |]. split; [exact Hu |].
    split; [congruence | exact Ht]. }
  pose proof Hs as Hs'. unfold IterStep in Hs'. rewrite Hstop in Hs'.
  destruct (it_pts s) as [| k] eqn:Hpts, d as [c n | v]; try discriminate.
  - (* a command cell *)
    apply Hrec.
    + destruct (IsClose c); inversion Hs'; subst; split; simpl; try done.
      intros Hn. split; [apply PointCells_le_Ops |]; by eapply NumPoints_Ops.
    + destruct (IsClose c); inversion Hs'; subst; reflexivity.
  - (* an operand *)
    destruct HE as [Hle Hops]; [done |].
    destruct (decide (it_need s = PointCells (it_cmd s))) as [Hat | Hnat].
    + (* the end cells start here *)
      assert (Hu : AtPoint s) by (repeat split; [done | lia | done | done]).
      destruct (decide (it_need s = 1%nat)) as [H1 | H1].
      * (* one end cell *)
        pose proof (run_EndCells s (it_prev s) v Hu) as Hrun.
        assert (Hcells : EndCells (it_cmd s) (it_prev s) v = [PdVal v]).
        { rewrite H1 in Hat. destruct (it_cmd s); simpl in *; try done. }
        rewrite Hcells in Hrun. simpl in Hrun. rewrite Hs in Hrun.
        inversion Hrun; subst s1.
        exists [], (it_prev s), v, l, s. rewrite Hcells.
        split; [reflexivity |]. split; [reflexivity |]. split; [exact Hu |].
        split; [reflexivity | exact H].
      * (* two end cells *)
        inversion Hs'; subst s1. clear Hs'.
        assert (Hcells : forall b, EndCells (it_cmd s) v b = [PdVal v; PdVal b]).
        { intros b. destruct (it_cmd s); simpl in *; try done. }
        assert (Hneed : it_need s = 2%nat).
        { destruct (it_cmd s); simpl in *; lia. }
        destruct l as [| [c' n' | b] lr]; simpl in H.
        -- inversion H; subst t. simpl in Hlt. lia.
        -- unfold IterStep in H. simpl in H. discriminate.
        -- pose proof (run_EndCells s v b Hu) as Hrun.
           rewrite Hcells in Hrun. simpl in Hrun. rewrite Hs in Hrun.
           destruct (step _ (PdVal b)) as [s2 |] eqn:Hs2; [| discriminate].
           inversion Hrun; subst s2.
           exists [], v, b, lr, s. rewrite Hcells.
           split; [reflexivity |]. split; [reflexivity |]. split; [exact Hu |].
           split; [reflexivity | exact H].
    + (* an operand before the end cells *)
      destruct (decide (it_need s = 1%nat)) as [H1 | H1].
      { exfalso. destruct (it_cmd s); simpl in *; lia. }
      inversion Hs'; subst s1. apply Hrec; [| reflexivity].
      split; [reflexivity |]. simpl. intros _. split; [lia | done].
Qed.

(** Cells that record no node and hold no close-path leave the current
    point and the callback state alone, and are read the same way from any
    other current point and callback state. *)
Lemma noemit_frame l : forall s u,
  it_stop s = false -> run s l = Some u -> it_acc u = it_acc s ->
  Forall NotClose l ->
  it_cp u = it_cp s /\ it_st u = it_st s
  /\ forall cp' acc', run (withGeo s cp' acc') l = Some (withGeo u cp' acc').
Proof.
  induction l as [| d l IH]; intros s u Hstop H Hacc Hnc; simpl in H.
  { inversion H; subst. auto. }
  destruct (step s d) as [s1 |] eqn:Hs; [| discriminate].
  inversion Hnc as [| ? ? Hd Hl]; subst.
  destruct (step_inv s d s1 Hstop Hs) as (Hstop1 & _ & Hacc1).
  assert (Ha1 : it_acc s1 = it_acc s).
  { destruct Hacc1 as [? | [n Hn]]; [done |]. exfalso.
    pose proof (run_nodes_le l s1 u Hstop1 H) as Hle.
    rewrite Hacc, Hn, length_app in Hle. simpl in Hle. lia. }
  destruct (IH s1 u Hstop1 H ltac:(congruence) Hl) as (Hcp & Hst & Hfr).
  unfold IterStep in Hs. rewrite Hstop in Hs.
  destruct (it_pts s) as [| k] eqn:Hpts, d as [c n | v]; try discriminate.
  - simpl in Hd. rewrite Hd in Hs. inversion Hs; subst s1. simpl in *.
    split; [done |]. split; [done |]. intros cp' acc'.
    unfold IterStep. simpl. rewrite Hstop, Hpts, Hd. apply (Hfr cp' acc').
  - destruct (decide (it_need s = 1%nat)) as [H1 | H1].
    + exfalso. inversion Hs; subst s1. simpl in Ha1.
      apply (f_equal nc) in Ha1. simpl in Ha1.
      apply (f_equal length) in Ha1. rewrite length_app in Ha1. simpl in Ha1. lia.
    + inversion Hs; subst s1. simpl in *.
      split; [done |]. split; [done |]. intros cp' acc'.
      unfold IterStep. simpl. rewrite Hstop, Hpts.
      rewrite decide_False by exact H1. apply (Hfr cp' acc').
Qed.

(** Cells that record no node are read the same way from any other
    callback state. *)
Lemma noemit_frame_acc l : forall s u,
  it_stop s = false -> run s l = Some u -> it_acc u = it_acc s ->
  forall acc', run (withGeo s (it_cp s) acc') l = Some (withGeo u (it_cp u) acc').
Proof.
  induction l as [| d l IH]; intros s u Hstop H Hacc acc'; simpl in H.
  { inversion H; subst. reflexivity. }
  destruct (step s d) as [s1 |] eqn:Hs; [| discriminate].
  destruct (step_inv s d s1 Hstop Hs) as (Hstop1 & _ & Hacc1).
  assert (Ha1 : it_acc s1 = it_acc s).
  { destruct Hacc1 as [? | [n Hn]]; [done |]. exfalso.
    pose proof (run_nodes_le l s1 u Hstop1 H) as Hle.
    rewrite Hacc, Hn, length_app in Hle. simpl in Hle. lia. }
  pose proof (IH s1 u Hstop1 H ltac:(congruence) acc') as Hfr.
  unfold IterStep in Hs. rewrite Hstop in Hs.
  destruct (it_pts s) as [| k] eqn:Hpts, d as [c n | v]; try discriminate.
  - simpl. unfold IterStep. simpl. rewrite Hstop, Hpts.
    destruct (IsClose c); inversion Hs; subst s1; simpl in *; exact Hfr.
  - destruct (decide (it_need s = 1%nat)) as [H1 | H1].
    + exfalso. inversion Hs; subst s1. simpl in Ha1.
      apply (f_equal nc) in Ha1. simpl in Ha1.
      apply (f_equal length) in Ha1. rewrite length_app in Ha1. simpl in Ha1. lia.
    + inversion Hs; subst s1. simpl in *.
      unfold IterStep. simpl. rewrite Hstop, Hpts.
      rewrite decide_False by exact H1. exact Hfr.
Qed.

(** Without a close-path the current point of the walk is the point of
    the last node, which the callback keeps as [pcp]. *)
Lemma cp_pcp_run l : forall s t,
  it_stop s = false -> run s l = Some t -> Forall NotClose l ->
  it_cp s = pcp (it_acc s) -> it_cp t = pcp (it_acc t).
Proof.
  induction l as [| d l IH]; intros s t Hstop H Hnc Hcp; simpl in H.
  { inversion H; subst. exact Hcp. }
  destruct (step s d) as [s1 |] eqn:Hs; [| discriminate].
  inversion Hnc as [| ? ? Hd Hl]; subst.
  destruct (step_inv s d s1 Hstop Hs) as (Hstop1 & _ & _).
  apply (IH s1 t Hstop1 H Hl).
  unfold IterStep in Hs. rewrite Hstop in Hs.
  destruct (it_pts s) as [| k] eqn:Hpts, d as [c n | v]; try discriminate.
  - simpl in Hd. rewrite Hd in Hs. inversion Hs; subst s1. exact Hcp.
  - destruct (decide (it_need s = 1%nat)); inversion Hs; subst s1; simpl;
      [reflexivity | exact Hcp].
Qed.

Lemma noemit_acc l : forall s t,
  it_stop s = false -> run s l = Some t ->
  length (nc (it_acc t)) = length (nc (it_acc s)) -> it_acc t = it_acc s.
Proof.
  induction l as [| d l IH]; intros s t Hstop H Hlen; simpl in H.
  { inversion H; subst. reflexivity. }
  destruct (step s d) as [s1 |] eqn:Hs; [| discriminate].
  destruct (step_inv s d s1 Hstop Hs) as (Hstop1 & _ & Hacc1).
  pose proof (run_nodes_le l s1 t Hstop1 H) as Hle.
  destruct Hacc1 as [Heq | [n Hn]].
  - rewrite <- Heq. apply (IH s1 t Hstop1 H). rewrite Heq. exact Hlen.
  - exfalso. rewrite Hn, length_app in Hle. simpl in Hle. lia.
Qed.

(** The next point, with the node it records named. *)
Lemma next_node_nc l s t n rest :
  Early s -> run s l = Some t ->
  nc (it_acc t) = nc (it_acc s) ++ n :: rest ->
  exists lm a b lr u,
    l = lm ++ EndCells (it_cmd u) a b ++ lr
    /\ run s lm = Some u /\ AtPoint u /\ it_acc u = it_acc s
    /\ n = NodeOf u a b
    /\ run (Emit u a b) lr = Some t
    /\ nc (it_acc t) = nc (it_acc (Emit u a b)) ++ rest.
Proof.
  intros HE H Hnc.
  destruct (next_node l s t HE H) as (lm & a & b & lr & u & Hl & Hr & Hu & Ha & Ht).
  { rewrite Hnc, length_app. simpl. lia. }
  exists lm, a, b, lr, u.
  destruct (run_inv lr (Emit u a b) t eq_refl Ht) as (_ & _ & ext & Hext).
  simpl in Hext. rewrite Ha, <- app_assoc in Hext. simpl in Hext.
  rewrite Hnc in Hext. apply app_inv_head in Hext. inversion Hext; subst.
  repeat (split; [done |]). simpl. rewrite Ha, Hnc, <- app_assoc. reflexivity.
Qed.

Lemma EndCells_length c a b : length (EndCells c a b) = PointCells c.
Proof. destruct c; reflexivity. Qed.

Lemma EndCells_NotClose c a b : Forall NotClose (EndCells c a b).
Proof. destruct c; simpl; repeat constructor. Qed.

Lemma AtPoint_withGeo (u : Iter NodesAcc) cp acc :
  AtPoint u -> AtPoint (withGeo u cp acc).
Proof. intros H. exact H. Qed.

(** The point of the node number [k] among those a walk records. *)
Lemma nth_node k : forall l s t ns n,
  Early s -> run s l = Some t ->
  nc (it_acc t) = nc (it_acc s) ++ ns -> ns !! k = Some n ->
  exists lm a b lr u,
    l = lm ++ EndCells (it_cmd u) a b ++ lr
    /\ run s lm = Some u /\ AtPoint u
    /\ nc (it_acc u) = nc (it_acc s) ++ take k ns
    /\ n = NodeOf u a b
    /\ run (Emit u a b) lr = Some t
    /\ nc (it_acc t) = nc (it_acc (Emit u a b)) ++ drop (S k) ns.
Proof.
  induction k as [| k IH]; intros l s t ns n HE H Hnc Hk.
  - destruct ns as [| n' rest]; [discriminate |]. simpl in Hk.
    inversion Hk; subst n'.
    destruct (next_node_nc l s t n rest HE H Hnc)
      as (lm & a & b & lr & u & Hl & Hr & Hu & Ha & Hn & Ht & Hnc').
    exists lm, a, b, lr, u.
    split; [exact Hl |]. split; [exact Hr |]. split; [exact Hu |].
    split; [rewrite Ha; simpl; rewrite app_nil_r; reflexivity |].
    split; [exact Hn |]. split; [exact Ht | exact Hnc'].
  - destruct ns as [| n' rest]; [discriminate |]. simpl in Hk.
    destruct (next_node_nc l s t n' rest HE H Hnc)
      as (lm & a & b & lr & u & Hl & Hr & Hu & Ha & Hn & Ht & Hnc').
    destruct (IH lr (Emit u a b) t rest n (Emit_Early u a b Hu) Ht Hnc' Hk)
      as (lm' & a' & b' & lr' & u' & Hl' & Hr' & Hu' & Ha' & Hn' & Ht' & Hnc'').
    exists (lm ++ EndCells (it_cmd u) a b ++ lm'), a', b', lr', u'.
    split; [rewrite Hl, Hl', <- !app_assoc; reflexivity |].
    split.
    { rewrite (run_app_Some s lm _ u Hr).
      rewrite (run_app_Some u _ lm' _ (run_EndCells u a b Hu)). exact Hr'. }
    split; [exact Hu' |]. split.
    { rewrite Ha'. simpl. rewrite Ha, <- Hn, <- app_assoc. reflexivity. }
    split; [exact Hn' |]. split; [exact Ht' | exact Hnc''].
Qed.

End Walk.

(** ** Decomposing and rewriting a path *)

Lemma PathNodes_run svoff path nodes cs :
  PathNodes svoff path = Some (nodes, cs) ->
  exists fin,
    IterRun (PathNodesFun (ParTransform path) svoff) (IterInit NodesAcc0)
      (Data path) = Some fin
    /\ it_pts fin = O /\ nc (it_acc fin) = nodes /\ cidxs (it_acc fin) = cs.
Proof.
  unfold PathNodes, PathDataIterFunc. fold NodesAcc0.
  destruct (IterRun _ _ _) as [fin |] eqn:Hrun; [| discriminate].
  destruct (run_inv (ParTransform path) svoff (Data path) (IterInit NodesAcc0)
              fin eq_refl Hrun) as (Hstop & _).
  rewrite Hstop. destruct (decide (it_pts fin = O)); [| discriminate].
  intros [= <- <-]. by exists fin.
Qed.

Lemma run_PathNodes svoff path fin :
  IterRun (PathNodesFun (ParTransform path) svoff) (IterInit NodesAcc0)
    (Data path) = Some fin ->
  it_pts fin = O ->
  PathNodes svoff path = Some (nc (it_acc fin), cidxs (it_acc fin)).
Proof.
  intros Hrun Hpts. unfold PathNodes, PathDataIterFunc. fold NodesAcc0.
  rewrite Hrun.
  destruct (run_inv (ParTransform path) svoff (Data path) (IterInit NodesAcc0)
              fin eq_refl Hrun) as (Hstop & _).
  rewrite Hstop, decide_True by exact Hpts. reflexivity.
Qed.

Lemma SetData_mid path pre x post v :
  Data path = pre ++ x :: post ->
  SetData path (length pre) v = Some (setPathData path (pre ++ PdVal v :: post)).
Proof.
  intros Hd. unfold SetData, setPathData. rewrite Hd.
  rewrite decide_True by (rewrite length_app; simpl; lia).
  do 2 f_equal. rewrite insert_app_r_alt by lia.
  rewrite Nat.sub_diag. reflexivity.
Qed.

Lemma AtPoint_not_close {A} (u : Iter A) : AtPoint u -> IsClose (it_cmd u) = false.
Proof. intros (_ & _ & _ & H). destruct (it_cmd u); simpl in *; try done; lia. Qed.

(** [PathNodeSetPoint] on a node of a relative command, not the first
    point of the data: the end cells of the node receive the new point
    minus [PCp]. *)
Lemma PathNodeSetPoint_rel path n npt pre a b post :
  PathCmdIsRel (Cmd n) = true -> IsClose (Cmd n) = false -> Idx n ≠ 1%nat ->
  Data path = pre ++ EndCells (Cmd n) a b ++ post -> length pre = Idx n ->
  PathNodeSetPoint path n npt =
    Some (setPathData path
            (pre ++ EndCells (Cmd n) (StoreA npt (PCp n)) (StoreB (Cmd n) npt (PCp n))
                 ++ post)).
Proof.
  intros Hrel Hcl Hidx Hd Hlen. unfold PathNodeSetPoint.
  rewrite bool_decide_eq_false_2 by exact Hidx. rewrite Hrel. simpl.
  rewrite <- Hlen.
  destruct (Cmd n) eqn:Hc; simpl in Hrel, Hcl; try discriminate; simpl in *;
    try (apply (SetData_mid path pre _ post _ Hd));
    (rewrite (SetData_mid path pre _ _ _ Hd); simpl;
     replace (length pre + 1)%nat with (length (pre ++ [PdVal (X npt - X (PCp n))]))
       by (rewrite length_app; simpl; lia);
     erewrite SetData_mid by (simpl; rewrite <- app_assoc; reflexivity);
     unfold setPathData; simpl; rewrite <- app_assoc; reflexivity).
Qed.

Lemma EndPoint_store c cur npt base :
  PathCmdIsRel c = true -> IsClose c = false ->
  EndPoint c cur (StoreA npt base) (StoreB c npt base) =
  V2 (if StoresX c then X cur + (X npt - X base) else X cur)
     (if StoresY c then Y cur + (Y npt - Y base) else Y cur).
Proof. intros Hrel Hcl. destruct c; try discriminate; reflexivity. Qed.

Lemma EndPoint_axis c cur a b :
  PathCmdIsRel c = true ->
  (StoresX c = false -> X (EndPoint c cur a b) = X cur)
  /\ (StoresY c = false -> Y (EndPoint c cur a b) = Y cur).
Proof. intros Hrel. destruct c; try discriminate; simpl; split; done. Qed.

(** The point [PathNodeSetOnePoint] hands to [PathNodeSetPoint]: the node
    moved by the local delta. *)
Lemma DeltaTransform_point path dv pt cp :
  MulVec2AsPtCtr (fst (DeltaTransform path dv (V2 1 1) pt)) cp
    (snd (DeltaTransform path dv (V2 1 1) pt))
  = Add cp (LocalDelta path dv).
Proof.
  unfold DeltaTransform, LocalDelta, MulVec2AsPtCtr, Add. simpl.
  apply Vec2_eq; simpl; ring.
Qed.

Lemma LocalDelta_neg path dv :
  LocalDelta path (MulScalar dv (-1)) = MulScalar (LocalDelta path dv) (-1).
Proof.
  unfold LocalDelta, MulVec2AsVec, MulScalar. simpl. apply Vec2_eq; simpl; ring.
Qed.

Lemma Emit_withGeo pxf svoff (u : Iter NodesAcc) a b a' b' :
  IsMove (it_cmd u) = false ->
  Emit pxf svoff u a' b' =
  withGeo (Emit pxf svoff u a b) (Cp (NodeOf pxf svoff u a' b'))
    (it_acc (Emit pxf svoff u a' b')).
Proof. intros Hm. unfold Emit, withGeo. simpl. rewrite Hm. reflexivity. Qed.

Lemma Emit_withGeo_acc pxf svoff (u : Iter NodesAcc) a b cp acc a' b' :
  IsMove (it_cmd u) = false ->
  EndPoint (it_cmd u) cp a' b' = EndPoint (it_cmd u) (it_cp u) a b ->
  Emit pxf svoff (withGeo u cp acc) a' b' =
  withGeo (Emit pxf svoff u a b) (it_cp (Emit pxf svoff u a b))
    (it_acc (Emit pxf svoff (withGeo u cp acc) a' b')).
Proof.
  intros Hm He. unfold Emit, withGeo, NodeOf. simpl. rewrite Hm, He. reflexivity.
Qed.

Lemma SetOnePointLoop_cons path pn rest first dv svoff :
  SetOnePointLoop path (pn :: rest) first dv svoff =
  match PathNodeSetPoint path pn (Add (Cp pn) (LocalDelta path dv)) with
  | Some path' =>
      if first then SetOnePointLoop path' rest false (MulScalar dv (-1)) svoff
      else if StopsCompensation (Cmd pn) then Some path'
      else SetOnePointLoop path' rest false dv svoff
  | None => None
  end.
Proof.
  cbn [SetOnePointLoop].
  pose proof (DeltaTransform_point path dv
                (Sub (NewVec2FmPoint (WinBBoxMin path)) svoff) (Cp pn)) as H.
  destruct (DeltaTransform path dv (V2 1 1) _) as [xf lpt]. simpl in H.
  rewrite H. reflexivity.
Qed.

(** ** Moving one point *)

Lemma StopsCompensation_false c :
  PathCmdIsRel c = true -> IsMove c = false -> IsClose c = false ->
  StopsCompensation c = false.
Proof. destruct c; simpl; try discriminate; reflexivity. Qed.

(** C1 (as amended).  One-point compensation: for every path whose
    decomposition is [[P0, P1, P2]] with [P1] and [P2] encoded by relative
    commands other than a move (a close-path never yields a node), with no
    close-path in the data before [P2], and with a delta whose local image
    is zero on every axis that the command of [P1] or of [P2] does not
    store ([h] stores only x, [v] only y), [PathNodeSetOnePoint] on index 1
    succeeds and re-decomposing gives three nodes again: [P0] as it was,
    [P1] with the same command and its resolved position shifted by the
    local image of the delta (the delta itself under an identity
    transform), [P2] with the same command and its resolved position
    unchanged. *)
Theorem OnePoint_compensation svoff path dv n0 n1 n2 cs :
  PathNodes svoff path = Some ([n0; n1; n2], cs) ->
  PathCmdIsRel (Cmd n1) = true -> PathCmdIsRel (Cmd n2) = true ->
  IsMove (Cmd n1) = false -> IsMove (Cmd n2) = false ->
  Forall NotClose (take (Idx n2) (Data path)) ->
  AxesKept (Cmd n1) (Cmd n2) (LocalDelta path dv) ->
  exists path' n1' n2' cs',
    PathNodeSetOnePoint path [n0; n1; n2] 1 dv svoff = Some path'
    /\ PathNodes svoff path' = Some ([n0; n1'; n2'], cs')
    /\ Cmd n1' = Cmd n1 /\ Cmd n2' = Cmd n2
    /\ Cp n1' = Add (Cp n1) (LocalDelta path dv)
    /\ Cp n2' = Cp n2.
Proof.
  intros Hpn Hrel1 Hrel2 Hmv1 Hmv2 Hncl Hax.
  destruct (PathNodes_run svoff path _ _ Hpn) as (fin & Hrun & Hpts & Hnc & _).
  set (pxf := ParTransform path) in *.
  (* the three points of the walk *)
  destruct (next_node_nc pxf svoff (Data path) (IterInit NodesAcc0) fin n0 [n1; n2])
    as (lm0 & a0 & b0 & r0 & u0 & Hd0 & Hr0 & Hu0 & Ha0 & Hn0 & Ht0 & Hnc0);
    [apply IterInit_Early | exact Hrun | exact Hnc |].
  destruct (next_node_nc pxf svoff r0 (Emit pxf svoff u0 a0 b0) fin n1 [n2])
    as (lm1 & a1 & b1 & r1 & u1 & Hd1 & Hr1 & Hu1 & Ha1 & Hn1 & Ht1 & Hnc1);
    [apply Emit_Early; exact Hu0 | exact Ht0 | exact Hnc0 |].
  destruct (next_node_nc pxf svoff r1 (Emit pxf svoff u1 a1 b1) fin n2 [])
    as (lm2 & a2 & b2 & r2 & u2 & Hd2 & Hr2 & Hu2 & Ha2 & Hn2 & Ht2 & Hnc2);
    [apply Emit_Early; exact Hu1 | exact Ht1 | exact Hnc1 |].
  subst r0 r1.
  set (c0 := it_cmd u0) in *. set (c1 := it_cmd u1) in *. set (c2 := it_cmd u2) in *.
  set (E0 := EndCells c0 a0 b0) in *. set (E1 := EndCells c1 a1 b1) in *.
  set (E2 := EndCells c2 a2 b2) in *.
  set (t0 := Emit pxf svoff u0 a0 b0) in *.
  set (t1 := Emit pxf svoff u1 a1 b1) in *.
  set (t2 := Emit pxf svoff u2 a2 b2) in *.
  assert (Hc1 : Cmd n1 = c1) by (subst n1; reflexivity).
  assert (Hc2 : Cmd n2 = c2) by (subst n2; reflexivity).
  rewrite Hc1 in *. rewrite Hc2 in *.
  (* indices *)
  destruct (run_inv pxf svoff lm0 (IterInit NodesAcc0) u0 eq_refl Hr0) as (Hs0 & Hi0 & _).
  destruct (run_inv pxf svoff lm1 t0 u1 eq_refl Hr1) as (Hs1 & Hi1 & _).
  destruct (run_inv pxf svoff lm2 t1 u2 eq_refl Hr2) as (Hs2 & Hi2 & _).
  simpl in Hi0, Hi1, Hi2. fold c0 in Hi1. fold c1 in Hi2.
  assert (Hlm0 : lm0 <> []).
  { intros ->. simpl in Hr0. inversion Hr0; subst u0.
    destruct Hu0 as (_ & Hp & _). simpl in Hp. done. }
  assert (Hidx1 : Idx n1 = length (lm0 ++ E0 ++ lm1)).
  { subst n1. simpl. rewrite Hi1, Hi0, !length_app. unfold E0.
    rewrite EndCells_length. lia. }
  assert (Hidx2 : Idx n2 = length ((lm0 ++ E0 ++ lm1) ++ E1 ++ lm2)).
  { subst n2. simpl. rewrite Hi2, Hi1, Hi0, !length_app. unfold E0, E1.
    rewrite !EndCells_length. lia. }
  assert (Hne1 : Idx n1 <> 1%nat).
  { rewrite Hidx1, !length_app. unfold E0. rewrite EndCells_length.
    destruct lm0; [done |]. destruct c0; simpl; lia. }
  assert (Hne2 : Idx n2 <> 1%nat).
  { rewrite Hidx2, !length_app. unfold E0. rewrite EndCells_length.
    destruct lm0; [done |]. destruct c0; simpl; lia. }
  assert (Hdata : Data path = (lm0 ++ E0 ++ lm1) ++ E1 ++ (lm2 ++ E2 ++ r2)).
  { rewrite Hd0, <- !app_assoc. reflexivity. }
  assert (Hdata2 : Data path = ((lm0 ++ E0 ++ lm1) ++ E1 ++ lm2) ++ E2 ++ r2).
  { rewrite Hd0, <- !app_assoc. reflexivity. }
  rewrite Hdata2, Hidx2, take_app_length in Hncl.
  apply Forall_app in Hncl as [Hncl01 Hncl2].
  apply Forall_app in Hncl2 as [_ Hncl2].
  pose proof (AtPoint_not_close u1 Hu1) as Hcl1. fold c1 in Hcl1.
  pose proof (AtPoint_not_close u2 Hu2) as Hcl2. fold c2 in Hcl2.
  (* the data after the move *)
  set (ld := LocalDelta path dv) in *.
  set (npt1 := Add (Cp n1) ld).
  set (E1' := EndCells c1 (StoreA npt1 (PCp n1)) (StoreB c1 npt1 (PCp n1))).
  set (path1 := setPathData path ((lm0 ++ E0 ++ lm1) ++ E1' ++ (lm2 ++ E2 ++ r2))).
  assert (Hsp1 : PathNodeSetPoint path n1 npt1 = Some path1).
  { unfold path1, E1'. rewrite <- Hc1.
    apply (PathNodeSetPoint_rel path n1 npt1 (lm0 ++ E0 ++ lm1) a1 b1
             (lm2 ++ E2 ++ r2)); rewrite ?Hc1;
      [exact Hrel1 | exact Hcl1 | exact Hne1 | exact Hdata
      | symmetry; exact Hidx1]. }
  set (npt2 := Add (Cp n2) (MulScalar ld (-1))).
  set (E2' := EndCells c2 (StoreA npt2 (PCp n2)) (StoreB c2 npt2 (PCp n2))).
  set (path2 := setPathData path1 (((lm0 ++ E0 ++ lm1) ++ E1' ++ lm2) ++ E2' ++ r2)).
  assert (Hsp2 : PathNodeSetPoint path1 n2 npt2 = Some path2).
  { unfold path2, E2'. rewrite <- Hc2.
    apply (PathNodeSetPoint_rel path1 n2 npt2
             ((lm0 ++ E0 ++ lm1) ++ E1' ++ lm2) a2 b2 r2); rewrite ?Hc2;
      [exact Hrel2 | exact Hcl2 | exact Hne2 | | ].
    - unfold path1. simpl. rewrite <- !app_assoc. reflexivity.
    - rewrite Hidx2, !length_app. unfold E1', E1. rewrite !EndCells_length.
      reflexivity. }
  assert (Hmove : PathNodeSetOnePoint path [n0; n1; n2] 1 dv svoff = Some path2).
  { unfold PathNodeSetOnePoint. simpl drop.
    rewrite SetOnePointLoop_cons. fold ld npt1. rewrite Hsp1.
    rewrite SetOnePointLoop_cons.
    replace (LocalDelta path1 (MulScalar dv (-1))) with (MulScalar ld (-1))
      by (symmetry; apply LocalDelta_neg).
    fold npt2. rewrite Hsp2. rewrite Hc2.
    rewrite StopsCompensation_false by done. reflexivity. }
  clearbody ld.
  (* the walk up to the moved node *)
  assert (Hru1 : IterRun (PathNodesFun pxf svoff) (IterInit NodesAcc0)
                   (lm0 ++ E0 ++ lm1) = Some u1).
  { rewrite (run_app_Some pxf svoff (IterInit NodesAcc0) lm0 _ u0 Hr0).
    rewrite (run_app_Some pxf svoff u0 E0 lm1 t0 (run_EndCells pxf svoff u0 a0 b0 Hu0)).
    exact Hr1. }
  assert (Hcp1 : it_cp u1 = pcp (it_acc u1)).
  { apply (cp_pcp_run pxf svoff (lm0 ++ E0 ++ lm1) (IterInit NodesAcc0) u1
             eq_refl Hru1 Hncl01). reflexivity. }
  assert (Hpcp1 : PCp n1 = it_cp u1) by (subst n1; simpl; congruence).
  assert (Hcpn1 : Cp n1 = EndPoint c1 (it_cp u1) a1 b1) by (subst n1; reflexivity).
  (* the moved node *)
  set (a1' := StoreA npt1 (PCp n1)) in *. set (b1' := StoreB c1 npt1 (PCp n1)) in *.
  set (n1' := NodeOf pxf svoff u1 a1' b1').
  set (t1' := Emit pxf svoff u1 a1' b1').
  assert (Hn1' : Cp n1' = npt1).
  { unfold n1', NodeOf. simpl. fold c1. unfold a1', b1'. rewrite Hpcp1.
    rewrite EndPoint_store by done.
    destruct (EndPoint_axis c1 (it_cp u1) a1 b1 Hrel1) as [Hx Hy].
    destruct Hax as [Hax Hay]. rewrite <- Hcpn1 in Hx, Hy.
    unfold npt1, Add. simpl. apply Vec2_eq; simpl.
    - destruct (StoresX c1) eqn:Hsx; [ring |].
      rewrite Hx, Hax by done. ring.
    - destruct (StoresY c1) eqn:Hsy; [ring |].
      rewrite Hy, Hay by done. ring. }
  (* up to the next node *)
  destruct (noemit_frame pxf svoff lm2 t1 u2 eq_refl Hr2 Ha2 Hncl2)
    as (Hcp2 & _ & Hfr2).
  set (u2' := withGeo u2 (Cp n1') (it_acc t1')).
  assert (Hru2' : IterRun (PathNodesFun pxf svoff) t1' lm2 = Some u2').
  { unfold t1'. rewrite (Emit_withGeo pxf svoff u1 a1 b1 a1' b1' Hmv1).
    apply Hfr2. }
  set (a2' := StoreA npt2 (PCp n2)) in *. set (b2' := StoreB c2 npt2 (PCp n2)) in *.
  set (n2' := NodeOf pxf svoff u2' a2' b2').
  set (t2' := Emit pxf svoff u2' a2' b2').
  assert (Hpcp2 : PCp n2 = Cp n1).
  { subst n2 n1. simpl. rewrite Ha2. reflexivity. }
  assert (Hcpu2 : it_cp u2 = Cp n1) by (rewrite Hcp2; subst n1; reflexivity).
  assert (Hcpn2 : Cp n2 = EndPoint c2 (Cp n1) a2 b2).
  { rewrite <- Hcpu2. subst n2. reflexivity. }
  assert (Hpos2 : EndPoint c2 (Cp n1') a2' b2' = EndPoint c2 (it_cp u2) a2 b2).
  { rewrite Hcpu2, <- Hcpn2. unfold a2', b2'. rewrite Hpcp2, Hn1'.
    rewrite EndPoint_store by done.
    destruct (EndPoint_axis c2 (Cp n1) a2 b2 Hrel2) as [Hx Hy].
    destruct Hax as [Hax Hay]. rewrite <- Hcpn2 in Hx, Hy.
    unfold npt2, npt1, Add, MulScalar. simpl. apply Vec2_eq; simpl.
    - destruct (StoresX c2) eqn:Hsx; [ring |].
      rewrite Hx by done. rewrite Hax by apply andb_false_r. ring.
    - destruct (StoresY c2) eqn:Hsy; [ring |].
      rewrite Hy by done. rewrite Hay by apply andb_false_r. ring. }
  (* the rest of the walk *)
  assert (Hafin : it_acc fin = it_acc t2).
  { apply (noemit_acc pxf svoff r2 t2 fin eq_refl Ht2).
    rewrite Hnc2, app_nil_r. reflexivity. }
  pose proof (noemit_frame_acc pxf svoff r2 t2 fin eq_refl Ht2 Hafin (it_acc t2'))
    as Hfr.
  assert (Ht2' : t2' = withGeo t2 (it_cp t2) (it_acc t2')).
  { apply (Emit_withGeo_acc pxf svoff u2 a2 b2 (Cp n1') (it_acc t1') a2' b2' Hmv2 Hpos2). }
  assert (Hrun2 : IterRun (PathNodesFun (ParTransform path2) svoff)
                    (IterInit NodesAcc0) (Data path2)
                  = Some (withGeo fin (it_cp fin) (it_acc t2'))).
  { change (ParTransform path2) with pxf.
    replace (Data path2) with ((lm0 ++ E0 ++ lm1) ++ E1' ++ lm2 ++ E2' ++ r2)
      by (unfold path2; simpl; rewrite <- !app_assoc; reflexivity).
    rewrite (run_app_Some pxf svoff (IterInit NodesAcc0) (lm0 ++ E0 ++ lm1) _ u1 Hru1).
    rewrite (run_app_Some pxf svoff u1 E1' _ t1' (run_EndCells pxf svoff u1 a1' b1' Hu1)).
    rewrite (run_app_Some pxf svoff t1' lm2 _ u2' Hru2').
    rewrite (run_app_Some pxf svoff u2' E2' r2 t2'
               (run_EndCells pxf svoff u2' a2' b2' Hu2)).
    rewrite <- Ht2' in Hfr. exact Hfr. }
  assert (Hnodes : nc (it_acc t2') = [n0; n1'; n2']).
  { unfold t2', Emit. simpl. unfold t1', Emit. simpl. rewrite Ha1.
    unfold t0, Emit. simpl. rewrite Ha0. simpl. rewrite <- Hn0. reflexivity. }
  exists path2, n1', n2', (cidxs (it_acc t2')).
  split; [exact Hmove |]. split.
  { rewrite (run_PathNodes svoff path2 _ Hrun2 Hpts).
    change (it_acc (withGeo fin (it_cp fin) (it_acc t2'))) with (it_acc t2').
    rewrite Hnodes. reflexivity. }
  split; [reflexivity |]. split; [reflexivity |]. split; [exact Hn1' |].
  change (Cp n2') with (EndPoint c2 (Cp n1') a2' b2').
  rewrite Hpos2, Hcpu2. symmetry. exact Hcpn2.
Qed.

Lemma OnePoint_compensation_witness :
  exists n0 n1 n2 cs,
    PathNodes Vec2Zero LinePath = Some ([n0; n1; n2], cs)
    /\ exists path' n1' n2' cs',
         PathNodeSetOnePoint LinePath [n0; n1; n2] 1 (V2 1 0) Vec2Zero = Some path'
         /\ PathNodes Vec2Zero path' = Some ([n0; n1'; n2'], cs')
         /\ Cmd n1' = Cmd n1 /\ Cmd n2' = Cmd n2
         /\ Cp n1' = Add (Cp n1) (LocalDelta LinePath (V2 1 0))
         /\ Cp n2' = Cp n2.
Proof.
  eexists _, _, _, _. split; [lazy; reflexivity |].
  apply (OnePoint_compensation Vec2Zero LinePath (V2 1 0)) with (cs := [0; 3; 6]%nat).
  - lazy. reflexivity.
  - reflexivity.
  - reflexivity.
  - reflexivity.
  - reflexivity.
  - simpl. repeat constructor.
  - split; intros H; discriminate H.
Defined.

(** C1 as stated fails on [HorizPath]: its decomposition is [[P0, P1, P2]]
    with [P1] and [P2] relative and neither a close nor a move, yet after
    moving [P1] by [(0, 1)] the re-decomposition shows [P1] where it was,
    not shifted by the delta, and [P2] moved. *)
Lemma OnePoint_compensation_counterexample :
  exists n0 n1 n2 cs path' n0' n1' n2' cs',
    PathNodes Vec2Zero HorizPath = Some ([n0; n1; n2], cs)
    /\ PathCmdIsRel (Cmd n1) = true /\ PathCmdIsRel (Cmd n2) = true
    /\ IsMove (Cmd n1) = false /\ IsClose (Cmd n1) = false
    /\ IsMove (Cmd n2) = false /\ IsClose (Cmd n2) = false
    /\ PathNodeSetOnePoint HorizPath [n0; n1; n2] 1 (V2 0 1) Vec2Zero = Some path'
    /\ PathNodes Vec2Zero path' = Some ([n0'; n1'; n2'], cs')
    /\ Cp n1' = Cp n1
    /\ Cp n1' <> Add (Cp n1) (V2 0 1)
    /\ Cp n2' <> Cp n2.
Proof.
  eexists _, _, _, _, _, _, _, _, _.
  split; [lazy; reflexivity |].
  do 6 (split; [reflexivity |]).
  split; [lazy; reflexivity |].
  split; [lazy; reflexivity |].
  split; [apply Vec2_eq; apply Qc_is_canon; reflexivity |].
  split; intros H; apply (f_equal Y) in H; apply Qc_eq_Qeq in H;
    vm_compute in H; discriminate H.
Qed.

(** ** Where the compensation stops *)

Lemma SetData_ok path i v :
  (i < length (Data path))%nat ->
  SetData path i v = Some (setPathData path (<[i := PdVal v]> (Data path))).
Proof. intros H. unfold SetData. rewrite decide_True by exact H. reflexivity. Qed.

(** [PathNodeSetPoint] succeeds when the cells it writes exist, keeps the
    length of the data and touches no other cell. *)
Lemma PathNodeSetPoint_ok path n npt :
  (Idx n < length (Data path))%nat ->
  (WritesSecond n = true -> (Idx n + 1 < length (Data path))%nat) ->
  exists path',
    PathNodeSetPoint path n npt = Some path'
    /\ length (Data path') = length (Data path)
    /\ ParXf path' = ParXf path /\ WinBBoxMin path' = WinBBoxMin path
    /\ forall j, j <> Idx n -> (WritesSecond n = true -> j <> (Idx n + 1)%nat) ->
         Data path' !! j = Data path !! j.
Proof.
  intros H1 H2. unfold PathNodeSetPoint, WritesSecond in *.
  assert (Hone : forall v,
    exists path', SetData path (Idx n) v = Some path'
      /\ length (Data path') = length (Data path)
      /\ ParXf path' = ParXf path /\ WinBBoxMin path' = WinBBoxMin path
      /\ forall j, j <> Idx n -> Data path' !! j = Data path !! j).
  { intros v. eexists. split; [apply SetData_ok; exact H1 |]. simpl.
    split; [apply length_insert |]. split; [reflexivity |].
    split; [reflexivity |]. intros j Hj. apply list_lookup_insert_ne. done. }
  assert (Htwo : (Idx n + 1 < length (Data path))%nat -> forall v w,
    exists path',
      (SetData path (Idx n) v ≫= fun p => SetData p (Idx n + 1) w) = Some path'
      /\ length (Data path') = length (Data path)
      /\ ParXf path' = ParXf path /\ WinBBoxMin path' = WinBBoxMin path
      /\ forall j, j <> Idx n -> j <> (Idx n + 1)%nat ->
           Data path' !! j = Data path !! j).
  { intros Hlt v w. eexists. split.
    { rewrite SetData_ok by exact H1. simpl.
      apply SetData_ok. simpl. rewrite length_insert. exact Hlt. }
    simpl. split; [rewrite !length_insert; reflexivity |].
    split; [reflexivity |]. split; [reflexivity |]. intros j Hj Hj'.
    rewrite list_lookup_insert_ne by done. apply list_lookup_insert_ne. done. }
  destruct (bool_decide (Idx n = 1%nat) || negb (PathCmdIsRel (Cmd n)));
    destruct (Cmd n);
    first
      [ destruct (Hone (X npt)) as (p & Hp & Hl & Hx & Hw & Hf);
        exists p; repeat (split; [done |]); intros j Hj _; apply Hf; exact Hj
      | destruct (Hone (Y npt)) as (p & Hp & Hl & Hx & Hw & Hf);
        exists p; repeat (split; [done |]); intros j Hj _; apply Hf; exact Hj
      | destruct (Hone (X npt - X (PCp n))) as (p & Hp & Hl & Hx & Hw & Hf);
        exists p; repeat (split; [done |]); intros j Hj _; apply Hf; exact Hj
      | destruct (Hone (Y npt - Y (PCp n))) as (p & Hp & Hl & Hx & Hw & Hf);
        exists p; repeat (split; [done |]); intros j Hj _; apply Hf; exact Hj
      | destruct (Htwo (H2 eq_refl) (X npt) (Y npt)) as (p & Hp & Hl & Hx & Hw & Hf);
        exists p; repeat (split; [done |]); intros j Hj Hj'; apply Hf; auto
      | destruct (Htwo (H2 eq_refl) (X npt - X (PCp n)) (Y npt - Y (PCp n)))
          as (p & Hp & Hl & Hx & Hw & Hf);
        exists p; repeat (split; [done |]); intros j Hj Hj'; apply Hf; auto ].
Qed.

Lemma WritesSecond_abs n :
  PathCmdIsRel (Cmd n) = false -> WritesSecond n = true ->
  PointCells (Cmd n) = 2%nat.
Proof.
  unfold WritesSecond. intros Ha. rewrite Ha, orb_true_r.
  destruct (Cmd n); simpl in *; done.
Qed.

Lemma PointCells_pos c : (1 <= PointCells c)%nat.
Proof. destruct c; simpl; lia. Qed.

(** C2 (as amended).  Compensation stop: for every decomposed path in
    which the node after the moved node, [P2], is encoded by an absolute
    command, [PathNodeSetOnePoint] succeeds and its walk goes no further
    than [P2]: the data keeps its length, and every cell after the end
    point of [P2], like every cell before the end point of the moved node,
    is left as it was. *)
Theorem Compensation_stops_at_absolute svoff path nodes cs pidx n1 n2 dv :
  PathNodes svoff path = Some (nodes, cs) ->
  nodes !! pidx = Some n1 -> nodes !! S pidx = Some n2 ->
  PathCmdIsRel (Cmd n2) = false ->
  exists path',
    PathNodeSetOnePoint path nodes pidx dv svoff = Some path'
    /\ length (Data path') = length (Data path)
    /\ (forall j, (Idx n2 + PointCells (Cmd n2) <= j)%nat ->
          Data path' !! j = Data path !! j)
    /\ (forall j, (j < Idx n1)%nat -> Data path' !! j = Data path !! j).
Proof.
  intros Hpn Hk1 Hk2 Habs.
  destruct (PathNodes_run svoff path _ _ Hpn) as (fin & Hrun & Hpts & Hnc & _).
  set (pxf := ParTransform path) in *.
  destruct (nth_node pxf svoff pidx (Data path) (IterInit NodesAcc0) fin nodes n1)
    as (pre & a1 & b1 & lr & u1 & Hd1 & Hr1 & Hu1 & Ha1 & Hn1 & Ht1 & Hnc1);
    [apply IterInit_Early | exact Hrun | exact Hnc | exact Hk1 |].
  rewrite (drop_S nodes n2 (S pidx) Hk2) in Hnc1.
  destruct (next_node_nc pxf svoff lr (Emit pxf svoff u1 a1 b1) fin n2
              (drop (S (S pidx)) nodes))
    as (lm2 & a2 & b2 & r2 & u2 & Hd2 & Hr2 & Hu2 & Ha2 & Hn2 & Ht2 & Hnc2);
    [apply Emit_Early; exact Hu1 | exact Ht1 | exact Hnc1 |].
  destruct (run_inv pxf svoff pre (IterInit NodesAcc0) u1 eq_refl Hr1)
    as (_ & Hi1 & _).
  destruct (run_inv pxf svoff lm2 (Emit pxf svoff u1 a1 b1) u2 eq_refl Hr2)
    as (_ & Hi2 & _).
  simpl in Hi1, Hi2.
  assert (Hidx1 : Idx n1 = length pre) by (subst n1; simpl; lia).
  assert (Hidx2 : Idx n2 = (length pre + PointCells (Cmd n1) + length lm2)%nat).
  { subst n2 n1. simpl. lia. }
  assert (Hlen : length (Data path) =
                 (length pre + PointCells (Cmd n1) + length lm2
                  + PointCells (Cmd n2) + length r2)%nat).
  { rewrite Hd1, Hd2, !length_app, !EndCells_length. subst n1 n2. simpl. lia. }
  pose proof (PointCells_pos (Cmd n1)) as Hp1.
  pose proof (PointCells_pos (Cmd n2)) as Hp2.
  (* the two rewrites *)
  destruct (PathNodeSetPoint_ok path n1 (Add (Cp n1) (LocalDelta path dv)))
    as (path1 & Hsp1 & Hl1 & Hx1 & Hw1 & Hf1); [lia | lia |].
  destruct (PathNodeSetPoint_ok path1 n2
              (Add (Cp n2) (LocalDelta path1 (MulScalar dv (-1)))))
    as (path2 & Hsp2 & Hl2 & Hx2 & Hw2 & Hf2).
  { rewrite Hl1. lia. }
  { intros Hw. rewrite Hl1. pose proof (WritesSecond_abs n2 Habs Hw). lia. }
  exists path2. split.
  { unfold PathNodeSetOnePoint.
    rewrite (drop_S nodes n1 pidx Hk1), (drop_S nodes n2 (S pidx) Hk2).
    rewrite SetOnePointLoop_cons, Hsp1, SetOnePointLoop_cons, Hsp2.
    unfold StopsCompensation. rewrite Habs. reflexivity. }
  split; [lia |]. split.
  - intros j Hj. rewrite Hf2, Hf1; [reflexivity | lia | lia | lia |].
    intros Hw. pose proof (WritesSecond_abs n2 Habs Hw). lia.
  - intros j Hj. rewrite Hf2, Hf1; [reflexivity | lia | lia | lia | lia].
Qed.

Lemma Compensation_stops_at_absolute_witness :
  exists nodes cs n1 n2,
    PathNodes Vec2Zero AbsPath = Some (nodes, cs)
    /\ nodes !! 1%nat = Some n1 /\ nodes !! 2%nat = Some n2
    /\ exists path',
         PathNodeSetOnePoint AbsPath nodes 1 (V2 1 0) Vec2Zero = Some path'
         /\ length (Data path') = length (Data AbsPath)
         /\ (forall j, (Idx n2 + PointCells (Cmd n2) <= j)%nat ->
               Data path' !! j = Data AbsPath !! j)
         /\ (forall j, (j < Idx n1)%nat -> Data path' !! j = Data AbsPath !! j).
Proof.
  eexists _, _, _, _. split; [lazy; reflexivity |].
  split; [reflexivity |]. split; [reflexivity |].
  eapply (Compensation_stops_at_absolute Vec2Zero AbsPath _ _ 1%nat).
  - lazy. reflexivity.
  - reflexivity.
  - reflexivity.
  - reflexivity.
Defined.

(** C2 as stated fails on [AbsPath]: [P2] is encoded by an absolute
    command, yet moving [P1] by [(1, 0)] rewrites the stored operands of
    [P2], and the re-decomposition shows [P2] moved by [(-1, 0)], not by
    the delta. *)
Lemma Compensation_stops_at_absolute_counterexample :
  exists nodes cs n1 n2 path' nodes' cs' n2',
    PathNodes Vec2Zero AbsPath = Some (nodes, cs)
    /\ nodes !! 1%nat = Some n1 /\ nodes !! 2%nat = Some n2
    /\ PathCmdIsRel (Cmd n2) = false
    /\ PathNodeSetOnePoint AbsPath nodes 1 (V2 1 0) Vec2Zero = Some path'
    /\ Data path' !! Idx n2 <> Data AbsPath !! Idx n2
    /\ PathNodes Vec2Zero path' = Some (nodes', cs')
    /\ nodes' !! 2%nat = Some n2'
    /\ Cp n2' = Add (Cp n2) (V2 (-1) 0)
    /\ Cp n2' <> Add (Cp n2) (V2 1 0).
Proof.
  eexists _, _, _, _, _, _, _, _.
  split; [lazy; reflexivity |].
  split; [reflexivity |]. split; [reflexivity |]. split; [reflexivity |].
  split; [lazy; reflexivity |].
  split.
  { intros H. vm_compute in H. discriminate H. }
  split; [lazy; reflexivity |].
  split; [reflexivity |].
  split; [apply Vec2_eq; apply Qc_is_canon; reflexivity |].
  intros H. apply (f_equal X) in H. apply Qc_eq_Qeq in H.
  vm_compute in H. discriminate H.
Qed.

(** ** Setting a point and decomposing again *)

Section Sim.

Variables (pxf : Mat2) (svoff : Vec2).

Local Abbreviation run := (IterRun (PathNodesFun pxf svoff)).
Local Abbreviation step := (IterStep (PathNodesFun pxf svoff)).

(** The course of the walk depends on the commands only, not on the
    operands. *)
Lemma step_sim s s' d d' t :
  CtlEq s s' -> ShapeEq d d' -> step s d = Some t ->
  exists t', step s' d' = Some t' /\ CtlEq t t'.
Proof.
  intros (Hi & Hc & Hp & Hx & Hn & Hs & Hli & Hlc & Hcs & Hsk) Hd H.
  unfold IterStep in *. rewrite <- Hs, <- Hp.
  destruct (it_stop s) eqn:Hstop.
  { inversion H; subst t. eexists. split; [reflexivity |].
    unfold CtlEq. rewrite Hstop. repeat split; done. }
  destruct (it_pts s) as [| k], d as [c n | v], d' as [c' n' | v'];
    try discriminate; simpl in Hd; try done.
  - destruct Hd as [<- <-].
    destruct (IsClose c); inversion H; subst t; eexists;
      (split; [reflexivity |]); unfold CtlEq; simpl; repeat split; congruence.
  - rewrite <- Hn.
    destruct (decide (it_need s = 1%nat)); inversion H; subst t; eexists;
      (split; [reflexivity |]); unfold CtlEq; simpl;
      rewrite <- ?Hi, <- ?Hc, <- ?Hx, <- ?Hli, <- ?Hlc, <- ?Hcs;
      repeat split; try congruence.
    rewrite !map_app, Hsk. simpl. unfold Skel at 2 4. simpl.
    rewrite Hlc, Hli. reflexivity.
Qed.

Lemma run_sim l l' : forall s s' t,
  Forall2 ShapeEq l l' -> CtlEq s s' -> run s l = Some t ->
  exists t', run s' l' = Some t' /\ CtlEq t t'.
Proof.
  intros s s' t Hl. revert s s' t.
  induction Hl as [| d d' l l' Hd Hl IH]; intros s s' t Hc H; simpl in *.
  - inversion H; subst. by exists s'.
  - destruct (step s d) as [s1 |] eqn:Hs; [| discriminate].
    destruct (step_sim s s' d d' s1 Hc Hd Hs) as (s1' & Hs' & Hc1).
    rewrite Hs'. apply (IH s1 s1' t Hc1 H).
Qed.

Lemma ShapeEq_refl l : Forall2 ShapeEq l l.
Proof.
  induction l as [| [c n | v] l IH]; constructor; simpl; auto.
Qed.

Lemma CtlEq_Emit (u : Iter NodesAcc) a b a' b' :
  CtlEq (Emit pxf svoff u a b) (Emit pxf svoff u a' b').
Proof.
  unfold CtlEq, Emit, NodeOf. simpl. repeat split; try reflexivity.
  rewrite !map_app. reflexivity.
Qed.

End Sim.

Lemma PathNodeSetPoint_cells path n p pre a b post :
  (Idx n = 1%nat -> Cmd n <> Pch /\ Cmd n <> Pcv) ->
  Data path = pre ++ EndCells (Cmd n) a b ++ post -> length pre = Idx n ->
  PathNodeSetPoint path n p =
    Some (setPathData path
            (pre ++ EndCells (Cmd n) (StoredA n p) (StoredB n p) ++ post)).
Proof.
  intros Hfirst Hd Hlen. unfold PathNodeSetPoint, StoredA, StoredB.
  assert (H2 : forall x y v w,
    Data path = pre ++ [PdVal x; PdVal y] ++ post ->
    (SetData path (length pre) v ≫= fun p' => SetData p' (length pre + 1) w)
    = Some (setPathData path (pre ++ [PdVal v; PdVal w] ++ post))).
  { intros x y v w Hd'. rewrite (SetData_mid path pre _ _ v Hd'). simpl.
    replace (length pre + 1)%nat with (length (pre ++ [PdVal v]))
      by (rewrite length_app; simpl; lia).
    erewrite SetData_mid by (simpl; rewrite <- app_assoc; reflexivity).
    unfold setPathData. simpl. rewrite <- app_assoc. reflexivity. }
  destruct (bool_decide (Idx n = 1%nat)) eqn:Hb.
  - apply bool_decide_eq_true_1 in Hb. destruct (Hfirst Hb) as [Hh Hv].
    rewrite orb_true_l, <- Hlen.
    destruct (Cmd n); try done; cbn [EndCells] in *;
      first [apply (SetData_mid path pre _ post _ Hd) | apply (H2 _ _ _ _ Hd)].
  - rewrite orb_false_l, <- Hlen.
    destruct (Cmd n); cbn [EndCells PathCmdIsRel negb StoreB] in *;
      first [apply (SetData_mid path pre _ post _ Hd) | apply (H2 _ _ _ _ Hd)].
Qed.

Lemma EndPoint_stored n p base :
  (1 <= OperandsPerPoint (Cmd n))%nat ->
  (Idx n = 1%nat -> Cmd n <> Pch /\ Cmd n <> Pcv) ->
  (PathCmdIsRel (Cmd n) = true -> base = PCp n) ->
  (PathCmdIsRel (Cmd n) = true -> Idx n = 1%nat -> PCp n = Vec2Zero) ->
  (StoresX (Cmd n) = true ->
     X (EndPoint (Cmd n) base (StoredA n p) (StoredB n p)) = X p)
  /\ (StoresY (Cmd n) = true ->
     Y (EndPoint (Cmd n) base (StoredA n p) (StoredB n p)) = Y p).
Proof.
  intros Hops Hfirst Hbase Hzero. unfold StoredA, StoredB.
  destruct (bool_decide (Idx n = 1%nat)) eqn:Hb.
  - apply bool_decide_eq_true_1 in Hb. destruct (Hfirst Hb) as [Hh Hv].
    simpl. destruct (Cmd n) eqn:Hc; simpl in *; try lia; try done;
      (split; intros _; try done;
       rewrite (Hbase eq_refl), (Hzero eq_refl Hb); simpl; ring).
  - simpl. destruct (Cmd n) eqn:Hc; simpl in *; try lia;
      (split; intros Hs; try done; rewrite ?(Hbase eq_refl); simpl; ring).
Qed.

(** Apart from the nodes that follow a close-path, the round trip holds:
    for a node of a decomposition that is encoded by an absolute command,
    or by a relative command with no close-path before it in the data
    (and, for the first point of the data, not by [h] or [v]),
    [PathNodeSetPoint] succeeds, the re-decomposition has as many nodes
    and the same command for the node, and the node resolves to the point
    that was set, on the axes its command stores. *)
Lemma SetPoint_roundtrip svoff path nodes cs k n p :
  PathNodes svoff path = Some (nodes, cs) -> nodes !! k = Some n ->
  (PathCmdIsRel (Cmd n) = true -> Forall NotClose (take (Idx n) (Data path))) ->
  (Idx n = 1%nat -> Cmd n <> Pch /\ Cmd n <> Pcv) ->
  exists path' nodes' cs' n',
    PathNodeSetPoint path n p = Some path'
    /\ PathNodes svoff path' = Some (nodes', cs')
    /\ length nodes' = length nodes /\ nodes' !! k = Some n'
    /\ Cmd n' = Cmd n
    /\ (StoresX (Cmd n) = true -> X (Cp n') = X p)
    /\ (StoresY (Cmd n) = true -> Y (Cp n') = Y p).
Proof.
  intros Hpn Hk Hncl Hfirst.
  destruct (PathNodes_run svoff path _ _ Hpn) as (fin & Hrun & Hpts & Hnc & _).
  set (pxf := ParTransform path) in *.
  destruct (nth_node pxf svoff k (Data path) (IterInit NodesAcc0) fin nodes n)
    as (pre & a & b & lr & u & Hd & Hr & Hu & Ha & Hn & Ht & Hnc');
    [apply IterInit_Early | exact Hrun | exact Hnc | exact Hk |].
  destruct (run_inv pxf svoff pre (IterInit NodesAcc0) u eq_refl Hr)
    as (_ & Hi & _). simpl in Hi.
  assert (Hc : Cmd n = it_cmd u) by (subst n; reflexivity).
  assert (Hidx : Idx n = length pre) by (subst n; simpl; lia).
  rewrite <- Hc in Hd.
  set (E' := EndCells (Cmd n) (StoredA n p) (StoredB n p)).
  set (path' := setPathData path (pre ++ E' ++ lr)).
  assert (Hsp : PathNodeSetPoint path n p = Some path').
  { apply (PathNodeSetPoint_cells path n p pre a b lr Hfirst Hd). done. }
  (* the walk over the new data *)
  set (n' := NodeOf pxf svoff u (StoredA n p) (StoredB n p)).
  set (t' := Emit pxf svoff u (StoredA n p) (StoredB n p)).
  destruct (run_sim pxf svoff lr lr (Emit pxf svoff u a b) t' fin
              (ShapeEq_refl lr) (CtlEq_Emit pxf svoff u a b _ _) Ht)
    as (fin' & Ht' & Hceq).
  assert (Hrun' : IterRun (PathNodesFun (ParTransform path') svoff)
                    (IterInit NodesAcc0) (Data path') = Some fin').
  { change (ParTransform path') with pxf. unfold path'. simpl.
    rewrite (run_app_Some pxf svoff (IterInit NodesAcc0) pre _ u Hr).
    unfold E'. rewrite Hc.
    rewrite (run_app_Some pxf svoff u _ lr t'
               (run_EndCells pxf svoff u _ _ Hu)).
    exact Ht'. }
  destruct Hceq as (_ & _ & Hp' & _ & _ & _ & _ & _ & _ & Hsk).
  assert (Hpts' : it_pts fin' = O) by congruence.
  destruct (run_inv pxf svoff lr t' fin' eq_refl Ht') as (_ & _ & ext & Hext).
  exists path', (nc (it_acc fin')), (cidxs (it_acc fin')), n'.
  split; [exact Hsp |].
  split; [apply (run_PathNodes svoff path' fin' Hrun' Hpts') |].
  split.
  { rewrite <- Hnc. rewrite <- (length_map Skel), <- Hsk, length_map. reflexivity. }
  split.
  { rewrite Hext. unfold t', Emit. simpl. rewrite <- app_assoc. simpl.
    rewrite lookup_app_r; rewrite Ha; simpl; rewrite length_take.
    - pose proof (lookup_lt_Some _ _ _ Hk).
      replace (k - k `min` length nodes)%nat with O by lia. reflexivity.
    - lia. }
  split; [subst n; reflexivity |].
  (* the point read back *)
  change (Cp n') with (EndPoint (it_cmd u) (it_cp u) (StoredA n p) (StoredB n p)).
  rewrite <- Hc.
  apply EndPoint_stored.
  - rewrite Hc. destruct Hu as (_ & _ & _ & Hops). exact Hops.
  - exact Hfirst.
  - intros Hrel. specialize (Hncl Hrel).
    rewrite Hd, Hidx, take_app_length in Hncl.
    rewrite (cp_pcp_run pxf svoff pre (IterInit NodesAcc0) u eq_refl Hr Hncl eq_refl).
    subst n. reflexivity.
  - intros Hrel H1. rewrite H1 in Hidx.
    destruct pre as [| d [| d' pre]]; simpl in Hidx; try lia.
    simpl in Hr. unfold IterStep in Hr. simpl in Hr.
    destruct d as [c m | v]; [| discriminate].
    subst n. simpl.
    destruct (IsClose c); inversion Hr; subst u; reflexivity.
Qed.

(** C3 on [ClosedPath].  The node of the relative move after the
    close-path resolves to [(20, 20)], and its [PCp] is the point of the
    node before it, [(10, 10)], although the close-path took the current
    point back to the start [(0, 0)].  Setting that node to the point
    [(20, 20)], where it already is, stores [(10, 10)], and the
    re-decomposition resolves the node to [(10, 10)]: the point set is not
    the point read back.  The command kind is kept. *)
Theorem SetPoint_after_close_not_roundtrip :
  exists nodes cs n path' nodes' cs' n',
    PathNodes Vec2Zero ClosedPath = Some (nodes, cs)
    /\ nodes !! 3%nat = Some n
    /\ Cmd n = Pcm /\ Cp n = V2 (ofInt 20) (ofInt 20)
    /\ PCp n = V2 (ofInt 10) (ofInt 10)
    /\ PathNodeSetPoint ClosedPath n (V2 (ofInt 20) (ofInt 20)) = Some path'
    /\ PathNodes Vec2Zero path' = Some (nodes', cs')
    /\ nodes' !! 3%nat = Some n'
    /\ Cmd n' = Cmd n
    /\ Cp n' = V2 (ofInt 10) (ofInt 10)
    /\ Cp n' <> V2 (ofInt 20) (ofInt 20).
Proof.
  eexists _, _, _, _, _, _, _.
  split; [lazy; reflexivity |].
  split; [reflexivity |]. split; [reflexivity |].
  split; [apply Vec2_eq; apply Qc_is_canon; reflexivity |].
  split; [apply Vec2_eq; apply Qc_is_canon; reflexivity |].
  split; [lazy; reflexivity |].
  split; [lazy; reflexivity |].
  split; [reflexivity |]. split; [reflexivity |].
  split; [apply Vec2_eq; apply Qc_is_canon; reflexivity |].
  intros H. apply (f_equal X) in H. apply Qc_eq_Qeq in H.
  vm_compute in H. discriminate H.
Qed.

(** ** The bookkeeping of [PathNodes] *)

Section Bookkeeping.

Variables (pxf : Mat2) (svoff : Vec2).

Local Abbreviation run := (IterRun (PathNodesFun pxf svoff)).
Local Abbreviation step := (IterStep (PathNodesFun pxf svoff)).

(** What the callback keeps of the callback state is kept by the walk. *)
Lemma run_acc_inv (P : NodesAcc -> Prop) l : forall s t,
  (forall idx cmd ptIdx cp a,
     P a -> P (fst (PathNodesFun pxf svoff idx cmd ptIdx cp a))) ->
  run s l = Some t -> P (it_acc s) -> P (it_acc t).
Proof.
  induction l as [| d l IH]; intros s t HP H Hs; simpl in H.
  - by inversion H; subst.
  - destruct (step s d) as [s1 |] eqn:Hs1; [| discriminate].
    apply (IH s1 t HP H). clear IH H.
    unfold IterStep in Hs1. destruct (it_stop s); [by inversion Hs1; subst |].
    destruct (it_pts s) as [| k], d as [c n | v]; try discriminate.
    + destruct (IsClose c); inversion Hs1; subst; exact Hs.
    + destruct (decide (it_need s = 1%nat)); inversion Hs1; subst; simpl;
        [apply (HP _ _ _ _ _ Hs) | exact Hs].
Qed.

Lemma ChainFrom_snoc pc lc ns n :
  ChainFrom pxf svoff pc lc ns ->
  PCp n = from_option Cp pc (last ns) ->
  PrevCmd n = from_option Cmd lc (last ns) ->
  WinPt n = Add (MulVec2AsPt pxf (Cp n)) svoff ->
  ChainFrom pxf svoff pc lc (ns ++ [n]).
Proof.
  revert pc lc. induction ns as [| m ns IH]; intros pc lc Hc Hp Hl Hw; simpl in *.
  - done.
  - destruct Hc as (H1 & H2 & H3 & H4). split; [done |]. split; [done |].
    split; [done |]. apply IH; [done | | | done].
    + rewrite Hp. rewrite last_cons. by destruct (last ns).
    + rewrite Hl. rewrite last_cons. by destruct (last ns).
Qed.

Lemma run_ChainFrom l s t :
  run s l = Some t ->
  ChainFrom pxf svoff Vec2Zero PcErr (nc (it_acc s))
  /\ pcp (it_acc s) = from_option Cp Vec2Zero (last (nc (it_acc s)))
  /\ lstCmd (it_acc s) = from_option Cmd PcErr (last (nc (it_acc s))) ->
  ChainFrom pxf svoff Vec2Zero PcErr (nc (it_acc t)).
Proof.
  intros H Hs.
  apply (run_acc_inv
           (fun a => ChainFrom pxf svoff Vec2Zero PcErr (nc a)
                     /\ pcp a = from_option Cp Vec2Zero (last (nc a))
                     /\ lstCmd a = from_option Cmd PcErr (last (nc a)))
           l s t); [| exact H | exact Hs].
  intros idx cmd ptIdx cp a (Hc & Hp & Hl). simpl.
  split; [| by rewrite !last_snoc].
  apply ChainFrom_snoc; simpl; done.
Qed.

Lemma CmdIdxFrom_snoc li ns n :
  CmdIdxFrom li ns ->
  CmdIdx n = (if decide (PtIdx n = O) then (Idx n - 1)%nat
              else from_option CmdIdx li (last ns)) ->
  CmdIdxFrom li (ns ++ [n]).
Proof.
  revert li. induction ns as [| m ns IH]; intros li Hc Hn; simpl in *.
  - done.
  - destruct Hc as [H1 H2]. split; [done |]. apply IH; [done |].
    rewrite Hn. rewrite last_cons. by destruct (last ns).
Qed.

Lemma run_CmdIdxFrom l s t :
  run s l = Some t ->
  CmdIdxFrom O (nc (it_acc s))
  /\ lstCmdIdx (it_acc s) = from_option CmdIdx O (last (nc (it_acc s)))
  /\ cidxs (it_acc s) = FirstPointIdxs (nc (it_acc s)) ->
  CmdIdxFrom O (nc (it_acc t))
  /\ cidxs (it_acc t) = FirstPointIdxs (nc (it_acc t)).
Proof.
  intros H Hs.
  assert (Hinv :
    CmdIdxFrom O (nc (it_acc t))
    /\ lstCmdIdx (it_acc t) = from_option CmdIdx O (last (nc (it_acc t)))
    /\ cidxs (it_acc t) = FirstPointIdxs (nc (it_acc t))).
  { apply (run_acc_inv
             (fun a => CmdIdxFrom O (nc a)
                       /\ lstCmdIdx a = from_option CmdIdx O (last (nc a))
                       /\ cidxs a = FirstPointIdxs (nc a))
             l s t); [| exact H | exact Hs].
    intros idx cmd ptIdx cp a (Hc & Hl & Hcs). simpl.
    split; [| split].
    - apply CmdIdxFrom_snoc; [done |]. simpl. rewrite Hl. reflexivity.
    - by rewrite last_snoc.
    - rewrite Hcs. unfold FirstPointIdxs. rewrite filter_app, fmap_app.
      rewrite filter_cons, filter_nil. simpl.
      destruct (decide (ptIdx = O)) as [-> | Hne]; simpl; [reflexivity |].
      by rewrite app_nil_r. }
  destruct Hinv as (H1 & _ & H3). by split.
Qed.

End Bookkeeping.

Lemma ChainFrom_lookup pxf svoff pc lc ns :
  ChainFrom pxf svoff pc lc ns ->
  (forall n, ns !! O = Some n -> PCp n = pc /\ PrevCmd n = lc)
  /\ (forall k a b, ns !! k = Some a -> ns !! S k = Some b ->
        PCp b = Cp a /\ PrevCmd b = Cmd a)
  /\ (forall k n, ns !! k = Some n ->
        WinPt n = Add (MulVec2AsPt pxf (Cp n)) svoff).
Proof.
  revert pc lc. induction ns as [| m ns IH]; intros pc lc Hc; simpl in *.
  - repeat split; intros; done.
  - destruct Hc as (H1 & H2 & H3 & H4).
    destruct (IH _ _ H4) as (I1 & I2 & I3).
    split; [by intros n [= <-] |]. split.
    + intros [| k] a b Ha Hb; simpl in *.
      * inversion Ha; subst a. by apply I1.
      * by apply (I2 k).
    + intros [| k] n Hn; simpl in *; [by inversion Hn; subst | by apply (I3 k)].
Qed.

Lemma CmdIdxFrom_lookup li ns :
  CmdIdxFrom li ns ->
  (forall k n, ns !! k = Some n -> PtIdx n = O -> CmdIdx n = (Idx n - 1)%nat)
  /\ (forall k a b, ns !! k = Some a -> ns !! S k = Some b -> PtIdx b <> O ->
        CmdIdx b = CmdIdx a).
Proof.
  revert li. induction ns as [| m ns IH]; intros li Hc; simpl in *.
  - split; intros; done.
  - destruct Hc as [H1 H2]. destruct (IH _ H2) as [I1 I2]. split.
    + intros [| k] n Hn Hp; simpl in *.
      * inversion Hn; subst n. by rewrite H1, decide_True.
      * by apply (I1 k).
    + intros [| k] a b Ha Hb Hp; simpl in *.
      * inversion Ha; subst a. destruct ns as [| m' ns]; [done |].
        simpl in *. inversion Hb; subst b. destruct H2 as [H2 _].
        by rewrite H2, decide_False.
      * by apply (I2 k).
Qed.

(** The nodes of a decomposition are chained: the first node starts from
    the origin with no command before it; every other node records as its
    previous point ([PCp]) the point of the node before it and as its
    previous command the command of that node; and the window point of
    every node is its point under the transform of the path, moved by the
    offset of the view. *)
Theorem PathNodes_chain svoff path nodes cs :
  PathNodes svoff path = Some (nodes, cs) ->
  (forall n, nodes !! O = Some n -> PCp n = Vec2Zero /\ PrevCmd n = PcErr)
  /\ (forall k a b, nodes !! k = Some a -> nodes !! S k = Some b ->
        PCp b = Cp a /\ PrevCmd b = Cmd a)
  /\ (forall k n, nodes !! k = Some n ->
        WinPt n = Add (MulVec2AsPt (ParTransform path) (Cp n)) svoff).
Proof.
  intros H. destruct (PathNodes_run svoff path _ _ H) as (fin & Hrun & _ & Hnc & _).
  apply (ChainFrom_lookup (ParTransform path) svoff Vec2Zero PcErr).
  rewrite <- Hnc.
  apply (run_ChainFrom (ParTransform path) svoff (Data path)
           (IterInit NodesAcc0) fin Hrun).
  simpl. done.
Qed.

Lemma PathNodes_chain_witness :
  exists nodes cs,
    PathNodes Vec2Zero ClosedPath = Some (nodes, cs)
    /\ (forall n, nodes !! O = Some n -> PCp n = Vec2Zero /\ PrevCmd n = PcErr)
    /\ (forall k a b, nodes !! k = Some a -> nodes !! S k = Some b ->
          PCp b = Cp a /\ PrevCmd b = Cmd a)
    /\ (forall k n, nodes !! k = Some n ->
          WinPt n = Add (MulVec2AsPt (ParTransform ClosedPath) (Cp n)) Vec2Zero).
Proof.
  eexists _, _. split; [lazy; reflexivity |].
  eapply (PathNodes_chain Vec2Zero ClosedPath). lazy. reflexivity.
Defined.

Section Cells.

Variables (pxf : Mat2) (svoff : Vec2).

Local Abbreviation run := (IterRun (PathNodesFun pxf svoff)).
Local Abbreviation step := (IterStep (PathNodesFun pxf svoff)).

Lemma step_CmdCell pre s d t :
  CmdCell pre s -> step s d = Some t -> CmdCell (pre ++ [d]) t.
Proof.
  intros (Hstop & Hi & Hp) H. unfold IterStep in H. rewrite Hstop in H.
  unfold CmdCell. rewrite length_app. simpl.
  destruct (it_pts s) as [| k] eqn:Hpts, d as [c n | v]; try discriminate.
  - destruct (IsClose c) eqn:Hcl; inversion H; subst t; simpl.
    + split; [done |]. split; [lia |]. done.
    + split; [done |]. split; [lia |]. intros Hnp.
      pose proof (NumPoints_Ops c n Hnp). split; [lia |]. intros _.
      exists n. replace (length pre + 1 - 1 - (OperandsPerPoint c - OperandsPerPoint c))%nat
        with (length pre) by lia.
      rewrite lookup_app_r by lia. by rewrite Nat.sub_diag.
  - destruct (Hp ltac:(done)) as [Hneed Hcmd].
    destruct (decide (it_need s = 1%nat)) as [H1 | H1]; inversion H; subst t; simpl.
    + split; [done |]. split; [lia |]. intros _. split; [lia |]. done.
    + split; [done |]. split; [lia |]. intros _. split; [lia |].
      intros Hx. destruct (Hcmd Hx) as [m Hm]. exists m.
      pose proof (lookup_lt_Some _ _ _ Hm) as Hlt.
      rewrite lookup_app_l by lia. rewrite <- Hm. f_equal. lia.
Qed.

Lemma run_CmdCell l : forall pre s t,
  CmdCell pre s -> run s l = Some t -> CmdCell (pre ++ l) t.
Proof.
  induction l as [| d l IH]; intros pre s t Hc H; simpl in H.
  - inversion H; subst. by rewrite app_nil_r.
  - destruct (step s d) as [s1 |] eqn:Hs; [| discriminate].
    replace (pre ++ d :: l) with ((pre ++ [d]) ++ l) by (by rewrite <- app_assoc).
    apply (IH _ s1 t); [by apply (step_CmdCell pre s d) | exact H].
Qed.

(** A node recorded by a walk lies between the cell the walk starts at and
    the cell it ends at. *)
Lemma node_Idx_bounds l s t ns k n :
  Early s -> run s l = Some t -> nc (it_acc t) = nc (it_acc s) ++ ns ->
  ns !! k = Some n ->
  (it_i s <= Idx n)%nat /\ (Idx n + PointCells (Cmd n) <= it_i t)%nat.
Proof.
  intros He Hr Hnc Hk.
  destruct (nth_node pxf svoff k l s t ns n He Hr Hnc Hk)
    as (lm & a & b & lr & u & Hl & Hru & Hu & _ & Hn & Ht & _).
  destruct He as [Hstop _].
  destruct (run_inv pxf svoff lm s u Hstop Hru) as (_ & Hiu & _).
  destruct (run_inv pxf svoff lr (Emit pxf svoff u a b) t eq_refl Ht) as (_ & Hit & _).
  subst n. simpl in *. lia.
Qed.

(** The nodes of a walk follow one another in the data, and their
    end-point cells do not overlap. *)
Lemma nodes_ordered l s t ns k k' n n' :
  Early s -> run s l = Some t -> nc (it_acc t) = nc (it_acc s) ++ ns ->
  ns !! k = Some n -> ns !! k' = Some n' -> (k < k')%nat ->
  (Idx n + PointCells (Cmd n) <= Idx n')%nat.
Proof.
  intros He Hr Hnc Hk Hk' Hlt.
  destruct (nth_node pxf svoff k l s t ns n He Hr Hnc Hk)
    as (lm & a & b & lr & u & Hl & Hru & Hu & _ & Hn & Ht & Hnc').
  assert (Hd : drop (S k) ns !! (k' - S k)%nat = Some n').
  { rewrite lookup_drop. rewrite <- Hk'. f_equal. lia. }
  destruct (node_Idx_bounds lr (Emit pxf svoff u a b) t (drop (S k) ns)
              (k' - S k) n' (Emit_Early pxf svoff u a b Hu) Ht Hnc' Hd) as [Hge _].
  subst n. simpl in *. lia.
Qed.

End Cells.

Lemma CmdCell_init : CmdCell [] (IterInit NodesAcc0).
Proof. split; [done |]. split; [done |]. simpl. done. Qed.

(** The command indexes of a decomposition: the node of the first point of
    a command has the cell before its point as command index, and for a
    command whose points are end points only (move, line, horizontal,
    vertical, smooth quadratic) that cell holds the command; a later point
    of the command has the command index of the node before it; and the
    list of command starts returned with the nodes holds the command
    indexes of the first points, in order. *)
Theorem PathNodes_cmd_index svoff path nodes cs :
  PathNodes svoff path = Some (nodes, cs) ->
  (forall k n, nodes !! k = Some n -> PtIdx n = O ->
     CmdIdx n = (Idx n - 1)%nat
     /\ (OperandsPerPoint (Cmd n) = PointCells (Cmd n) ->
         exists m, Data path !! CmdIdx n = Some (PdCmd (Cmd n) m)))
  /\ (forall k a b, nodes !! k = Some a -> nodes !! S k = Some b ->
        PtIdx b <> O -> CmdIdx b = CmdIdx a)
  /\ cs = FirstPointIdxs nodes.
Proof.
  intros H. destruct (PathNodes_run svoff path _ _ H) as (fin & Hrun & _ & Hnc & Hcs).
  set (pxf := ParTransform path) in *.
  destruct (run_CmdIdxFrom pxf svoff (Data path) (IterInit NodesAcc0) fin Hrun)
    as [Hci Hfp]; [simpl; done |].
  rewrite Hnc in Hci, Hfp. rewrite Hcs in Hfp.
  destruct (CmdIdxFrom_lookup O nodes Hci) as [H1 H2].
  split; [| by split].
  intros k n Hk Hp. split; [by apply (H1 k) |]. intros Hops.
  destruct (nth_node pxf svoff k (Data path) (IterInit NodesAcc0) fin nodes n)
    as (lm & a & b & lr & u & Hd & Hr & Hu & _ & Hn & _);
    [apply IterInit_Early | exact Hrun | exact Hnc | exact Hk |].
  pose proof (run_CmdCell pxf svoff lm [] _ u CmdCell_init Hr) as (_ & Hi & Hc).
  simpl in Hi, Hc.
  destruct Hu as (_ & Hpts & Hneed & _).
  destruct (Hc Hpts) as [_ Hcell].
  assert (Hx : it_ptIdx u = O) by (subst n; exact Hp).
  destruct (Hcell Hx) as [m Hm]. exists m.
  assert (Hcn : Cmd n = it_cmd u) by (subst n; reflexivity).
  rewrite (H1 k n Hk Hp), Hcn, Hd.
  rewrite Hneed in Hm. rewrite Hcn in Hops. rewrite Hops, Nat.sub_diag, Nat.sub_0_r in Hm.
  pose proof (lookup_lt_Some _ _ _ Hm) as Hlt.
  rewrite lookup_app_l by (subst n; simpl; lia).
  subst n. simpl. rewrite Hi. exact Hm.
Qed.

Lemma PathNodes_cmd_index_witness :
  exists nodes cs,
    PathNodes Vec2Zero ClosedPath = Some (nodes, cs)
    /\ (forall k n, nodes !! k = Some n -> PtIdx n = O ->
          CmdIdx n = (Idx n - 1)%nat
          /\ (OperandsPerPoint (Cmd n) = PointCells (Cmd n) ->
              exists m, Data ClosedPath !! CmdIdx n = Some (PdCmd (Cmd n) m)))
    /\ (forall k a b, nodes !! k = Some a -> nodes !! S k = Some b ->
          PtIdx b <> O -> CmdIdx b = CmdIdx a)
    /\ cs = FirstPointIdxs nodes.
Proof.
  eexists _, _. split; [lazy; reflexivity |].
  eapply (PathNodes_cmd_index Vec2Zero ClosedPath). lazy. reflexivity.
Defined.

(** ** Rewriting points keeps the structure of the path *)

Lemma CtlEq_refl s : CtlEq s s.
Proof. unfold CtlEq. repeat split; reflexivity. Qed.

Lemma ShapeEq_EndCells c a b E :
  Forall2 ShapeEq (EndCells c a b) E -> exists a' b', E = EndCells c a' b'.
Proof.
  intros H. destruct c; simpl in H;
    repeat match goal with
    | H : Forall2 _ (_ :: _) _ |- _ =>
        apply Forall2_cons_inv_l in H as (? & ? & ? & ? & ->)
    | H : Forall2 _ [] _ |- _ => apply Forall2_nil_inv_l in H as ->
    | H : ShapeEq (PdVal _) ?d |- _ => destruct d; simpl in H; [done |]; clear H
    end; simpl; eauto; exists 0; eauto.
Qed.

Lemma ShapeEq_EndCells_any c a b a' b' :
  Forall2 ShapeEq (EndCells c a b) (EndCells c a' b').
Proof. destruct c; simpl; repeat constructor. Qed.

(** [PathNodeSetPoint] on a node of the data, after other points of the
    data were rewritten: it succeeds and rewrites the end-point cells of
    the node only. *)
Lemma SetPoint_shape path0 j n p npt :
  OwnNode path0 j n -> Forall2 ShapeEq (Data path0) (Data p) ->
  exists p',
    PathNodeSetPoint p n npt = Some p'
    /\ Forall2 ShapeEq (Data path0) (Data p')
    /\ take (Idx n) (Data p') = take (Idx n) (Data p)
    /\ drop (Idx n + PointCells (Cmd n)) (Data p')
       = drop (Idx n + PointCells (Cmd n)) (Data p)
    /\ ParXf p' = ParXf p /\ WinBBoxMin p' = WinBBoxMin p.
Proof.
  intros (Hfirst & _ & pre0 & a0 & b0 & post0 & Hd0 & Hlen0) Hsh.
  rewrite Hd0 in Hsh.
  apply Forall2_app_inv_l in Hsh as (pre & rest & Hpre & Hrest & Hd).
  apply Forall2_app_inv_l in Hrest as (E & post & HE & Hpost & ->).
  destruct (ShapeEq_EndCells _ _ _ _ HE) as (a & b & ->).
  assert (Hlen : length pre = Idx n)
    by (rewrite <- Hlen0; symmetry; apply (Forall2_length _ _ _ Hpre)).
  eexists. split.
  { apply (PathNodeSetPoint_cells p n npt pre a b post Hfirst Hd Hlen). }
  simpl. split.
  { rewrite Hd0. apply Forall2_app; [exact Hpre |].
    apply Forall2_app; [apply ShapeEq_EndCells_any | exact Hpost]. }
  rewrite Hd, <- Hlen. split; [by rewrite !take_app_length |]. split; [| done].
  rewrite !(app_assoc pre).
  rewrite !drop_app_length'; [reflexivity | |];
    rewrite length_app, EndCells_length; reflexivity.
Qed.

(** Data that differ in the operands only decompose into nodes that differ
    in the points only, with the same command starts. *)
Lemma redecompose svoff path0 p nodes cs :
  PathNodes svoff path0 = Some (nodes, cs) ->
  Forall2 ShapeEq (Data path0) (Data p) -> ParXf p = ParXf path0 ->
  exists nodes',
    PathNodes svoff p = Some (nodes', cs) /\ Skel <$> nodes' = Skel <$> nodes.
Proof.
  intros H Hsh Hxf.
  destruct (PathNodes_run svoff path0 _ _ H) as (fin & Hrun & Hpts & Hnc & Hcs).
  destruct (run_sim (ParTransform path0) svoff _ _ (IterInit NodesAcc0)
              (IterInit NodesAcc0) fin Hsh (CtlEq_refl _) Hrun)
    as (fin' & Hrun' & Hceq).
  destruct Hceq as (_ & _ & Hp' & _ & _ & _ & _ & _ & Hcs' & Hsk).
  exists (nc (it_acc fin')). split.
  - rewrite <- Hcs, Hcs'. apply run_PathNodes; [| congruence].
    unfold ParTransform. rewrite Hxf. exact Hrun'.
  - rewrite <- Hnc. symmetry. exact Hsk.
Qed.

(** If, moreover, the cells before the node [k] are the same, so are the
    nodes before it. *)
Lemma redecompose_prefix svoff path0 p nodes cs nodes' cs' k n :
  PathNodes svoff path0 = Some (nodes, cs) ->
  PathNodes svoff p = Some (nodes', cs') ->
  ParXf p = ParXf path0 -> nodes !! k = Some n ->
  take (Idx n) (Data p) = take (Idx n) (Data path0) ->
  take k nodes' = take k nodes.
Proof.
  intros H H' Hxf Hk Htk.
  destruct (PathNodes_run svoff path0 _ _ H) as (fin & Hrun & _ & Hnc & _).
  destruct (PathNodes_run svoff p _ _ H') as (fin' & Hrun' & _ & Hnc' & _).
  unfold ParTransform in Hrun'. rewrite Hxf in Hrun'.
  fold (ParTransform path0) in Hrun'. set (pxf := ParTransform path0) in *.
  destruct (nth_node pxf svoff k (Data path0) (IterInit NodesAcc0) fin nodes n)
    as (lm & a & b & lr & u & Hd & Hr & Hu & Ha & Hn & _);
    [apply IterInit_Early | exact Hrun | exact Hnc | exact Hk |].
  destruct (run_inv pxf svoff lm (IterInit NodesAcc0) u eq_refl Hr) as (Hsu & Hi & _).
  assert (Hidx : Idx n = length lm) by (subst n; simpl in *; lia).
  rewrite Hd, Hidx, take_app_length in Htk.
  rewrite <- (take_drop (length lm) (Data p)), Htk in Hrun'.
  rewrite (run_app_Some pxf svoff (IterInit NodesAcc0) lm _ u Hr) in Hrun'.
  destruct (run_inv pxf svoff _ u fin' Hsu Hrun') as (_ & _ & ext & Hext).
  rewrite <- Hnc', Hext, Ha. simpl.
  pose proof (lookup_lt_Some _ _ _ Hk) as Hlt.
  rewrite take_app_length'; [reflexivity |]. rewrite length_take. lia.
Qed.

(** The nodes of a decomposition from the node [k] on are nodes of the
    data that lie at or after the end-point cells of the node [k]. *)
Lemma PathNodes_OwnNode svoff path nodes cs k n :
  PathNodes svoff path = Some (nodes, cs) -> NoLeadingRelHV path ->
  nodes !! k = Some n ->
  Forall (OwnNode path (Idx n)) (drop k nodes).
Proof.
  intros H Hhv Hk.
  destruct (PathNodes_run svoff path _ _ H) as (fin & Hrun & _ & Hnc & _).
  set (pxf := ParTransform path) in *.
  apply Forall_lookup_2. intros i m Hm. rewrite lookup_drop in Hm.
  destruct (nth_node pxf svoff (k + i) (Data path) (IterInit NodesAcc0) fin nodes m)
    as (lm & a & b & lr & u & Hd & Hr & Hu & _ & Hn & _);
    [apply IterInit_Early | exact Hrun | exact Hnc | exact Hm |].
  destruct (run_inv pxf svoff lm (IterInit NodesAcc0) u eq_refl Hr) as (_ & Hi & _).
  assert (Hc : Cmd m = it_cmd u) by (subst m; reflexivity).
  assert (Hidx : Idx m = length lm) by (subst m; simpl in *; lia).
  split; [| split].
  - intros H1. rewrite H1 in Hidx.
    destruct lm as [| d [| d' lm]]; simpl in Hidx; try lia.
    unfold NoLeadingRelHV in Hhv. rewrite Hd in Hhv. simpl in Hhv, Hr.
    unfold IterStep in Hr. simpl in Hr.
    destruct d as [c x | v]; [| discriminate].
    destruct (IsClose c) eqn:Hcl; inversion Hr; subst u.
    + destruct Hu as (_ & Hp & _). simpl in Hp. done.
    + rewrite Hc. simpl. exact Hhv.
  - destruct i as [| i].
    + rewrite Nat.add_0_r in Hm. rewrite Hk in Hm. by inversion Hm.
    + pose proof (nodes_ordered pxf svoff (Data path) (IterInit NodesAcc0) fin
                    nodes k (k + S i) n m (IterInit_Early _) Hrun Hnc Hk Hm
                    ltac:(lia)).
      lia.
  - exists lm, a, b, lr. rewrite Hc. split; [exact Hd |]. symmetry. exact Hidx.
Qed.

(** The loop of [PathNodeSetOnePoint] over nodes of the data: it succeeds,
    whatever the delta, and leaves the commands and the cells before the
    nodes as they are. *)
Lemma SetOnePointLoop_shape path0 j svoff rest : forall p first dv,
  Forall (OwnNode path0 j) rest -> Forall2 ShapeEq (Data path0) (Data p) ->
  exists p',
    SetOnePointLoop p rest first dv svoff = Some p'
    /\ Forall2 ShapeEq (Data path0) (Data p')
    /\ take j (Data p') = take j (Data p)
    /\ ParXf p' = ParXf p.
Proof.
  induction rest as [| n rest IH]; intros p first dv Hown Hsh.
  - exists p. simpl. done.
  - apply Forall_cons in Hown as [Hn Hrest].
    rewrite SetOnePointLoop_cons.
    destruct (SetPoint_shape path0 j n p (Add (Cp n) (LocalDelta p dv)) Hn Hsh)
      as (p1 & -> & Hsh1 & Htk1 & _ & Hxf1 & _).
    assert (Hj : take j (Data p1) = take j (Data p)).
    { destruct Hn as (_ & Hle & _).
      rewrite <- (Nat.min_l j (Idx n)) by exact Hle.
      rewrite <- !take_take. by rewrite Htk1. }
    assert (Hgo : forall dv',
      exists p', SetOnePointLoop p1 rest false dv' svoff = Some p'
        /\ Forall2 ShapeEq (Data path0) (Data p')
        /\ take j (Data p') = take j (Data p) /\ ParXf p' = ParXf p).
    { intros dv'. destruct (IH p1 false dv' Hrest Hsh1) as (p' & ? & ? & ? & ?).
      exists p'. repeat split; try done; congruence. }
    destruct first; [apply Hgo |].
    destruct (StopsCompensation (Cmd n)); [| apply Hgo].
    exists p1. done.
Qed.

(** Setting a node of the decomposition of a path to any point never
    writes out of range: it succeeds, rewrites only the end-point cells of
    that node, and the path then decomposes into as many nodes with the
    same commands and indexes and the same command starts; the nodes
    before the one that was set are unchanged. *)
Theorem SetPoint_keeps_structure svoff path nodes cs k n p :
  PathNodes svoff path = Some (nodes, cs) -> NoLeadingRelHV path ->
  nodes !! k = Some n ->
  exists path' nodes',
    PathNodeSetPoint path n p = Some path'
    /\ length (Data path') = length (Data path)
    /\ (forall j, (j < Idx n)%nat \/ (Idx n + PointCells (Cmd n) <= j)%nat ->
          Data path' !! j = Data path !! j)
    /\ PathNodes svoff path' = Some (nodes', cs)
    /\ Skel <$> nodes' = Skel <$> nodes
    /\ take k nodes' = take k nodes.
Proof.
  intros H Hhv Hk.
  pose proof (PathNodes_OwnNode svoff path nodes cs k n H Hhv Hk) as Hown.
  rewrite (drop_S _ _ _ Hk) in Hown. apply Forall_cons in Hown as [Hn _].
  destruct (SetPoint_shape path (Idx n) n path p Hn (ShapeEq_refl _))
    as (path' & Hsp & Hsh & Htk & Hdr & Hxf & _).
  destruct (redecompose svoff path path' nodes cs H Hsh Hxf) as (nodes' & Hpn & Hsk).
  exists path', nodes'. split; [exact Hsp |].
  split; [symmetry; apply (Forall2_length _ _ _ Hsh) |]. split.
  { intros j [Hj | Hj].
    - rewrite <- (lookup_take_lt (Data path') (Idx n) j Hj).
      rewrite <- (lookup_take_lt (Data path) (Idx n) j Hj). by rewrite Htk.
    - replace j with (Idx n + PointCells (Cmd n) + (j - (Idx n + PointCells (Cmd n))))%nat
        by lia.
      rewrite <- !lookup_drop. by rewrite Hdr. }
  split; [exact Hpn |]. split; [exact Hsk |].
  apply (redecompose_prefix svoff path path' nodes cs nodes' cs k n H Hpn Hxf Hk Htk).
Qed.

Lemma SetPoint_keeps_structure_witness :
  exists nodes cs n,
    PathNodes Vec2Zero ClosedPath = Some (nodes, cs)
    /\ nodes !! 3%nat = Some n
    /\ exists path' nodes',
         PathNodeSetPoint ClosedPath n (V2 1 1) = Some path'
         /\ length (Data path') = length (Data ClosedPath)
         /\ (forall j, (j < Idx n)%nat \/ (Idx n + PointCells (Cmd n) <= j)%nat ->
               Data path' !! j = Data ClosedPath !! j)
         /\ PathNodes Vec2Zero path' = Some (nodes', cs)
         /\ Skel <$> nodes' = Skel <$> nodes
         /\ take 3 nodes' = take 3 nodes.
Proof.
  eexists _, _, _. split; [lazy; reflexivity |]. split; [reflexivity |].
  eapply (SetPoint_keeps_structure Vec2Zero ClosedPath);
    [lazy; reflexivity | simpl; split; discriminate | reflexivity].
Defined.

(** Moving one point never writes out of range: for the nodes of the
    decomposition of a path and any index and delta, [PathNodeSetOnePoint]
    succeeds and keeps the length of the data and the transform; the path
    then decomposes into as many nodes with the same commands and indexes
    and the same command starts, and the nodes before the moved one are
    unchanged.  With an index past the last node nothing is written. *)
Theorem SetOnePoint_keeps_structure svoff path nodes cs pidx dv :
  PathNodes svoff path = Some (nodes, cs) -> NoLeadingRelHV path ->
  exists path' nodes',
    PathNodeSetOnePoint path nodes pidx dv svoff = Some path'
    /\ length (Data path') = length (Data path)
    /\ ParXf path' = ParXf path
    /\ PathNodes svoff path' = Some (nodes', cs)
    /\ Skel <$> nodes' = Skel <$> nodes
    /\ take pidx nodes' = take pidx nodes
    /\ ((length nodes <= pidx)%nat -> path' = path).
Proof.
  intros H Hhv. unfold PathNodeSetOnePoint.
  destruct (nodes !! pidx) as [n |] eqn:Hk.
  - pose proof (PathNodes_OwnNode svoff path nodes cs pidx n H Hhv Hk) as Hown.
    destruct (SetOnePointLoop_shape path (Idx n) svoff (drop pidx nodes) path true dv
                Hown (ShapeEq_refl _)) as (path' & Hl & Hsh & Htk & Hxf).
    destruct (redecompose svoff path path' nodes cs H Hsh Hxf) as (nodes' & Hpn & Hsk).
    exists path', nodes'. split; [exact Hl |].
    split; [symmetry; apply (Forall2_length _ _ _ Hsh) |].
    split; [exact Hxf |]. split; [exact Hpn |]. split; [exact Hsk |]. split.
    + apply (redecompose_prefix svoff path path' nodes cs nodes' cs pidx n
               H Hpn Hxf Hk Htk).
    + intros Hle. apply lookup_lt_Some in Hk. lia.
  - apply lookup_ge_None in Hk. rewrite drop_ge by exact Hk.
    exists path, nodes. simpl. repeat split; done.
Qed.

Lemma SetOnePoint_keeps_structure_witness :
  exists nodes cs,
    PathNodes Vec2Zero ClosedPath = Some (nodes, cs)
    /\ exists path' nodes',
         PathNodeSetOnePoint ClosedPath nodes 1 (V2 1 0) Vec2Zero = Some path'
         /\ length (Data path') = length (Data ClosedPath)
         /\ ParXf path' = ParXf ClosedPath
         /\ PathNodes Vec2Zero path' = Some (nodes', cs)
         /\ Skel <$> nodes' = Skel <$> nodes
         /\ take 1 nodes' = take 1 nodes
         /\ ((length nodes <= 1)%nat -> path' = ClosedPath).
Proof.
  eexists _, _. split; [lazy; reflexivity |].
  eapply (SetOnePoint_keeps_structure Vec2Zero ClosedPath);
    [lazy; reflexivity | simpl; split; discriminate].
Defined.

(** ** A zero delta *)

Lemma Stored_own n a b base :
  Cp n = EndPoint (Cmd n) base a b ->
  (1 <= OperandsPerPoint (Cmd n))%nat ->
  (Idx n = 1%nat -> Cmd n <> Pch /\ Cmd n <> Pcv) ->
  (PathCmdIsRel (Cmd n) = true -> base = PCp n) ->
  (PathCmdIsRel (Cmd n) = true -> Idx n = 1%nat -> PCp n = Vec2Zero) ->
  EndCells (Cmd n) (StoredA n (Cp n)) (StoredB n (Cp n)) = EndCells (Cmd n) a b.
Proof.
  intros Hcp Hops Hfirst Hbase Hzero. unfold StoredA, StoredB. rewrite Hcp.
  destruct (bool_decide (Idx n = 1%nat)) eqn:Hb.
  - apply bool_decide_eq_true_1 in Hb. destruct (Hfirst Hb) as [Hh Hv].
    rewrite orb_true_l.
    destruct (Cmd n) eqn:Hc; simpl in *; try lia; try done;
      rewrite (Hbase eq_refl), (Hzero eq_refl Hb); simpl;
      do 2 f_equal; try (f_equal; f_equal); ring.
  - rewrite orb_false_l.
    destruct (Cmd n) eqn:Hc; simpl in *; try lia; try done;
      rewrite ?(Hbase eq_refl); simpl;
      do 2 f_equal; try (f_equal; f_equal); ring.
Qed.

Lemma setPathData_same path : setPathData path (Data path) = path.
Proof. by destruct path. Qed.

(** Setting a node to the point it has rewrites its cells with the
    operands they hold. *)
Lemma SetPoint_same svoff path nodes cs k n :
  PathNodes svoff path = Some (nodes, cs) -> NoLeadingRelHV path ->
  Forall NotClose (Data path) -> nodes !! k = Some n ->
  PathNodeSetPoint path n (Cp n) = Some path.
Proof.
  intros H Hhv Hncl Hk.
  pose proof (PathNodes_OwnNode svoff path nodes cs k n H Hhv Hk) as Hown.
  rewrite (drop_S _ _ _ Hk) in Hown. apply Forall_cons in Hown as [(Hfirst & _) _].
  destruct (PathNodes_run svoff path _ _ H) as (fin & Hrun & _ & Hnc & _).
  set (pxf := ParTransform path) in *.
  destruct (nth_node pxf svoff k (Data path) (IterInit NodesAcc0) fin nodes n)
    as (lm & a & b & lr & u & Hd & Hr & Hu & _ & Hn & _);
    [apply IterInit_Early | exact Hrun | exact Hnc | exact Hk |].
  destruct (run_inv pxf svoff lm (IterInit NodesAcc0) u eq_refl Hr) as (_ & Hi & _).
  assert (Hc : Cmd n = it_cmd u) by (subst n; reflexivity).
  assert (Hidx : Idx n = length lm) by (subst n; simpl in *; lia).
  rewrite Hd in Hncl. apply Forall_app in Hncl as [Hncl _].
  pose proof (cp_pcp_run pxf svoff lm (IterInit NodesAcc0) u eq_refl Hr Hncl eq_refl)
    as Hcp.
  rewrite <- Hc in Hd.
  rewrite (PathNodeSetPoint_cells path n (Cp n) lm a b lr Hfirst Hd (eq_sym Hidx)).
  rewrite (Stored_own n a b (it_cp u)).
  - rewrite <- Hd. by rewrite setPathData_same.
  - subst n. reflexivity.
  - rewrite Hc. by destruct Hu as (_ & _ & _ & Hops).
  - exact Hfirst.
  - intros _. rewrite Hcp. subst n. reflexivity.
  - intros _ H1. rewrite H1 in Hidx.
    destruct lm as [| d [| d' lm]]; simpl in Hidx; try lia.
    simpl in Hr. unfold IterStep in Hr. simpl in Hr.
    destruct d as [c m | v]; [| discriminate].
    subst n. simpl.
    destruct (IsClose c); inversion Hr; subst u; reflexivity.
Qed.

Lemma LocalDelta_zero path : LocalDelta path (V2 0 0) = V2 0 0.
Proof. unfold LocalDelta, MulVec2AsVec. simpl. apply Vec2_eq; simpl; ring. Qed.

Lemma SetOnePointLoop_zero path svoff rest : forall first,
  Forall (fun n => PathNodeSetPoint path n (Cp n) = Some path) rest ->
  SetOnePointLoop path rest first (V2 0 0) svoff = Some path.
Proof.
  induction rest as [| n rest IH]; intros first Hall; [reflexivity |].
  apply Forall_cons in Hall as [Hn Hrest].
  rewrite SetOnePointLoop_cons, LocalDelta_zero.
  replace (Add (Cp n) (V2 0 0)) with (Cp n)
    by (apply Vec2_eq; simpl; ring).
  rewrite Hn.
  replace (MulScalar (V2 0 0) (-1)) with (V2 0 0)
    by (apply Vec2_eq; simpl; ring).
  destruct first; [by apply IH |].
  destruct (StopsCompensation (Cmd n)); [reflexivity | by apply IH].
Qed.

(** Moving a point by the zero delta changes nothing: for a path without
    close-path commands and the nodes of its decomposition,
    [PathNodeSetOnePoint] with the delta [(0, 0)] returns the path as it
    was, at every index. *)
Theorem SetOnePoint_zero_delta svoff path nodes cs pidx :
  PathNodes svoff path = Some (nodes, cs) -> NoLeadingRelHV path ->
  Forall NotClose (Data path) ->
  PathNodeSetOnePoint path nodes pidx (V2 0 0) svoff = Some path.
Proof.
  intros H Hhv Hncl. unfold PathNodeSetOnePoint.
  apply SetOnePointLoop_zero. apply Forall_lookup_2. intros i n Hn.
  rewrite lookup_drop in Hn.
  apply (SetPoint_same svoff path nodes cs (pidx + i) n H Hhv Hncl Hn).
Qed.

Lemma SetOnePoint_zero_delta_witness :
  exists nodes cs,
    PathNodes Vec2Zero LinePath = Some (nodes, cs)
    /\ PathNodeSetOnePoint LinePath nodes 1 (V2 0 0) Vec2Zero = Some LinePath.
Proof.
  eexists _, _. split; [lazy; reflexivity |].
  eapply (SetOnePoint_zero_delta Vec2Zero LinePath);
    [lazy; reflexivity | simpl; split; discriminate
    | unfold LinePath; simpl; repeat constructor].
Defined.

(** A path whose third point, a relative line, is set again. *)
Lemma SetPoint_roundtrip_witness :
  exists nodes cs n,
    PathNodes Vec2Zero LinePath = Some (nodes, cs)
    /\ nodes !! 2%nat = Some n
    /\ exists path' nodes' cs' n',
         PathNodeSetPoint LinePath n (V2 (ofInt 7) (ofInt 9)) = Some path'
         /\ PathNodes Vec2Zero path' = Some (nodes', cs')
         /\ length nodes' = length nodes /\ nodes' !! 2%nat = Some n'
         /\ Cmd n' = Cmd n
         /\ (StoresX (Cmd n) = true -> X (Cp n') = X (V2 (ofInt 7) (ofInt 9)))
         /\ (StoresY (Cmd n) = true -> Y (Cp n') = Y (V2 (ofInt 7) (ofInt 9))).
Proof.
  eexists _, _, _. split; [lazy; reflexivity |]. split; [reflexivity |].
  eapply (SetPoint_roundtrip Vec2Zero LinePath);
    [lazy; reflexivity | reflexivity
    | intros _; simpl; repeat constructor
    | simpl; intros Hx; discriminate Hx].
Defined.

(** ** Snapping to an increment and to a point *)

Lemma Qfloor_eq (z : Z) (y : Q) :
  (inject_Z z <= y)%Q -> (y < inject_Z (z + 1))%Q -> Qfloor y = z.
Proof.
  intros Hle Hlt.
  pose proof (Qfloor_le y) as H0. pose proof (Qlt_floor y) as H1.
  assert (Ha : (Qfloor y < z + 1)%Z).
  { rewrite Zlt_Qlt. eapply Qle_lt_trans; eassumption. }
  assert (Hb : (z < Qfloor y + 1)%Z).
  { rewrite Zlt_Qlt. eapply Qle_lt_trans; eassumption. }
  lia.
Qed.

(** [Round] gives an integer, and leaves an integer as it is. *)
Lemma Round_int (x : float32) : exists k : Z, Round x = ofInt k.
Proof.
  unfold Round. case_decide; [eauto |].
  eexists. unfold ofInt. rewrite <- Z2Qc_inj_opp. reflexivity.
Qed.

Lemma Round_ofInt (k : Z) : Round (ofInt k) = ofInt k.
Proof.
  unfold Round. case_decide as Hk.
  - f_equal. apply Qfloor_eq.
    + autorewrite with qc2q. rewrite <- (Qplus_0_r (inject_Z k)) at 1.
      apply Qplus_le_r. discriminate.
    + autorewrite with qc2q. rewrite inject_Z_plus. apply Qplus_lt_r. reflexivity.
  - assert (Hf : Qfloor (- ofInt k + frac 1 2) = (- k)%Z).
    { apply Qfloor_eq.
      - autorewrite with qc2q. rewrite inject_Z_opp.
        rewrite <- (Qplus_0_r (- inject_Z k)) at 1. apply Qplus_le_r. discriminate.
      - autorewrite with qc2q. rewrite inject_Z_plus, inject_Z_opp.
        apply Qplus_lt_r. reflexivity. }
    rewrite Hf. unfold ofInt. rewrite Z2Qc_inj_opp. ring.
Qed.

(** With a tolerance of at least one (the declared minimum of the
    preference), [SnapToIncr] snaps exactly when the increment is
    positive.  It then returns a whole number of increments from the
    offset, at most half an increment away from the value, and snapping
    the result again gives the same result; with a zero or negative
    increment the value is returned as it was. *)
Theorem SnapToIncr_snaps Prefs (val off incr : float32) :
  (1 <= SnapTol Prefs)%Z ->
  let r := SnapToIncr Prefs val off incr in
  (snd r = true <-> 0 < incr)
  /\ (0 < incr ->
      (exists k : Z, fst r = ofInt k * incr + off)
      /\ Abs (val - fst r) ≤ incr * frac 1 2
      /\ SnapToIncr Prefs (fst r) off incr = r)
  /\ (~ 0 < incr -> r = (val, false)).
Proof.
  intros Htol r. apply ofInt_le in Htol.
  destruct (decide (0 < incr)) as [Hpos | Hneg].
  - assert (Hne : incr <> 0) by (intros ->; by apply Qclt_not_eq in Hpos).
    set (x := (val - off) / incr).
    assert (Hval : val = x * incr + off) by (subst x; field; exact Hne).
    pose proof (Round_near x) as Hnear.
    destruct (Round_int x) as [k Hk].
    assert (Hd : Abs (val - (Round x * incr + off)) ≤ incr * frac 1 2).
    { rewrite Hval. clear Hval. revert Hnear. generalize (Round x). intros q.
      unfold Abs. repeat case_decide; intros; qc_to_q; nra. }
    assert (Hr : r = (Round x * incr + off, true)).
    { subst r. unfold SnapToIncr. fold x. rewrite decide_True; [reflexivity |].
      revert Hd Htol. generalize (Abs (val - (Round x * incr + off))).
      generalize (ofInt (SnapTol Prefs)). intros t a Ha Ht. qc_to_q. nra. }
    rewrite Hr. simpl. split; [by split |]. split; [| intros; done].
    intros _. split; [exists k; by rewrite Hk |]. split; [exact Hd |].
    unfold SnapToIncr.
    replace ((Round x * incr + off - off) / incr) with (Round x)
      by (field; exact Hne).
    rewrite Hk, Round_ofInt. rewrite decide_True; [reflexivity |].
    replace (ofInt k * incr + off - (ofInt k * incr + off)) with (0 : Qc) by ring.
    unfold Abs. rewrite decide_True by done.
    revert Htol. generalize (ofInt (SnapTol Prefs)). intros t Ht. qc_to_q. nra.
  - assert (Hr : r = (val, false)).
    { subst r. unfold SnapToIncr. rewrite decide_False; [reflexivity |].
      intros Hlt. pose proof (Abs_nonneg (val - (Round ((val - off) / incr) * incr + off))) as Ha.
      revert Hlt Ha Htol.
      generalize (Abs (val - (Round ((val - off) / incr) * incr + off))).
      generalize (ofInt (SnapTol Prefs)). intros t a Hlt Ha Ht.
      apply Qcnot_lt_le in Hneg. qc_to_q. nra. }
    rewrite Hr. simpl. split; [split; [discriminate | intros; done] |].
    split; [intros; done | intros; reflexivity].
Qed.

Lemma SnapToIncr_snaps_witness :
  (1 <= SnapTol Defaults)%Z
  /\ let r := SnapToIncr Defaults (ofInt 17) (ofInt 2) (ofInt 10) in
     (snd r = true <-> 0 < ofInt 10)
     /\ (0 < ofInt 10 ->
         (exists k : Z, fst r = ofInt k * ofInt 10 + ofInt 2)
         /\ Abs (ofInt 17 - fst r) ≤ ofInt 10 * frac 1 2
         /\ SnapToIncr Defaults (fst r) (ofInt 2) (ofInt 10) = r)
     /\ (~ 0 < ofInt 10 -> r = (ofInt 17, false)).
Proof.
  split; [simpl; lia |].
  apply (SnapToIncr_snaps Defaults (ofInt 17) (ofInt 2) (ofInt 10)).
  simpl. lia.
Defined.

(** [SnapToPt] moves the value at most to the snap point and by less than
    the tolerance; snapping its result again gives the same result; and a
    tolerance that is not positive never snaps. *)
Theorem SnapToPt_idempotent Prefs (val snap tolRef : float32) :
  let r := SnapToPt Prefs val snap tolRef in
  SnapToPt Prefs (fst r) snap tolRef = r
  /\ Abs (fst r - val) ≤ Abs (val - snap)
  /\ (snd r = true -> Abs (fst r - val) < ofInt (SnapTol Prefs) * tolRef)
  /\ (ofInt (SnapTol Prefs) * tolRef ≤ 0 -> r = (val, false)).
Proof.
  intros r. subst r. unfold SnapToPt.
  pose proof (Abs_nonneg (val - snap)) as Hnn.
  destruct (decide (Abs (val - snap) < ofInt (SnapTol Prefs) * tolRef)) as [Hlt | Hge];
    simpl.
  - assert (H0 : Abs (snap - snap) = 0).
    { replace (snap - snap) with (0 : Qc) by ring. unfold Abs. by rewrite decide_True. }
    split.
    { rewrite H0, decide_True; [reflexivity |].
      revert Hlt Hnn. generalize (Abs (val - snap)), (ofInt (SnapTol Prefs) * tolRef).
      intros a t ? ?. qc_lra. }
    rewrite (Abs_sym snap val). split; [apply Qcle_refl |]. split; [done |].
    intros Hle. exfalso. revert Hlt Hnn Hle.
    generalize (Abs (val - snap)), (ofInt (SnapTol Prefs) * tolRef).
    intros a t ? ? ?. qc_lra.
  - rewrite decide_False by exact Hge. split; [reflexivity |].
    replace (val - val) with (0 : Qc) by ring.
    assert (H0 : Abs 0 = 0) by (unfold Abs; by rewrite decide_True).
    rewrite H0. split; [exact Hnn |]. split; [discriminate | reflexivity].
Qed.

(** ** The effective box of [SnapCurBBox] *)

Lemma SnapCurBBox_shape Prefs sv move :
  SnapCurBBox Prefs sv move =
  setES sv (setEffBBox (ES sv) (DragSelEffBBox (ES (SnapCurBBox Prefs sv move)))).
Proof.
  unfold SnapCurBBox. destruct (GridDots sv) as [grinc groff].
  destruct (SnapGuide Prefs).
  - generalize (ClosestAlign (setEffBBox (ES sv) (DragSelCurBBox (ES sv)))).
    intros c. destruct (SnapToPt _ _ _ _) as [sval [|]]; destruct move;
      destruct (SnapGrid Prefs); reflexivity.
  - destruct (SnapGrid Prefs); reflexivity.
Qed.

Lemma SnapCurBBox_ignores_eff Prefs sv move bb :
  SnapCurBBox Prefs (setES sv (setEffBBox (ES sv) bb)) move
  = SnapCurBBox Prefs sv move.
Proof.
  unfold SnapCurBBox.
  change (GridDots (setES sv (setEffBBox (ES sv) bb))) with (GridDots sv).
  destruct (GridDots sv) as [grinc groff].
  change (setEffBBox (ES (setES sv (setEffBBox (ES sv) bb)))
            (DragSelCurBBox (ES (setES sv (setEffBBox (ES sv) bb)))))
    with (setEffBBox (ES sv) (DragSelCurBBox (ES sv))).
  destruct (SnapGuide Prefs).
  - generalize (ClosestAlign (setEffBBox (ES sv) (DragSelCurBBox (ES sv)))).
    intros c. destruct (SnapToPt _ _ _ _) as [sval [|]]; destruct move;
      destruct (SnapGrid Prefs); reflexivity.
  - destruct (SnapGrid Prefs); reflexivity.
Qed.

(** [SnapCurBBox] computes the effective box from the current box alone:
    the effective box it finds in the state is ignored, nothing but the
    effective box is written, a second call changes nothing, and a call
    that is not a move leaves the effective box at the current box. *)
Theorem SnapCurBBox_recomputes Prefs sv move bb :
  SnapCurBBox Prefs (setES sv (setEffBBox (ES sv) bb)) move
    = SnapCurBBox Prefs sv move
  /\ SnapCurBBox Prefs sv move
     = setES sv (setEffBBox (ES sv)
                   (DragSelEffBBox (ES (SnapCurBBox Prefs sv move))))
  /\ SnapCurBBox Prefs (SnapCurBBox Prefs sv move) move
     = SnapCurBBox Prefs sv move
  /\ DragSelEffBBox (ES (SnapCurBBox Prefs sv false)) = DragSelCurBBox (ES sv).
Proof.
  split; [apply SnapCurBBox_ignores_eff |].
  split; [apply SnapCurBBox_shape |]. split.
  - rewrite (SnapCurBBox_shape Prefs sv move) at 1.
    apply SnapCurBBox_ignores_eff.
  - unfold SnapCurBBox. destruct (GridDots sv) as [grinc groff].
    destruct (SnapGuide Prefs).
    + generalize (ClosestAlign (setEffBBox (ES sv) (DragSelCurBBox (ES sv)))).
      intros c. destruct (SnapToPt _ _ _ _) as [sval [|]];
        destruct (SnapGrid Prefs); reflexivity.
    + destruct (SnapGrid Prefs); reflexivity.
Qed.

Lemma ClosestAlign_empty es :
  (forall ap, AlignPts es ap = []) -> ClosestAlign es = ClosestInit.
Proof.
  intros H. unfold ClosestAlign, AllBBoxPoints. cbn [foldl].
  unfold ClosestAnchor. rewrite !H. reflexivity.
Qed.

(** With no alignment candidate at any anchor the effective box is the
    current box, whatever the preferences. *)
Theorem SnapCurBBox_no_candidates Prefs sv move :
  (forall ap, AlignPts (ES sv) ap = []) ->
  DragSelEffBBox (ES (SnapCurBBox Prefs sv move)) = DragSelCurBBox (ES sv).
Proof.
  intros H. unfold SnapCurBBox. destruct (GridDots sv) as [grinc groff].
  destruct (SnapGuide Prefs).
  - rewrite (ClosestAlign_empty (setEffBBox (ES sv) (DragSelCurBBox (ES sv))))
      by exact H.
    change (clPt ClosestInit) with BBoxPointsN.
    change (bbval ClosestInit) with (0 : Qc).
    change (clVal ClosestInit) with (0 : Qc).
    destruct (SnapToPt _ _ _ _) as [sval [|]]; destruct move;
      destruct (SnapGrid Prefs); reflexivity.
  - destruct (SnapGrid Prefs); reflexivity.
Qed.

Lemma SnapCurBBox_no_candidates_witness :
  DragSelEffBBox (ES (SnapCurBBox Defaults MovingView true))
  = DragSelCurBBox (ES MovingView).
Proof.
  apply (SnapCurBBox_no_candidates Defaults MovingView true).
  intros ap. reflexivity.
Defined.

(** ** Moving a selection *)

Lemma NewVec2FmPoint_add v p q :
  Add (Add v (NewVec2FmPoint p)) (NewVec2FmPoint q)
  = Add v (NewVec2FmPoint (PointAdd p q)).
Proof.
  unfold Add, NewVec2FmPoint, PointAdd, ofInt. simpl.
  rewrite !Z2Qc_inj_add. apply Vec2_eq; simpl; ring.
Qed.

(** What one [DragMove] leaves of the state. *)
Lemma DragMove_frame Prefs co gather sv delta :
  let sv' := fst (DragMove Prefs co gather sv delta) in
  DragSelCurBBox (ES sv')
    = mkBox2 (Add (Min_ (DragSelCurBBox (ES sv))) (NewVec2FmPoint delta))
             (Add (Max_ (DragSelCurBBox (ES sv))) (NewVec2FmPoint delta))
  /\ DragSelStartBBox (ES sv') = DragSelStartBBox (ES sv)
  /\ Selected (ES sv') = Selected (ES sv)
  /\ SvWinBBoxMin sv' = SvWinBBoxMin sv.
Proof.
  unfold DragMove. cbv zeta. cbn [fst].
  set (sv0 := setES sv (setCurBBox (ES sv) _)).
  set (sv1 := if InAction (ES sv0) then sv0 else _).
  assert (H1 : DragSelCurBBox (ES sv1) = DragSelCurBBox (ES sv0)
               /\ DragSelStartBBox (ES sv1) = DragSelStartBBox (ES sv)
               /\ Selected (ES sv1) = Selected (ES sv)
               /\ SvWinBBoxMin sv1 = SvWinBBoxMin sv).
  { subst sv1. destruct (InAction (ES sv0)); [by subst sv0 |].
    destruct (ManipStart_frame sv0 "Move" (SelectedNamesString co (ES sv0)))
      as (Ha & Hb & Hc & _ & He).
    cbv zeta in Ha, Hb, Hc.
    cbn [ES setES setAlignPts DragSelCurBBox DragSelStartBBox Selected SvWinBBoxMin].
    rewrite Ha, Hb, Hc, He. by subst sv0. }
  destruct H1 as (Hc & Hs & Hl & Hw).
  destruct (SnapCurBBox_frame Prefs sv1 true) as (_ & Hl' & Hs' & Hw').
  cbv zeta in Hl', Hs'.
  rewrite SnapCurBBox_cur, Hc, Hs', Hs, Hl', Hl, Hw', Hw. by subst sv0.
Qed.

Lemma DragMove_calls Prefs co gather sv delta :
  SnapGuide Prefs = false ->
  snd (DragMove Prefs co gather sv delta)
  = map (fun '(itm, ss) =>
           mkXFormCall itm (InitGeom ss)
             (Sub (Add (Min_ (DragSelCurBBox (ES sv))) (NewVec2FmPoint delta))
                  (Min_ (DragSelStartBBox (ES sv))))
             (V2 1 1) 0
             (Sub (Min_ (DragSelStartBBox (ES sv)))
                  (NewVec2FmPoint (SvWinBBoxMin sv)))
             false)
        (Selected (ES sv)).
Proof.
  intros Hg.
  destruct (DragMove_frame Prefs co gather sv delta) as (Hc & Hs & Hl & _).
  cbv zeta in Hc, Hs, Hl. revert Hc Hs Hl.
  unfold DragMove. cbv zeta. cbn [fst snd].
  set (sv0 := setES sv (setCurBBox (ES sv) _)).
  set (sv1 := if InAction (ES sv0) then sv0 else _).
  intros Hc Hs Hl. rewrite Hs, Hl.
  rewrite (SnapCurBBox_off Prefs sv1 true Hg).
  rewrite SnapCurBBox_cur in Hc. rewrite Hc. reflexivity.
Qed.

(** Moves add up.  The current box of a drag is the box before it moved
    by the delta, whatever the snapping does, so that two drags leave the
    current box of one drag by the sum of the deltas, and its size is
    kept; and with guide snapping off the second of two drags applies to
    every selected element, from its initial geometry, the translation
    that one drag by the sum applies. *)
Theorem DragMove_adds Prefs co gather sv d1 d2 :
  let sv1 := fst (DragMove Prefs co gather sv d1) in
  DragSelCurBBox (ES (fst (DragMove Prefs co gather sv1 d2)))
    = DragSelCurBBox (ES (fst (DragMove Prefs co gather sv (PointAdd d1 d2))))
  /\ Size (DragSelCurBBox (ES sv1)) = Size (DragSelCurBBox (ES sv))
  /\ (SnapGuide Prefs = false ->
      snd (DragMove Prefs co gather sv1 d2)
      = snd (DragMove Prefs co gather sv (PointAdd d1 d2))).
Proof.
  intros sv1.
  destruct (DragMove_frame Prefs co gather sv d1) as (Hc1 & Hs1 & Hl1 & Hw1).
  destruct (DragMove_frame Prefs co gather sv1 d2) as (Hc2 & _).
  destruct (DragMove_frame Prefs co gather sv (PointAdd d1 d2)) as (Hc & _).
  cbv zeta in *. fold sv1 in Hc1, Hs1, Hl1, Hw1.
  split; [| split].
  - rewrite Hc2, Hc, Hc1. simpl. by rewrite !NewVec2FmPoint_add.
  - rewrite Hc1. unfold Size, Sub, Add. simpl. apply Vec2_eq; simpl; ring.
  - intros Hg. rewrite !DragMove_calls by exact Hg.
    rewrite Hc1, Hs1, Hl1, Hw1. simpl. by rewrite NewVec2FmPoint_add.
Qed.

Lemma DragMove_adds_witness :
  snd (DragMove NoSnapPrefs TrivialCollab (fun _ _ => [])
         (fst (DragMove NoSnapPrefs TrivialCollab (fun _ _ => []) EndToEndView
                 (image.mkPoint 3 4)))
         (image.mkPoint 5 6))
  = snd (DragMove NoSnapPrefs TrivialCollab (fun _ _ => []) EndToEndView
           (PointAdd (image.mkPoint 3 4) (image.mkPoint 5 6))).
Proof.
  apply (DragMove_adds NoSnapPrefs TrivialCollab (fun _ _ => []) EndToEndView
           (image.mkPoint 3 4) (image.mkPoint 5 6)).
  reflexivity.
Defined.

(** ** The clamp of the reshape drag *)

Lemma Min_le_l (a b : float32) : Min a b ≤ a.
Proof. unfold Min. case_decide; qc_lra. Qed.

Lemma Min_id (a b : float32) : a ≤ b -> Min a b = a.
Proof. intros H. unfold Min. case_decide; [reflexivity | qc_lra]. Qed.

Lemma ReshapeCurBBox_zero sp bb :
  ReshapeCurBBox sp (NewVec2FmPoint (image.mkPoint 0 0)) bb = bb.
Proof.
  destruct bb as [[x0 y0] [x1 y1]].
  destruct sp; unfold ReshapeCurBBox, SetAdd, Add, NewVec2FmPoint, ofInt; simpl;
    rewrite ?Z2Qc_inj_0; repeat f_equal; ring.
Qed.

(** The clamp of [SpriteReshapeDrag] only ever lowers the minimum corner:
    the maximum corner of the current box is the one the handle gives, the
    minimum corner is at most the one the handle gives, a box that is at
    least one unit wide and high is left as the handle gives it, and a
    zero delta leaves such a box unchanged. *)
Theorem Reshape_clamp_lowers_min Prefs co sv sp delta :
  let raw := ReshapeCurBBox sp (NewVec2FmPoint delta) (DragSelCurBBox (ES sv)) in
  let cur' := DragSelCurBBox (ES (fst (SpriteReshapeDrag Prefs co sv sp delta))) in
  Max_ cur' = Max_ raw
  /\ X (Min_ cur') ≤ X (Min_ raw) /\ Y (Min_ cur') ≤ Y (Min_ raw)
  /\ (BBoxClamped raw -> cur' = raw)
  /\ (BBoxClamped (DragSelCurBBox (ES sv)) -> delta = image.mkPoint 0 0 ->
      cur' = DragSelCurBBox (ES sv)).
Proof.
  intros raw cur'. subst cur'. rewrite SpriteReshapeDrag_cur. cbv zeta. fold raw.
  assert (Hcl : BBoxClamped raw ->
                mkBox2 (SetMin (Min_ raw) (SubScalar (Max_ raw) 1)) (Max_ raw) = raw).
  { intros [Hx Hy]. destruct raw as [[x0 y0] [x1 y1]]. simpl in *.
    unfold SetMin, SubScalar. simpl. by rewrite !Min_id. }
  split; [reflexivity |]. split; [apply Min_le_l |]. split; [apply Min_le_l |].
  split; [exact Hcl |].
  intros Hc ->. subst raw. rewrite ReshapeCurBBox_zero in *. by apply Hcl.
Qed.

Lemma Reshape_clamp_lowers_min_witness :
  DragSelCurBBox (ES (fst (SpriteReshapeDrag NoSnapPrefs TrivialCollab EndToEndView
                             SizeUpL (image.mkPoint 0 0))))
  = DragSelCurBBox (ES EndToEndView).
Proof.
  apply (Reshape_clamp_lowers_min NoSnapPrefs TrivialCollab EndToEndView SizeUpL
           (image.mkPoint 0 0)); [| reflexivity].
  split; simpl; qc_to_q; vm_compute; discriminate.
Defined.

(** ** The pivot of the rotate drag *)

Lemma RotateCase_pivot sp dv start cur :
  X (Min_ start) ≤ X (Max_ start) -> Y (Min_ start) ≤ Y (Max_ start) ->
  InBox start (snd (RotateCase sp dv start cur)).
Proof.
  intros Hx Hy. destruct start as [[x0 y0] [x1 y1]]. simpl in *.
  destruct sp; unfold InBox, RotateCase, MulScalar, Add; simpl;
    repeat split; qc_lra.
Qed.

(** The pivot of the rotation is a corner or the centre of the start box:
    for a start box whose minimum corner is not beyond its maximum corner,
    every call [SpriteRotateDrag] makes on a selected element has its
    pivot, taken back from view to window coordinates, within the start
    box; and the drag leaves the start box and the effective box as they
    were. *)
Theorem Rotate_pivot_in_start_box Prefs co sv (sp : sprites_string.Sprites) delta :
  X (Min_ (DragSelStartBBox (ES sv))) ≤ X (Max_ (DragSelStartBBox (ES sv))) ->
  Y (Min_ (DragSelStartBBox (ES sv))) ≤ Y (Max_ (DragSelStartBBox (ES sv))) ->
  let r := SpriteRotateDrag Prefs co sv sp delta in
  Forall (fun call =>
            InBox (DragSelStartBBox (ES sv))
              (Add (xfPivot call) (NewVec2FmPoint (SvWinBBoxMin sv))))
         (snd r)
  /\ DragSelStartBBox (ES (fst r)) = DragSelStartBBox (ES sv)
  /\ DragSelEffBBox (ES (fst r)) = DragSelEffBBox (ES sv).
Proof.
  intros Hx Hy r. split.
  - pose proof (SpriteRotateDrag_calls Prefs co sv sp delta) as Hc.
    cbv zeta in Hc. fold r in Hc.
    eapply Forall2_Forall_l; [exact Hc |].
    apply Forall_forall. intros sel _ call (_ & _ & _ & _ & _ & Hp).
    rewrite Hp.
    pose proof (RotateCase_pivot sp (NewVec2FmPoint delta) _
                  (DragSelCurBBox (ES sv)) Hx Hy) as Hin.
    revert Hin. generalize (snd (RotateCase sp (NewVec2FmPoint delta)
                                   (DragSelStartBBox (ES sv)) (DragSelCurBBox (ES sv)))).
    intros p Hin.
    replace (Add (Sub p (NewVec2FmPoint (SvWinBBoxMin sv)))
               (NewVec2FmPoint (SvWinBBoxMin sv))) with p; [exact Hin |].
    apply Vec2_eq; simpl; ring.
  - subst r. unfold SpriteRotateDrag.
    destruct (InAction (ES sv)) eqn:Hin.
    + destruct (RotateCase _ _ _ _) as [[cur [dy dx]] pt]. by simpl.
    + unfold ManipStart, ActStart. rewrite Hin. simpl.
      destruct (RotateCase _ _ _ _) as [[cur [dy dx]] pt].
      destruct (ActLocked (ES sv)); by simpl.
Qed.

Lemma Rotate_pivot_in_start_box_witness :
  let r := SpriteRotateDrag Defaults TrivialCollab EndToEndView SizeUpM
             (image.mkPoint 3 4) in
  Forall (fun call =>
            InBox (DragSelStartBBox (ES EndToEndView))
              (Add (xfPivot call) (NewVec2FmPoint (SvWinBBoxMin EndToEndView))))
         (snd r)
  /\ DragSelStartBBox (ES (fst r)) = DragSelStartBBox (ES EndToEndView)
  /\ DragSelEffBBox (ES (fst r)) = DragSelEffBBox (ES EndToEndView).
Proof.
  apply (Rotate_pivot_in_start_box Defaults TrivialCollab EndToEndView SizeUpM
           (image.mkPoint 3 4));
    simpl; qc_to_q; vm_compute; discriminate.
Defined.

(** ** The generated stringers *)

Lemma FromStringLoop_Some name index js s j :
  FromStringLoop name index js s = Some j ->
  j ∈ js /\ s = Slice name (index !!! j) (index !!! (j + 1)%nat).
Proof.
  induction js as [| j0 js IH]; simpl; [discriminate |].
  case_decide as Hs.
  - intros [= <-]. split; [constructor | exact Hs].
  - intros H. destruct (IH H) as [Hin Heq]. split; [by constructor | exact Heq].
Qed.

Lemma FromStringLoop_None name index js s :
  FromStringLoop name index js s = None ->
  forall j, j ∈ js -> s <> Slice name (index !!! j) (index !!! (j + 1)%nat).
Proof.
  induction js as [| j0 js IH]; simpl; intros H j Hj.
  - inversion Hj.
  - case_decide as Hs; [discriminate |].
    apply elem_of_cons in Hj as [-> | Hj]; [exact Hs | by apply IH].
Qed.

(** The stringer of [Sprites] and its inverse.  Every value from 0 to 8
    (the handles and [SpritesN]) is read back from its name; a string that
    is read is the name of the value it gives; a string that is not a name
    is an error that leaves the value as it was; and the text [String]
    gives for a value out of range, [Sprites(n)], is not a name. *)
Theorem Sprites_FromString_String :
  (forall i i0, (0 <= i < 9)%Z ->
     Sprites_FromString i0 (Sprites_String i) = (i, None))
  /\ (forall i0 s j, Sprites_FromString i0 s = (j, None) ->
        (0 <= j < 9)%Z /\ Sprites_String j = s)
  /\ (forall i0 s j e, Sprites_FromString i0 s = (j, Some e) ->
        j = i0
        /\ e = "String: " +:+ s +:+ " is not a valid option for type: Sprites"
        /\ forall i, (0 <= i < 9)%Z -> Sprites_String i <> s)
  /\ (forall i i0, ~ (0 <= i < 9)%Z ->
        Sprites_String i = "Sprites(" +:+ pretty i +:+ ")"
        /\ fst (Sprites_FromString i0 (Sprites_String i)) = i0
        /\ snd (Sprites_FromString i0 (Sprites_String i)) <> None)
  /\ (forall sp, Sprites_FromString 0 (Sprites_String (SpritesVal sp))
                 = (SpritesVal sp, None)).
Proof.
  assert (Hrt : forall i i0, (0 <= i < 9)%Z ->
            Sprites_FromString i0 (Sprites_String i) = (i, None)).
  { intros i i0 Hi.
    assert (Hc : (i = 0 \/ i = 1 \/ i = 2 \/ i = 3 \/ i = 4 \/ i = 5 \/ i = 6
                 \/ i = 7 \/ i = 8)%Z) by lia.
    repeat destruct Hc as [-> | Hc]; try subst i; reflexivity. }
  assert (Hnames : forall j, j ∈ seq 0 9 ->
            Slice _Sprites_name (_Sprites_index !!! j) (_Sprites_index !!! (j + 1)%nat)
            = Sprites_String (Z.of_nat j)).
  { intros j Hj. apply elem_of_seq in Hj.
    assert (Hc : (j = 0 \/ j = 1 \/ j = 2 \/ j = 3 \/ j = 4 \/ j = 5 \/ j = 6
                 \/ j = 7 \/ j = 8)%nat) by lia.
    repeat destruct Hc as [-> | Hc]; try subst j; reflexivity. }
  split; [exact Hrt |]. split; [| split; [| split]].
  - intros i0 s j. unfold Sprites_FromString.
    destruct (FromStringLoop _ _ _ s) as [k |] eqn:Hl; [| discriminate].
    intros [= <-]. apply FromStringLoop_Some in Hl as [Hin ->].
    split; [apply elem_of_seq in Hin; simpl in Hin; lia |].
    symmetry. by apply Hnames.
  - intros i0 s j e. unfold Sprites_FromString.
    destruct (FromStringLoop _ _ _ s) as [k |] eqn:Hl; [discriminate |].
    intros [= <- <-]. split; [reflexivity |]. split; [reflexivity |].
    intros i Hi Heq.
    apply (FromStringLoop_None _ _ _ _ Hl (Z.to_nat i)).
    + apply elem_of_seq. simpl. lia.
    + rewrite Hnames by (apply elem_of_seq; simpl; lia).
      rewrite Z2Nat.id by lia. by symmetry.
  - intros i i0 Hi.
    assert (Hs : Sprites_String i = "Sprites(" +:+ pretty i +:+ ")").
    { unfold Sprites_String. rewrite decide_True; [reflexivity | simpl; lia]. }
    rewrite Hs. split; [reflexivity |].
    unfold Sprites_FromString. simpl.
    repeat (rewrite decide_False by discriminate). simpl. split; [reflexivity | discriminate].
  - intros sp. apply Hrt. destruct sp; simpl; lia.
Qed.

(** The stringer of [AlignTypes] and its inverse: as for [Sprites], over
    the values from 0 to 4. *)
Theorem AlignTypes_FromString_String :
  (forall i i0, (0 <= i < 5)%Z ->
     AlignTypes_FromString i0 (AlignTypes_String i) = (i, None))
  /\ (forall i0 s j, AlignTypes_FromString i0 s = (j, None) ->
        (0 <= j < 5)%Z /\ AlignTypes_String j = s)
  /\ (forall i0 s j e, AlignTypes_FromString i0 s = (j, Some e) ->
        j = i0
        /\ e = "String: " +:+ s +:+ " is not a valid option for type: AlignTypes"
        /\ forall i, (0 <= i < 5)%Z -> AlignTypes_String i <> s)
  /\ (forall i i0, ~ (0 <= i < 5)%Z ->
        AlignTypes_String i = "AlignTypes(" +:+ pretty i +:+ ")"
        /\ fst (AlignTypes_FromString i0 (AlignTypes_String i)) = i0
        /\ snd (AlignTypes_FromString i0 (AlignTypes_String i)) <> None).
Proof.
  assert (Hrt : forall i i0, (0 <= i < 5)%Z ->
            AlignTypes_FromString i0 (AlignTypes_String i) = (i, None)).
  { intros i i0 Hi.
    assert (Hc : (i = 0 \/ i = 1 \/ i = 2 \/ i = 3 \/ i = 4)%Z) by lia.
    repeat destruct Hc as [-> | Hc]; try subst i; reflexivity. }
  assert (Hnames : forall j, j ∈ seq 0 5 ->
            Slice _AlignTypes_name (_AlignTypes_index !!! j)
              (_AlignTypes_index !!! (j + 1)%nat)
            = AlignTypes_String (Z.of_nat j)).
  { intros j Hj. apply elem_of_seq in Hj.
    assert (Hc : (j = 0 \/ j = 1 \/ j = 2 \/ j = 3 \/ j = 4)%nat) by lia.
    repeat destruct Hc as [-> | Hc]; try subst j; reflexivity. }
  split; [exact Hrt |]. split; [| split].
  - intros i0 s j. unfold AlignTypes_FromString.
    destruct (FromStringLoop _ _ _ s) as [k |] eqn:Hl; [| discriminate].
    intros [= <-]. apply FromStringLoop_Some in Hl as [Hin ->].
    split; [apply elem_of_seq in Hin; simpl in Hin; lia |].
    symmetry. by apply Hnames.
  - intros i0 s j e. unfold AlignTypes_FromString.
    destruct (FromStringLoop _ _ _ s) as [k |] eqn:Hl; [discriminate |].
    intros [= <- <-]. split; [reflexivity |]. split; [reflexivity |].
    intros i Hi Heq.
    apply (FromStringLoop_None _ _ _ _ Hl (Z.to_nat i)).
    + apply elem_of_seq. simpl. lia.
    + rewrite Hnames by (apply elem_of_seq; simpl; lia).
      rewrite Z2Nat.id by lia. by symmetry.
  - intros i i0 Hi.
    assert (Hs : AlignTypes_String i = "AlignTypes(" +:+ pretty i +:+ ")").
    { unfold AlignTypes_String. rewrite decide_True; [reflexivity | simpl; lia]. }
    rewrite Hs. split; [reflexivity |].
    unfold AlignTypes_FromString. simpl.
    repeat (rewrite decide_False by discriminate). simpl. split; [reflexivity | discriminate].
Qed.

(** ** Sprite names *)

Lemma sapp_nil (s : string) : EmptyString +:+ s = s.
Proof. reflexivity. Qed.

Lemma sapp_cons c (r s : string) : String c r +:+ s = String c (r +:+ s).
Proof. reflexivity. Qed.

Lemma sapp_assoc (a b c : string) : (a +:+ b) +:+ c = a +:+ (b +:+ c).
Proof.
  induction a as [| x a IH]; [reflexivity |].
  rewrite !sapp_cons. by f_equal.
Qed.

Lemma Digits_app d e : Digits d = true -> Digits e = true -> Digits (d +:+ e) = true.
Proof.
  induction d as [| c d IH]; [done |].
  rewrite sapp_cons. simpl. intros [Hc Hd]%andb_prop He. rewrite Hc. simpl.
  by apply IH.
Qed.

Lemma pretty_N_char_digit x : isDigit (pretty_N_char x) = true.
Proof. unfold pretty_N_char. by repeat case_match. Qed.

(** A numeral is made of digits, put before what follows it. *)
Lemma pretty_N_go_digits x : forall s,
  exists d, Digits d = true /\ ((0 < x)%N -> d <> EmptyString)
            /\ pretty_N_go x s = d +:+ s.
Proof.
  induction (N.lt_wf_0 x) as [x _ IH]. intros s.
  destruct (decide (x = 0)%N) as [-> | Hx].
  - exists EmptyString. split; [done |]. split; [lia | done].
  - rewrite pretty_N_go_step by lia.
    destruct (IH (x `div` 10)%N ltac:(apply N.div_lt; lia)
                (String (pretty_N_char (x `mod` 10)) s)) as (d & Hd & _ & ->).
    exists (d +:+ String (pretty_N_char (x `mod` 10)) EmptyString).
    split; [| split].
    + apply Digits_app; [done |]. simpl. by rewrite pretty_N_char_digit.
    + intros _. by destruct d.
    + by rewrite sapp_assoc, sapp_cons, sapp_nil.
Qed.

Lemma sapp_nil_r (s : string) : s +:+ EmptyString = s.
Proof. induction s as [| c s IH]; [done |]. rewrite sapp_cons. by f_equal. Qed.

Lemma pretty_positive_digits (p : positive) :
  exists c d, pretty p = String c d /\ isDigit c = true /\ Digits d = true.
Proof.
  unfold pretty, pretty_positive, pretty, pretty_N.
  rewrite decide_False by done.
  destruct (pretty_N_go_digits (N.pos p) EmptyString) as (d & Hd & Hne & ->).
  specialize (Hne ltac:(lia)). rewrite sapp_nil_r.
  destruct d as [| c d]; [done |]. simpl in Hd. apply andb_prop in Hd as [Hc Hd].
  by exists c, d.
Qed.

Lemma digits_dash_split d : forall d' a b,
  Digits d = true -> Digits d' = true ->
  d +:+ "-" +:+ a = d' +:+ "-" +:+ b -> d = d' /\ a = b.
Proof.
  induction d as [| c d IH]; intros [| c' d'] a b Hd Hd' H;
    rewrite ?sapp_cons, ?sapp_nil in H; simpl in Hd, Hd'.
  - by inversion H.
  - inversion H; subst c'. by apply andb_prop in Hd' as [? _].
  - inversion H; subst c. by apply andb_prop in Hd as [? _].
  - inversion H; subst c'. apply andb_prop in Hd as [_ Hd].
    apply andb_prop in Hd' as [_ Hd'].
    destruct (IH d' a b Hd Hd' ltac:(done)) as [-> ->]. done.
Qed.

(** The numeral of an integer, followed by a dash, is read back. *)
Lemma pretty_Z_dash_split (i i' : Z) (a b : string) :
  pretty i +:+ "-" +:+ a = pretty i' +:+ "-" +:+ b -> i = i' /\ a = b.
Proof.
  assert (Hshape : forall z : Z,
    exists c d, (pretty z = String c d \/ pretty z = "-" +:+ String c d)
      /\ isDigit c = true /\ Digits d = true).
  { intros [| p | p]; unfold pretty, pretty_Z.
    - eexists _, _. split; [left; reflexivity | done].
    - destruct (pretty_positive_digits p) as (c & d & -> & ? & ?). eauto 10.
    - destruct (pretty_positive_digits p) as (c & d & -> & ? & ?). eauto 10. }
  intros H.
  destruct (Hshape i) as (c & d & Hi & Hc & Hd).
  destruct (Hshape i') as (c' & d' & Hi' & Hc' & Hd').
  assert (Hp : pretty i = pretty i' /\ a = b).
  { destruct Hi as [Hi | Hi], Hi' as [Hi' | Hi']; rewrite Hi, Hi' in *;
      rewrite ?sapp_cons, ?sapp_nil in H; inversion H; subst.
    - destruct (digits_dash_split d d' a b Hd Hd' ltac:(done)) as [-> ->]. done.
    - done.
    - done.
    - rewrite ?sapp_cons, ?sapp_nil.
      match goal with
      | H1 : d +:+ _ = d' +:+ _ |- _ =>
          destruct (digits_dash_split d d' a b Hd Hd' H1) as [-> ->]
      end. done. }
  destruct Hp as [Hp ->]. split; [| done]. by apply (inj pretty).
Qed.

Lemma SpriteNames_inj s s' :
  sprites.SpriteNames s = sprites.SpriteNames s' ->
  s = s' \/ (sprites.SpriteNames s = EmptyString
             /\ sprites.SpriteNames s' = EmptyString).
Proof. destruct s, s'; simpl; intros H; try discriminate H; auto. Qed.

(** Sprite names are unique.  Two sprites with the same name have the same
    type (or are both of a type without a name, [SpUnk] or [SpritesN]); for
    the types whose name holds the index (selection box, node point, node
    control, alignment match) they have the same index; and for the types
    whose name holds the subtype (reshape box, selection box, rubber band)
    they have the same subtype, up to the subtypes without a name. *)
Theorem SpriteName_unique (typ subtyp typ' subtyp' : sprites.Sprites) (idx idx' : Z) :
  sprites.SpriteName typ subtyp idx = sprites.SpriteName typ' subtyp' idx' ->
  (typ = typ' \/ (sprites.SpriteNames typ = EmptyString
                  /\ sprites.SpriteNames typ' = EmptyString))
  /\ (NameHasIdx typ = true -> idx = idx')
  /\ (NameHasSub typ = true ->
      subtyp = subtyp' \/ (sprites.SpriteNames subtyp = EmptyString
                           /\ sprites.SpriteNames subtyp' = EmptyString)).
Proof.
  intros H.
  assert (Ht : typ = typ' \/ (sprites.SpriteNames typ = EmptyString
                              /\ sprites.SpriteNames typ' = EmptyString)).
  { destruct typ, typ'; try (by left); try (by right);
      unfold sprites.SpriteName in H; simpl in H;
      rewrite ?sapp_cons, ?sapp_nil in H; try discriminate H;
      destruct subtyp; simpl in H; rewrite ?sapp_cons, ?sapp_nil in H;
      try discriminate H;
      destruct subtyp'; simpl in H; rewrite ?sapp_cons, ?sapp_nil in H;
      discriminate H. }
  split; [exact Ht |].
  destruct Ht as [<- | [Hn Hn']].
  - unfold sprites.SpriteName, sprites.fmtInt in H.
    destruct typ; simpl in H;
      (split; [intros Hi; try discriminate Hi | intros Hs; try discriminate Hs]);
      repeat apply (inj (String.append _)) in H.
    + by apply SpriteNames_inj.
    + by destruct (pretty_Z_dash_split _ _ _ _ H).
    + apply SpriteNames_inj. by destruct (pretty_Z_dash_split _ _ _ _ H).
    + by apply (inj pretty).
    + by apply (inj pretty).
    + by apply SpriteNames_inj.
    + by apply (inj pretty).
  - destruct typ; simpl in Hn; try discriminate Hn; split; intros Hx; discriminate Hx.
Qed.

Lemma SpriteName_unique_witness :
  (sprites.SpSelBBox = sprites.SpSelBBox
   \/ (sprites.SpriteNames sprites.SpSelBBox = EmptyString
       /\ sprites.SpriteNames sprites.SpSelBBox = EmptyString))
  /\ (NameHasIdx sprites.SpSelBBox = true -> (-12)%Z = (-12)%Z)
  /\ (NameHasSub sprites.SpSelBBox = true ->
      sprites.SpBBoxUpL = sprites.SpBBoxUpL
      \/ (sprites.SpriteNames sprites.SpBBoxUpL = EmptyString
          /\ sprites.SpriteNames sprites.SpBBoxUpL = EmptyString)).
Proof.
  apply (SpriteName_unique sprites.SpSelBBox sprites.SpBBoxUpL
           sprites.SpSelBBox sprites.SpBBoxUpL (-12) (-12)).
  reflexivity.
Defined.

(** ** The standard sizes *)

(** The values of the standard size [k] are the target or the target
    turned by a quarter. *)
Definition StdMatches (trgl trgp : physize.StdSizeVals) (k : physize.StdSizes)
  : Prop :=
  match physize.StdSizesMap k with
  | Some v => v = trgl \/ v = trgp
  | None => False
  end.

Lemma StdSizesKeys_in k :
  k ∈ physize.StdSizesKeys <-> physize.StdSizesMap k <> None.
Proof.
  split.
  - intros H Hn. destruct k; try discriminate Hn;
      unfold physize.StdSizesKeys in H;
      repeat (apply elem_of_cons in H as [H | H]; [discriminate H |]);
      inversion H.
  - intros H. unfold physize.StdSizesKeys.
    destruct k; try (exfalso; by apply H); repeat first [left | right].
Qed.

(** No two standard sizes have the same values, and none has the values of
    another turned by a quarter. *)
Lemma StdMatches_unique wd ht un k1 k2 :
  StdMatches (physize.mkStdSizeVals un wd ht) (physize.mkStdSizeVals un ht wd) k1 ->
  StdMatches (physize.mkStdSizeVals un wd ht) (physize.mkStdSizeVals un ht wd) k2 ->
  k1 = k2.
Proof.
  unfold StdMatches.
  destruct (physize.StdSizesMap k1) as [v1 |] eqn:H1; [| done].
  destruct (physize.StdSizesMap k2) as [v2 |] eqn:H2; [| done].
  intros Hm1 Hm2.
  assert (Hv : (physize.vUnits v1 = physize.vUnits v2
                /\ physize.vX v1 = physize.vX v2 /\ physize.vY v1 = physize.vY v2)
               \/ (physize.vUnits v1 = physize.vUnits v2
                   /\ physize.vX v1 = physize.vY v2 /\ physize.vY v1 = physize.vX v2)).
  { destruct Hm1 as [-> | ->], Hm2 as [-> | ->]; simpl; auto. }
  clear Hm1 Hm2.
  destruct k1; try discriminate H1; injection H1 as <-;
    destruct k2; try discriminate H2; injection H2 as <-;
    try reflexivity; exfalso; simpl in Hv;
    destruct Hv as [(Hu & Hx & Hy) | (Hu & Hx & Hy)];
    try discriminate Hu;
    first [apply Z2Qc_inj in Hx; discriminate Hx
          | apply Z2Qc_inj in Hy; discriminate Hy].
Qed.

Lemma MatchLoop_spec keys trgl trgp :
  (StdMatches trgl trgp (physize.MatchLoop keys trgl trgp)
   /\ physize.MatchLoop keys trgl trgp ∈ keys)
  \/ (physize.MatchLoop keys trgl trgp = physize.CustomSize
      /\ forall k, k ∈ keys -> ~ StdMatches trgl trgp k).
Proof.
  induction keys as [| k keys IH]; simpl.
  - right. split; [done |]. intros k Hk. inversion Hk.
  - destruct (physize.StdSizesMap k) as [v |] eqn:Hk.
    + case_decide as Hv.
      * left. split; [| by left]. unfold StdMatches. by rewrite Hk.
      * destruct IH as [[Hm Hin] | [Hc Hno]]; [left; split; [done | by right] |].
        right. split; [done |]. intros k' [-> | Hk']%elem_of_cons; [| by apply Hno].
        unfold StdMatches. by rewrite Hk.
    + destruct IH as [[Hm Hin] | [Hc Hno]]; [left; split; [done | by right] |].
      right. split; [done |]. intros k' [-> | Hk']%elem_of_cons; [| by apply Hno].
      unfold StdMatches. rewrite Hk. tauto.
Qed.

(** [MatchStdSize] does not depend on the order in which the map is
    visited: whatever the order of the keys, the loop returns the same
    standard size (at most one matches), or [CustomSize] when none
    matches. *)
Theorem MatchStdSize_order_independent keys wd ht un :
  keys ≡ₚ physize.StdSizesKeys ->
  physize.MatchStdSizeIn keys wd ht un = physize.MatchStdSize wd ht un.
Proof.
  intros Hp. unfold physize.MatchStdSize, physize.MatchStdSizeIn.
  set (trgl := physize.mkStdSizeVals un wd ht).
  set (trgp := physize.mkStdSizeVals un ht wd).
  destruct (MatchLoop_spec keys trgl trgp) as [[Hm Hin] | [Hc Hno]],
    (MatchLoop_spec physize.StdSizesKeys trgl trgp) as [[Hm' Hin'] | [Hc' Hno']].
  - by apply (StdMatches_unique wd ht un).
  - exfalso. apply (Hno' _ ltac:(by rewrite <- Hp) Hm).
  - exfalso. apply (Hno _ ltac:(by rewrite Hp) Hm').
  - by rewrite Hc, Hc'.
Qed.

Lemma MatchStdSize_order_independent_witness :
  physize.MatchStdSizeIn (reverse physize.StdSizesKeys) (ofInt 297) (ofInt 210)
    units.Mm
  = physize.MatchStdSize (ofInt 297) (ofInt 210) units.Mm.
Proof.
  apply (MatchStdSize_order_independent (reverse physize.StdSizesKeys)).
  apply reverse_Permutation.
Defined.

(** [MatchStdSize] finds a size of the map from its values, and from its
    values with width and height exchanged. *)
Lemma MatchStdSize_finds std u x y :
  physize.StdSizesMap std = Some (physize.mkStdSizeVals u x y) ->
  physize.MatchStdSize x y u = std /\ physize.MatchStdSize y x u = std.
Proof.
  intros Hm.
  assert (Hk : std ∈ physize.StdSizesKeys) by (apply StdSizesKeys_in; by rewrite Hm).
  assert (Hfind : forall wd ht,
    StdMatches (physize.mkStdSizeVals u wd ht) (physize.mkStdSizeVals u ht wd) std ->
    physize.MatchStdSize wd ht u = std).
  { intros wd ht Hs. unfold physize.MatchStdSize, physize.MatchStdSizeIn.
    destruct (MatchLoop_spec physize.StdSizesKeys (physize.mkStdSizeVals u wd ht)
                (physize.mkStdSizeVals u ht wd)) as [[Hm' _] | [_ Hno]].
    - by apply (StdMatches_unique wd ht u).
    - exfalso. by apply (Hno std Hk). }
  split; apply Hfind; unfold StdMatches; rewrite Hm; auto.
Qed.

(** Setting a standard size and finding it again.  For every size of the
    map [SetStdSize] gives no error, records the size, sets the units and
    the width and height of the map and leaves the grid and the portrait
    flag; [MatchStdSize] then finds the size from the width, height and
    units, and also from the height and width exchanged. *)
Theorem SetStdSize_MatchStdSize ps std :
  physize.StdSizesMap std <> None ->
  let ps' := fst (physize.SetStdSize ps std) in
  snd (physize.SetStdSize ps std) = None
  /\ physize.StdSize ps' = std
  /\ physize.StdSizesMap std
     = Some (physize.mkStdSizeVals (physize.Units ps') (X (physize.Size ps'))
               (Y (physize.Size ps')))
  /\ physize.Grid ps' = physize.Grid ps
  /\ physize.Portrait ps' = physize.Portrait ps
  /\ physize.MatchStdSize (X (physize.Size ps')) (Y (physize.Size ps'))
       (physize.Units ps') = std
  /\ physize.MatchStdSize (Y (physize.Size ps')) (X (physize.Size ps'))
       (physize.Units ps') = std.
Proof.
  intros Hin. unfold physize.SetStdSize, physize.SetToStdSize. simpl.
  destruct (physize.StdSizesMap std) as [[u x y] |] eqn:Hm; [| done]. simpl.
  split; [done |]. split; [done |]. split; [done |]. split; [done |].
  split; [done |]. by apply MatchStdSize_finds.
Qed.

Lemma SetStdSize_MatchStdSize_witness :
  let ps := physize.Defaults (physize.mkPhysSize physize.CustomSize false units.Px
                                (V2 0 0) 0) in
  let ps' := fst (physize.SetStdSize ps physize.A4) in
  snd (physize.SetStdSize ps physize.A4) = None
  /\ physize.StdSize ps' = physize.A4
  /\ physize.StdSizesMap physize.A4
     = Some (physize.mkStdSizeVals (physize.Units ps') (X (physize.Size ps'))
               (Y (physize.Size ps')))
  /\ physize.Grid ps' = physize.Grid ps
  /\ physize.Portrait ps' = physize.Portrait ps
  /\ physize.MatchStdSize (X (physize.Size ps')) (Y (physize.Size ps'))
       (physize.Units ps') = physize.A4
  /\ physize.MatchStdSize (Y (physize.Size ps')) (X (physize.Size ps'))
       (physize.Units ps') = physize.A4.
Proof.
  apply (SetStdSize_MatchStdSize _ physize.A4). discriminate.
Defined.

(** A size that is not in the map.  [SetStdSize] with [CustomSize] (or
    [StdSizesN]) returns an error and leaves the units, the size, the grid
    and the portrait flag, but the standard size it was given is recorded
    all the same.  [Update] leaves a custom size untouched, and calling it
    twice is calling it once. *)
Theorem SetStdSize_unknown ps std :
  (physize.StdSizesMap std = None ->
     snd (physize.SetStdSize ps std)
       = Some "StdSize: %!v(MISSING) not found in StdSizesMap"
     /\ fst (physize.SetStdSize ps std)
        = physize.mkPhysSize std (physize.Portrait ps) (physize.Units ps)
            (physize.Size ps) (physize.Grid ps))
  /\ (physize.StdSizesMap std = None <->
      std = physize.CustomSize \/ std = physize.StdSizesN)
  /\ (physize.StdSize ps = physize.CustomSize -> physize.Update ps = ps)
  /\ physize.Update (physize.Update ps) = physize.Update ps.
Proof.
  split; [| split; [| split]].
  - intros Hn. unfold physize.SetStdSize, physize.SetToStdSize. simpl.
    by rewrite Hn.
  - split.
    + intros H. destruct std; try discriminate H; auto.
    + by intros [-> | ->].
  - intros Hc. unfold physize.Update.
    rewrite decide_False; [reflexivity | intros H; apply H; exact Hc].
  - unfold physize.Update, physize.SetToStdSize.
    destruct (decide (physize.StdSize ps <> physize.CustomSize)) as [Hne | He].
    + destruct (physize.StdSizesMap (physize.StdSize ps)) as [v |] eqn:Hm; simpl.
      * rewrite decide_True by exact Hne. by rewrite Hm.
      * rewrite decide_True by exact Hne. by rewrite Hm.
    + by rewrite decide_False by exact He.
Qed.

(** Writing the size to the drawing and reading it back.  [SetToSVG] gives
    the width and the height the units of the size and sets the view box
    and the grid; [SetFromSVG] then reads back the size, the units and the
    grid, keeps the portrait flag, and finds the standard size of a size
    that was set by [SetStdSize].  Read from a drawing and written back,
    the height takes the units of the width. *)
Theorem SetToSVG_SetFromSVG ps sv :
  let sv' := physize.SetToSVG ps sv in
  let ps' := physize.SetFromSVG ps sv' in
  physize.Size ps' = physize.Size ps
  /\ physize.Units ps' = physize.Units ps
  /\ physize.Grid ps' = physize.Grid ps
  /\ physize.Portrait ps' = physize.Portrait ps
  /\ physize.StdSize ps'
     = physize.MatchStdSize (X (physize.Size ps)) (Y (physize.Size ps))
         (physize.Units ps)
  /\ physize.ViewBoxSize sv' = physize.Size ps
  /\ units.Un (physize.PhysHeight sv') = units.Un (physize.PhysWidth sv')
  /\ (forall std ps0, physize.StdSizesMap std <> None ->
        ps = fst (physize.SetStdSize ps0 std) -> ps' = ps)
  /\ (let sv2 := physize.SetToSVG (physize.SetFromSVG ps sv) sv in
      physize.PhysWidth sv2 = physize.PhysWidth sv
      /\ units.Val (physize.PhysHeight sv2) = units.Val (physize.PhysHeight sv)
      /\ units.Un (physize.PhysHeight sv2) = units.Un (physize.PhysWidth sv)).
Proof.
  intros sv' ps'. subst sv' ps'. unfold physize.SetToSVG, physize.SetFromSVG. simpl.
  split; [by destruct (physize.Size ps) |]. do 6 (split; [done |]).
  split.
  - intros std ps0 Hin ->. unfold physize.SetStdSize, physize.SetToStdSize. simpl.
    destruct (physize.StdSizesMap std) as [[u x y] |] eqn:Hm; [| done]. simpl.
    by destruct (MatchStdSize_finds std u x y Hm) as [-> _].
  - split; [by destruct (physize.PhysWidth sv) | done].
Qed.

(** ** One checkpoint for one drag *)

Lemma SnapCurBBox_keeps Prefs sv move :
  Undos (SnapCurBBox Prefs sv move) = Undos sv
  /\ Action (ES (SnapCurBBox Prefs sv move)) = Action (ES sv)
  /\ ActLocked (ES (SnapCurBBox Prefs sv move)) = ActLocked (ES sv).
Proof. rewrite (SnapCurBBox_shape Prefs sv move). by simpl. Qed.

Lemma SpriteReshapeDrag_undo Prefs co sv sp delta :
  let sv' := fst (SpriteReshapeDrag Prefs co sv sp delta) in
  (InAction (ES sv) = true ->
     Undos sv' = Undos sv /\ Action (ES sv') = Action (ES sv)
     /\ ActLocked (ES sv') = ActLocked (ES sv))
  /\ (InAction (ES sv) = false -> ActLocked (ES sv) = false ->
      Undos sv' = Undos sv ++ [("Reshape", SelectedNamesString co (ES sv))]
      /\ Action (ES sv') = "Reshape" /\ ActLocked (ES sv') = false).
Proof.
  unfold SpriteReshapeDrag. cbv zeta. cbn [fst].
  split.
  - intros Hin. rewrite Hin.
    destruct (SnapCurBBox_keeps Prefs
                (setES sv (setCurBBox (ES sv)
                   (mkBox2
                      (SetMin (Min_ (ReshapeCurBBox sp (NewVec2FmPoint delta)
                                       (DragSelCurBBox (ES sv))))
                         (SubScalar (Max_ (ReshapeCurBBox sp (NewVec2FmPoint delta)
                                             (DragSelCurBBox (ES sv)))) 1))
                      (Max_ (ReshapeCurBBox sp (NewVec2FmPoint delta)
                               (DragSelCurBBox (ES sv))))))) true)
      as (-> & -> & ->).
    by simpl.
  - intros Hin Hl. rewrite Hin.
    set (sv1 := ManipStart sv "Reshape" (SelectedNamesString co (ES sv))).
    assert (H1 : Undos sv1 = Undos sv ++ [("Reshape", SelectedNamesString co (ES sv))]
                 /\ Action (ES sv1) = "Reshape" /\ ActLocked (ES sv1) = false).
    { subst sv1. unfold ManipStart, ActStart. rewrite Hin, Hl. by simpl. }
    destruct H1 as (Hu & Ha & Hk).
    match goal with
    | |- context [SnapCurBBox Prefs ?s true] =>
        destruct (SnapCurBBox_keeps Prefs s true) as (-> & -> & ->)
    end.
    by simpl.
Qed.

(** A drag of any number of reshape events saves one undo checkpoint.
    From a state at rest whose lock is free, after every event of the
    sequence the undo log is the log before the drag with the one
    checkpoint of the action ["Reshape"] and the names of the selection,
    and the action in progress is ["Reshape"]; from a state in which an
    action is in progress, no event of the sequence adds a checkpoint. *)
Theorem Reshape_one_undo Prefs co sv (evs : list (Sprites * image.Point)) :
  (InAction (ES sv) = false -> ActLocked (ES sv) = false ->
   Forall (fun sv' =>
             Undos sv' = Undos sv ++ [("Reshape", SelectedNamesString co (ES sv))]
             /\ Action (ES sv') = "Reshape")
          (ReshapeDrags Prefs co sv evs))
  /\ (InAction (ES sv) = true ->
      Forall (fun sv' => Undos sv' = Undos sv /\ Action (ES sv') = Action (ES sv))
             (ReshapeDrags Prefs co sv evs)).
Proof.
  assert (Hact : forall evs sv, InAction (ES sv) = true ->
            Forall (fun sv' => Undos sv' = Undos sv /\ Action (ES sv') = Action (ES sv))
                   (ReshapeDrags Prefs co sv evs)).
  { clear. induction evs as [| [sp delta] evs IH]; intros sv Hin; simpl.
    - constructor.
    - destruct (SpriteReshapeDrag_undo Prefs co sv sp delta) as [H _].
      destruct (H Hin) as (Hu & Ha & _). cbv zeta in Hu, Ha.
      constructor; [by split |].
      assert (Hin' : InAction (ES (fst (SpriteReshapeDrag Prefs co sv sp delta))) = true)
        by (unfold InAction in *; by rewrite Ha).
      eapply Forall_impl; [apply (IH _ Hin') |].
      intros sv' [Hu' Ha']. split; congruence. }
  split; [| apply Hact].
  intros Hin Hl. destruct evs as [| [sp delta] evs]; simpl; [constructor |].
  destruct (SpriteReshapeDrag_undo Prefs co sv sp delta) as [_ H].
  destruct (H Hin Hl) as (Hu & Ha & _). cbv zeta in Hu, Ha.
  constructor; [by split |].
  assert (Hin' : InAction (ES (fst (SpriteReshapeDrag Prefs co sv sp delta))) = true)
    by (unfold InAction; by rewrite Ha).
  eapply Forall_impl; [apply (Hact evs _ Hin') |].
  intros sv' [Hu' Ha']. split; congruence.
Qed.

Lemma Reshape_one_undo_witness :
  Forall (fun sv' =>
            Undos sv' = Undos EndToEndView
                        ++ [("Reshape", SelectedNamesString TrivialCollab (ES EndToEndView))]
            /\ Action (ES sv') = "Reshape")
         (ReshapeDrags NoSnapPrefs TrivialCollab EndToEndView
            [(SizeDnR, image.mkPoint 10 10); (SizeUpL, image.mkPoint 2 3)]).
Proof.
  apply (Reshape_one_undo NoSnapPrefs TrivialCollab EndToEndView
           [(SizeDnR, image.mkPoint 10 10); (SizeUpL, image.mkPoint 2 3)]);
    reflexivity.
Defined.

(** ** The last move wins *)

(** [PathNodeSetPoint] on a node of the data: what it writes depends on
    the node and the point only, and it writes the end-point cells of the
    node only. *)
Lemma SetPoint_written path0 j0 n p npt :
  OwnNode path0 j0 n -> Forall2 ShapeEq (Data path0) (Data p) ->
  exists p',
    PathNodeSetPoint p n npt = Some p'
    /\ Forall2 ShapeEq (Data path0) (Data p')
    /\ ParXf p' = ParXf p /\ WinBBoxMin p' = WinBBoxMin p
    /\ (forall j, j ∈ NodeCells n ->
          Data p' !! j
          = EndCells (Cmd n) (StoredA n npt) (StoredB n npt) !! (j - Idx n)%nat)
    /\ (forall j, j ∉ NodeCells n -> Data p' !! j = Data p !! j).
Proof.
  intros (Hfirst & _ & pre0 & a0 & b0 & post0 & Hd0 & Hlen0) Hsh.
  pose proof Hsh as Hsh0. rewrite Hd0 in Hsh.
  apply Forall2_app_inv_l in Hsh as (pre & rest & Hpre & Hrest & Hd).
  apply Forall2_app_inv_l in Hrest as (E & post & HE & Hpost & ->).
  destruct (ShapeEq_EndCells _ _ _ _ HE) as (a & b & ->).
  assert (Hlen : length pre = Idx n)
    by (rewrite <- Hlen0; symmetry; apply (Forall2_length _ _ _ Hpre)).
  eexists. split.
  { apply (PathNodeSetPoint_cells p n npt pre a b post Hfirst Hd Hlen). }
  simpl. split.
  { rewrite Hd0. apply Forall2_app; [exact Hpre |].
    apply Forall2_app; [apply ShapeEq_EndCells_any | exact Hpost]. }
  split; [done |]. split; [done |]. unfold NodeCells. split.
  - intros j Hj. apply elem_of_seq in Hj.
    rewrite lookup_app_r by lia. rewrite Hlen.
    apply lookup_app_l. rewrite EndCells_length. lia.
  - intros j Hj. rewrite elem_of_seq in Hj. rewrite Hd.
    destruct (decide (j < Idx n)%nat) as [Hlt | Hge].
    + by rewrite !lookup_app_l by lia.
    + rewrite !(lookup_app_r pre) by lia.
      rewrite !lookup_app_r by (rewrite EndCells_length; lia).
      by rewrite !EndCells_length.
Qed.

Lemma LocalDelta_xf p q dv : ParXf p = ParXf q -> LocalDelta p dv = LocalDelta q dv.
Proof. intros H. unfold LocalDelta, ParTransform. by rewrite H. Qed.

(** The loop on two paths that hold the commands of the data: it writes
    the same operands into the same cells of both. *)
Lemma SetOnePointLoop_agree path0 j0 svoff rest : forall p q first dv (A : nat -> Prop),
  Forall (OwnNode path0 j0) rest ->
  Forall2 ShapeEq (Data path0) (Data p) -> Forall2 ShapeEq (Data path0) (Data q) ->
  ParXf p = ParXf q -> WinBBoxMin p = WinBBoxMin q ->
  (forall j, A j -> Data p !! j = Data q !! j) ->
  exists p' q',
    SetOnePointLoop p rest first dv svoff = Some p'
    /\ SetOnePointLoop q rest first dv svoff = Some q'
    /\ Forall2 ShapeEq (Data path0) (Data p')
    /\ ParXf p' = ParXf p /\ WinBBoxMin p' = WinBBoxMin p
    /\ ParXf q' = ParXf q /\ WinBBoxMin q' = WinBBoxMin q
    /\ (forall j, A j \/ j ∈ Written rest first -> Data p' !! j = Data q' !! j)
    /\ (forall j, j ∉ Written rest first -> Data p' !! j = Data p !! j).
Proof.
  induction rest as [| n rest IH]; intros p q first dv A Hown Hp Hq Hxf Hwb HA.
  - exists p, q. simpl. repeat split; try done.
    intros j [Hj | Hj]; [by apply HA | inversion Hj].
  - apply Forall_cons in Hown as [Hn Hrest].
    rewrite !SetOnePointLoop_cons. rewrite (LocalDelta_xf p q dv Hxf).
    set (npt := Add (Cp n) (LocalDelta q dv)).
    destruct (SetPoint_written path0 j0 n p npt Hn Hp)
      as (p1 & -> & Hp1 & Hxp & Hwp & Hcp & Hfp).
    destruct (SetPoint_written path0 j0 n q npt Hn Hq)
      as (q1 & -> & Hq1 & Hxq & Hwq & Hcq & Hfq).
    assert (HA1 : forall j, A j \/ j ∈ NodeCells n -> Data p1 !! j = Data q1 !! j).
    { intros j Hj. destruct (decide (j ∈ NodeCells n)) as [Hin | Hnin].
      - by rewrite Hcp, Hcq.
      - rewrite Hfp, Hfq by done. apply HA. by destruct Hj. }
    assert (Hgo : forall dv',
      exists p' q',
        SetOnePointLoop p1 rest false dv' svoff = Some p'
        /\ SetOnePointLoop q1 rest false dv' svoff = Some q'
        /\ Forall2 ShapeEq (Data path0) (Data p')
        /\ ParXf p' = ParXf p /\ WinBBoxMin p' = WinBBoxMin p
        /\ ParXf q' = ParXf q /\ WinBBoxMin q' = WinBBoxMin q
        /\ (forall j, A j \/ j ∈ NodeCells n ++ Written rest false ->
              Data p' !! j = Data q' !! j)
        /\ (forall j, j ∉ NodeCells n ++ Written rest false ->
              Data p' !! j = Data p !! j)).
    { intros dv'.
      destruct (IH p1 q1 false dv' (fun j => A j \/ j ∈ NodeCells n) Hrest Hp1 Hq1
                  ltac:(congruence) ltac:(congruence) HA1)
        as (p' & q' & Hlp & Hlq & Hs' & Hxp' & Hwp' & Hxq' & Hwq' & Hag & Hfr).
      exists p', q'. split; [done |]. split; [done |]. split; [done |].
      split; [congruence |]. split; [congruence |].
      split; [congruence |]. split; [congruence |]. split.
      - intros j Hj. apply Hag. rewrite elem_of_app in Hj. tauto.
      - intros j Hj. rewrite elem_of_app in Hj.
        rewrite Hfr by tauto. apply Hfp. tauto. }
    simpl Written.
    destruct first; [apply Hgo |].
    destruct (StopsCompensation (Cmd n)); [| apply Hgo].
    exists p1, q1. rewrite app_nil_r. repeat split; done.
Qed.

Lemma Path_eq (p q : Path) :
  Data p = Data q -> ParXf p = ParXf q -> WinBBoxMin p = WinBBoxMin q -> p = q.
Proof. destruct p, q. simpl. by intros -> -> ->. Qed.

(** The last move wins.  [PathNodeSetOnePoint] called again with the same
    nodes, as the drag of a node does on every event with the nodes taken
    at the press, overwrites what the call before wrote: two calls, with
    the deltas [d1] and [d2], leave the path that the one call with [d2]
    leaves. *)
Theorem SetOnePoint_last_wins svoff path nodes cs pidx d1 d2 :
  PathNodes svoff path = Some (nodes, cs) -> NoLeadingRelHV path ->
  exists p1 p2,
    PathNodeSetOnePoint path nodes pidx d1 svoff = Some p1
    /\ PathNodeSetOnePoint p1 nodes pidx d2 svoff = Some p2
    /\ PathNodeSetOnePoint path nodes pidx d2 svoff = Some p2.
Proof.
  intros H Hhv. unfold PathNodeSetOnePoint.
  destruct (nodes !! pidx) as [n |] eqn:Hk.
  - pose proof (PathNodes_OwnNode svoff path nodes cs pidx n H Hhv Hk) as Hown.
    set (rest := drop pidx nodes) in *.
    destruct (SetOnePointLoop_agree path (Idx n) svoff rest path path true d1
                (fun _ => True) Hown (ShapeEq_refl _) (ShapeEq_refl _)
                eq_refl eq_refl ltac:(done))
      as (p1 & p1' & Hl1 & _ & Hsh1 & Hxf1 & Hwb1 & _ & _ & _ & Hfr1).
    destruct (SetOnePointLoop_agree path (Idx n) svoff rest p1 path true d2
                (fun j => j ∉ Written rest true) Hown Hsh1 (ShapeEq_refl _)
                Hxf1 Hwb1 Hfr1)
      as (p2 & q2 & Hl2 & Hlq & _ & Hx2 & Hw2 & Hxq & Hwq & Hag & _).
    exists p1, p2. split; [done |]. split; [done |]. rewrite Hlq. f_equal.
    symmetry. apply Path_eq; [| congruence | congruence].
    apply list_eq. intros j. apply Hag.
    destruct (decide (j ∈ Written rest true)); tauto.
  - apply lookup_ge_None in Hk. rewrite drop_ge by exact Hk.
    exists path, path. simpl. done.
Qed.

Lemma SetOnePoint_last_wins_witness :
  exists nodes cs,
    PathNodes Vec2Zero ClosedPath = Some (nodes, cs)
    /\ exists p1 p2,
         PathNodeSetOnePoint ClosedPath nodes 1 (V2 1 0) Vec2Zero = Some p1
         /\ PathNodeSetOnePoint p1 nodes 1 (V2 (ofInt 3) (ofInt 4)) Vec2Zero = Some p2
         /\ PathNodeSetOnePoint ClosedPath nodes 1 (V2 (ofInt 3) (ofInt 4)) Vec2Zero = Some p2.
Proof.
  eexists _, _. split; [lazy; reflexivity |].
  eapply (SetOnePoint_last_wins Vec2Zero ClosedPath);
    [lazy; reflexivity | simpl; split; discriminate].
Defined.

(** ** The size and the position of a sprite *)

Lemma quot6_bound (sz : Z) :
  (0 <= sz)%Z -> (0 <= sz ÷ 6)%Z /\ (6 * (sz ÷ 6) <= sz)%Z.
Proof.
  intros H. rewrite Z.quot_div_nonneg by lia.
  pose proof (Z.mul_div_le sz 6 ltac:(lia)).
  pose proof (Z.div_pos sz 6 H ltac:(lia)). lia.
Qed.

Lemma quot2_nonneg (sz : Z) : (0 <= sz)%Z -> (0 <= sz ÷ 2 <= sz)%Z.
Proof.
  intros H. rewrite Z.quot_div_nonneg by lia.
  pose proof (Z.mul_div_le sz 2 ltac:(lia)).
  pose proof (Z.div_pos sz 2 H ltac:(lia)). lia.
Qed.

Lemma SpriteSize_min (dpi scale : float32) :
  image.Y (snd (HandleSpriteSize dpi scale))
  = image.X (snd (HandleSpriteSize dpi scale))
  /\ (4 <= image.X (snd (HandleSpriteSize dpi scale)))%Z
  /\ (3 <= snd (LineSpriteSize dpi))%Z.
Proof.
  unfold HandleSpriteSize, LineSpriteSize, HandleSizeMin, LineSizeMin.
  cbv zeta. cbn [fst snd image.X image.Y]. lia.
Qed.

(** A handle sprite is square, at least 4 wide, with a border of at least
    2 that takes at most half of it on each axis, so that the inner
    rectangle the drawing functions fill is never turned inside out; a
    line sprite is at least 3 wide with a border of at least 1 that leaves
    a core; and a larger scale never gives a smaller handle. *)
Theorem SpriteSize_bounds (dpi scale scale' : float32) :
  let h := HandleSpriteSize dpi scale in
  let l := LineSpriteSize dpi in
  image.Y (snd h) = image.X (snd h)
  /\ (4 <= image.X (snd h))%Z /\ (2 <= fst h)%Z
  /\ (2 * fst h <= image.X (snd h))%Z
  /\ (3 <= snd l)%Z /\ (1 <= fst l)%Z /\ (2 * fst l < snd l)%Z
  /\ (0 ≤ dpi -> scale ≤ scale' ->
      (image.X (snd h) <= image.X (snd (HandleSpriteSize dpi scale')))%Z).
Proof.
  unfold HandleSpriteSize, LineSpriteSize, HandleSizeMin, HandleBorderMin,
    LineSizeMin, LineBorderMin. cbv zeta. cbn [fst snd image.X image.Y].
  set (c := Qceiling (scale * dpi * HandleSpriteScale)).
  set (c' := Qceiling (scale' * dpi * HandleSpriteScale)).
  set (d := Qceiling (dpi * LineSpriteScale)).
  pose proof (quot6_bound (c `max` 4) ltac:(lia)).
  pose proof (quot6_bound (d `max` 3) ltac:(lia)).
  split; [reflexivity |]. split; [lia |]. split; [lia |]. split; [lia |].
  split; [lia |]. split; [lia |]. split; [lia |].
  intros Hd Hs.
  assert (Hc : (c <= c')%Z).
  { subst c c'. apply Qceiling_resp_le. unfold HandleSpriteScale.
    revert Hd Hs. generalize dpi scale scale'. clear. intros dpi a b Hd Hs.
    qc_to_q. nra. }
  lia.
Qed.

Lemma SpriteSize_bounds_witness :
  (image.X (snd (HandleSpriteSize 1 (frac 4 5)))
   <= image.X (snd (HandleSpriteSize 1 1)))%Z.
Proof.
  apply (SpriteSize_bounds 1 (frac 4 5) 1); qc_to_q; vm_compute; discriminate.
Defined.

Lemma SpriteProps_set sp typ subtyp idx :
  sprites.SpriteProps (sprites.SetSpriteProps sp typ subtyp idx)
  = Some (typ, subtyp, idx).
Proof.
  unfold sprites.SpriteProps, sprites.SetSpriteProps. simpl.
  rewrite lookup_insert_ne by done. rewrite lookup_insert_ne by done.
  rewrite lookup_insert_eq.
  rewrite lookup_insert_ne by done. rewrite lookup_insert_eq.
  rewrite lookup_insert_eq. reflexivity.
Qed.

(** [SetSpritePos] puts the sprite at the position or up and left of it,
    never right of it or below it; it fails only when the properties of
    the sprite cannot be read; a sprite that is not one of ours (no
    [grid-type]) is put at the position itself; and a sprite whose
    properties were set by [SetSpriteProps] is always placed. *)
Theorem SetSpritePos_up_left (dpi : float32) (sp : sprites.Sprite)
  (pos : image.Point) :
  (SetSpritePos dpi sp pos = None <-> sprites.SpriteProps sp = None)
  /\ (forall pos', SetSpritePos dpi sp pos = Some pos' ->
        (image.X pos' <= image.X pos)%Z /\ (image.Y pos' <= image.Y pos)%Z)
  /\ (sprites.Props sp !! "grid-type" = None -> SetSpritePos dpi sp pos = Some pos)
  /\ (forall typ subtyp idx, exists pos',
        SetSpritePos dpi (sprites.SetSpriteProps sp typ subtyp idx) pos = Some pos'
        /\ (image.X pos' <= image.X pos)%Z /\ (image.Y pos' <= image.Y pos)%Z).
Proof.
  assert (Hle : forall s p', SetSpritePos dpi s pos = Some p' ->
            (image.X p' <= image.X pos)%Z /\ (image.Y p' <= image.Y pos)%Z).
  { intros s p'. unfold SetSpritePos.
    destruct (sprites.SpriteProps s) as [[[typ subtyp] idx] |]; [| discriminate].
    destruct (SpriteSize_min dpi 1) as (Hy1 & H41 & Hl3).
    destruct (SpriteSize_min dpi (frac 4 5)) as (Hy8 & H48 & _).
    pose proof (quot2_nonneg (snd (LineSpriteSize dpi)) ltac:(lia)).
    pose proof (quot2_nonneg (image.X (snd (HandleSpriteSize dpi 1))) ltac:(lia)).
    pose proof (quot2_nonneg (image.Y (snd (HandleSpriteSize dpi 1))) ltac:(lia)).
    destruct (decide (typ = sprites.SpSelBBox)) as [Hsel | Hsel];
      set (ls := snd (LineSpriteSize dpi)) in *;
      set (h1 := snd (HandleSpriteSize dpi 1)) in *;
      set (h8 := snd (HandleSpriteSize dpi (frac 4 5))) in *;
      clearbody ls h1 h8; destruct pos as [x y];
      intros Heq; injection Heq as <-;
      repeat case_decide; try (destruct subtyp); cbn [image.X image.Y]; lia. }
  split; [| split; [| split]].
  - unfold SetSpritePos.
    destruct (sprites.SpriteProps sp) as [[[typ subtyp] idx] |]; split; done.
  - apply Hle.
  - intros Hn. unfold SetSpritePos, sprites.SpriteProps. rewrite Hn.
    rewrite decide_False by done. rewrite decide_False by done.
    rewrite decide_False by (intros [H | H]; discriminate H).
    rewrite decide_False by (simpl; lia). reflexivity.
  - intros typ subtyp idx.
    destruct (SetSpritePos dpi (sprites.SetSpriteProps sp typ subtyp idx) pos)
      as [pos' |] eqn:Hs.
    + exists pos'. split; [reflexivity |]. by apply (Hle _ _ Hs).
    + exfalso. unfold SetSpritePos in Hs. by rewrite SpriteProps_set in Hs.
Qed.

(** ** Colour modes *)

Lemma Modes_app pf ms1 ms2 :
  prefs.Modes pf (ms1 ++ ms2)
  = match prefs.Modes pf ms1 with
    | Some pf' => prefs.Modes pf' ms2
    | None => None
    end.
Proof.
  revert pf. induction ms1 as [| m ms1 IH]; intros pf; simpl; [done |].
  destruct (if m then prefs.LightMode pf else prefs.DarkMode pf)
    as [[pf' e] |]; [apply IH | done].
Qed.

Lemma Modes_schemes pf ms lc dc :
  prefs.ColorSchemes pf !! "Light" = Some (Some lc) ->
  prefs.ColorSchemes pf !! "Dark" = Some (Some dc) ->
  exists c, prefs.Modes pf ms = Some (prefs.mkColorSettings c (prefs.ColorSchemes pf)).
Proof.
  revert pf. induction ms as [| m ms IH]; intros pf Hl Hd; simpl.
  - exists (prefs.Colors pf). by destruct pf.
  - unfold prefs.LightMode, prefs.DarkMode. rewrite Hl, Hd.
    destruct m; apply (IH (prefs.mkColorSettings _ _)); done.
Qed.

(** The colour modes.  A mode whose scheme is missing from the map changes
    nothing and saves nothing: it only writes a line to the log.  When
    both schemes are there, any sequence of modes runs through, leaves the
    schemes as they were, and ends with the colours of the scheme of its
    last mode, whatever the colours were before. *)
Theorem ColorModes_last (pf : prefs.ColorSettings) (ms : list bool) (m : bool) :
  (prefs.ColorSchemes pf !! "Light" = None ->
     prefs.LightMode pf = Some (pf, [prefs.Log "Light ColorScheme not found\n"]))
  /\ (prefs.ColorSchemes pf !! "Dark" = None ->
      prefs.DarkMode pf = Some (pf, [prefs.Log "Dark ColorScheme not found\n"]))
  /\ (forall lc dc,
        prefs.ColorSchemes pf !! "Light" = Some (Some lc) ->
        prefs.ColorSchemes pf !! "Dark" = Some (Some dc) ->
        prefs.Modes pf (ms ++ [m])
        = Some (prefs.mkColorSettings (if m then lc else dc)
                  (prefs.ColorSchemes pf))).
Proof.
  split; [| split].
  - intros H. unfold prefs.LightMode. by rewrite H.
  - intros H. unfold prefs.DarkMode. by rewrite H.
  - intros lc dc Hl Hd. rewrite Modes_app.
    destruct (Modes_schemes pf ms lc dc Hl Hd) as [c ->].
    simpl. unfold prefs.LightMode, prefs.DarkMode. simpl.
    rewrite Hl, Hd. by destruct m.
Qed.

Lemma ColorModes_last_witness :
  prefs.Modes prefs.DefaultSettings ([false; true; false] ++ [true])
  = Some prefs.DefaultSettings.
Proof.
  destruct (ColorModes_last prefs.DefaultSettings [false; true; false] true)
    as (_ & _ & H).
  apply (H prefs.ColorDefaults prefs.DarkDefaults); reflexivity.
Defined.
